(** * Knowledge-base scaffolder: journal parser, topic router, materializer, index

    A shallow embedding of [scripts/study_agent.py], [scripts/knowledge.py]
    and [scripts/build_index.py].

    Text.  A Python [str] is a Rocq [string] holding the bytes of the UTF-8
    text.  Character predicates and case mapping are Python's on the ASCII
    range; a byte above 127 is caseless and is neither a space nor a digit.

    Regular expressions.  The [re] module is modelled by a backtracking
    matcher over a small pattern syntax, with the flags the scripts pass.

    Files.  The file system is a finite map from [pathlib] part lists to
    nodes; time stamps are not part of the state. *)

From Stdlib Require Import ZArith Ascii String.
From stdpp Require Import base option list strings gmap fin_maps sorting.

Local Open Scope string_scope.
Local Open Scope list_scope.

(** ** Text *)

Module Text.

Abbreviation chars := (list ascii).

Definition code (c : ascii) : nat := nat_of_ascii c.

Definition chars_of (s : string) : chars := list_ascii_of_string s.
Definition str_of (l : chars) : string := string_of_list_ascii l.

Definition in_range (lo hi : nat) (c : ascii) : bool :=
  (lo <=? code c)%nat && (code c <=? hi)%nat.

Definition is_lower_az (c : ascii) : bool := in_range 97 122 c.
Definition is_upper_AZ (c : ascii) : bool := in_range 65 90 c.
Definition is_digit (c : ascii) : bool := in_range 48 57 c.

(** [str.isspace] on the ASCII range: TAB LF VT FF CR, FS GS RS US, SPACE. *)
Definition is_space (c : ascii) : bool :=
  in_range 9 13 c || in_range 28 31 c || (code c =? 32)%nat.

Definition newline : ascii := ascii_of_nat 10.
Definition hyphen : ascii := ascii_of_nat 45.

Definition is_newline (c : ascii) : bool := (code c =? 10)%nat.

Definition lower_char (c : ascii) : ascii :=
  if is_upper_AZ c then ascii_of_nat (code c + 32) else c.
Definition upper_char (c : ascii) : ascii :=
  if is_lower_az c then ascii_of_nat (code c - 32) else c.

(** [s.lower()], [s.upper()] *)
Definition lower_l (l : chars) : chars := map lower_char l.
Definition upper_l (l : chars) : chars := map upper_char l.
Definition lower (s : string) : string := str_of (lower_l (chars_of s)).
Definition upper (s : string) : string := str_of (upper_l (chars_of s)).

(** [s.capitalize()]: first character upper-cased, the rest lower-cased. *)
Definition capitalize_l (l : chars) : chars :=
  match l with
  | [] => []
  | c :: t => upper_char c :: lower_l t
  end.
Definition capitalize (s : string) : string := str_of (capitalize_l (chars_of s)).

(** [s.lstrip(set)], [s.rstrip(set)], [s.strip(set)] for a set given as a
    predicate. *)
Fixpoint lstrip_l (p : ascii -> bool) (l : chars) : chars :=
  match l with
  | [] => []
  | c :: t => if p c then lstrip_l p t else l
  end.
Definition rstrip_l (p : ascii -> bool) (l : chars) : chars :=
  rev (lstrip_l p (rev l)).
Definition strip_l (p : ascii -> bool) (l : chars) : chars :=
  rstrip_l p (lstrip_l p l).

Definition is_hyphen (c : ascii) : bool := (code c =? 45)%nat.

(** [s.strip()] *)
Definition strip (s : string) : string := str_of (strip_l is_space (chars_of s)).

(** [s.replace(a, b)] for single characters. *)
Definition replace_char (a b : ascii) (l : chars) : chars :=
  map (fun c => if (code c =? code a)%nat then b else c) l.

(** [k in t] on strings: [k] occurs in [t] as a contiguous substring. *)
Fixpoint starts_with (k t : chars) : bool :=
  match k, t with
  | [], _ => true
  | _ :: _, [] => false
  | a :: k', b :: t' => (code a =? code b)%nat && starts_with k' t'
  end.
Fixpoint contains_l (k t : chars) : bool :=
  starts_with k t ||
  match t with
  | [] => false
  | _ :: t' => contains_l k t'
  end.
Definition contains (k t : string) : bool := contains_l (chars_of k) (chars_of t).

(** The text is in ASCII.  There the classes, the case mappings and the
    stripping of this module are those of Python; outside, a letter such as
    the Kelvin sign has a lower case, a digit such as an Arabic-Indic one is
    in \d, and a blank such as the no-break space is in \s. *)
Definition ascii_only (s : string) : bool :=
  forallb (fun c => (code c <? 128)%nat) (chars_of s).

(** [sep.join(parts)] *)
Fixpoint join (sep : string) (parts : list string) : string :=
  match parts with
  | [] => ""
  | [p] => p
  | p :: ps => p +:+ sep +:+ join sep ps
  end.

End Text.

(** ** Regular expressions: the part of [re] the scripts use *)

Module Re.
Import Text.

Inductive regex : Type :=
| Eps                                   (* empty pattern *)
| Lit (c : ascii)                       (* a literal character *)
| Cls (p : ascii -> bool)               (* \s, \d, [^a-z0-9] *)
| Dot                                   (* . *)
| Bol                                   (* ^ *)
| Eol                                   (* $ *)
| Cat (r1 r2 : regex)
| Star (r : regex)                      (* r*   greedy *)
| LazyStar (r : regex)                  (* r*?  lazy *)
| Rep (n : nat) (r : regex)             (* r{n} *)
| Grp (n : nat) (r : regex)             (* capture group number n *)
| NegLook (r : regex).                  (* (?!r) *)

(** r+ , r+? , r{2,} and a literal word *)
Definition Plus (r : regex) : regex := Cat r (Star r).
Definition LazyPlus (r : regex) : regex := Cat r (LazyStar r).
Definition AtLeast2 (r : regex) : regex := Cat r (Cat r (Star r)).
Fixpoint Word_l (w : chars) : regex :=
  match w with
  | [] => Eps
  | c :: t => Cat (Lit c) (Word_l t)
  end.
Definition Word (w : string) : regex := Word_l (chars_of w).

Declare Scope regex_scope.
Delimit Scope regex_scope with regex.
Bind Scope regex_scope with regex.
Infix "⋅" := Cat (at level 60, right associativity) : regex_scope.

Record flags : Type := Flags
  { IGNORECASE : bool; MULTILINE : bool; DOTALL : bool }.

Definition no_flags : flags := Flags false false false.

(** A position in the subject: the characters still to read, the character
    just before, the offset, and the groups captured so far. *)
Record mstate : Type := MState
  { pos : nat;
    prev : option ascii;
    rest : chars;
    caps : list (nat * chars) }.

Definition start_of (l : chars) : mstate := MState 0 None l [].

Definition advance (s : mstate) : option mstate :=
  match rest s with
  | [] => None
  | c :: t => Some (MState (S (pos s)) (Some c) t (caps s))
  end.

Definition eat (p : ascii -> bool) (s : mstate) (k : mstate -> option mstate)
  : option mstate :=
  match rest s with
  | [] => None
  | c :: t => if p c then k (MState (S (pos s)) (Some c) t (caps s)) else None
  end.

Definition lit_eq (f : flags) (c d : ascii) : bool :=
  if IGNORECASE f then (code (lower_char c) =? code (lower_char d))%nat
  else (code c =? code d)%nat.

Definition at_bol (f : flags) (s : mstate) : bool :=
  match prev s with
  | None => true
  | Some c => MULTILINE f && is_newline c
  end.

Definition at_eol (f : flags) (s : mstate) : bool :=
  match rest s with
  | [] => true
  | c :: t => is_newline c && (MULTILINE f || match t with [] => true | _ => false end)
  end.

Definition set_cap (n : nat) (from to : mstate) : mstate :=
  MState (pos to) (prev to) (rest to)
         ((n, take (pos to - pos from) (rest from)) :: caps to).

(** The repetitions, over the matcher [body] of the repeated pattern and
    the continuation [k]; [n] bounds the number of rounds, and a round that
    reads no character ends the repetition. *)
Fixpoint star_loop (body : mstate -> (mstate -> option mstate) -> option mstate)
    (k : mstate -> option mstate) (n : nat) (s : mstate) : option mstate :=
  match n with
  | O => k s
  | S n' =>
      match body s (fun s' => if (pos s <? pos s')%nat then star_loop body k n' s' else None)
      with
      | Some e => Some e
      | None => k s
      end
  end.

Fixpoint lazy_loop (body : mstate -> (mstate -> option mstate) -> option mstate)
    (k : mstate -> option mstate) (n : nat) (s : mstate) : option mstate :=
  match n with
  | O => k s
  | S n' =>
      match k s with
      | Some e => Some e
      | None =>
          body s (fun s' => if (pos s <? pos s')%nat then lazy_loop body k n' s' else None)
      end
  end.

Fixpoint times_loop (body : mstate -> (mstate -> option mstate) -> option mstate)
    (k : mstate -> option mstate) (n : nat) (s : mstate) : option mstate :=
  match n with
  | O => k s
  | S n' => body s (fun s' => times_loop body k n' s')
  end.

(** The matcher, in continuation-passing style: [rmatch f r s k] tries the
    ways [r] can match at [s] in the order [re] tries them, and returns the
    first for which the continuation [k] succeeds. *)
Fixpoint rmatch (f : flags) (r : regex) (s : mstate)
    (k : mstate -> option mstate) {struct r} : option mstate :=
  match r with
  | Eps => k s
  | Lit c => eat (lit_eq f c) s k
  | Cls p => eat p s k
  | Dot => eat (fun c => DOTALL f || negb (is_newline c)) s k
  | Bol => if at_bol f s then k s else None
  | Eol => if at_eol f s then k s else None
  | Cat r1 r2 => rmatch f r1 s (fun s' => rmatch f r2 s' k)
  | Star r' => star_loop (rmatch f r') k (length (rest s)) s
  | LazyStar r' => lazy_loop (rmatch f r') k (length (rest s)) s
  | Rep n r' => times_loop (rmatch f r') k n s
  | Grp n r' => rmatch f r' s (fun s' => k (set_cap n s s'))
  | NegLook r' =>
      match rmatch f r' s Some with
      | Some _ => None
      | None => k s
      end
  end.

(** A match object: its span and its groups. *)
Record rmatch_obj : Type := MatchObj
  { m_start : nat; m_end : nat; m_whole : chars; m_caps : list (nat * chars) }.

Fixpoint assoc (n : nat) (l : list (nat * chars)) : option chars :=
  match l with
  | [] => None
  | (m, v) :: t => if (n =? m)%nat then Some v else assoc n t
  end.

(** [m.group(n)] for a group that took part in the match *)
Definition group (n : nat) (m : rmatch_obj) : string :=
  match n with
  | O => str_of (m_whole m)
  | _ => str_of (default [] (assoc n (m_caps m)))
  end.

Definition clear (s : mstate) : mstate := MState (pos s) (prev s) (rest s) [].

(** [pattern.match] at one position *)
Definition match_at (f : flags) (r : regex) (s : mstate) : option (rmatch_obj * mstate) :=
  match rmatch f r (clear s) Some with
  | None => None
  | Some e =>
      Some (MatchObj (pos s) (pos e) (take (pos e - pos s) (rest s)) (caps e), clear e)
  end.

(** [pattern.search(text)]: the leftmost position with a match *)
Fixpoint search_from (f : flags) (r : regex) (n : nat) (s : mstate) : option rmatch_obj :=
  match match_at f r s with
  | Some (m, _) => Some m
  | None =>
      match n, advance s with
      | S n', Some s' => search_from f r n' s'
      | _, _ => None
      end
  end.
Definition search (f : flags) (r : regex) (text : string) : option rmatch_obj :=
  search_from f r (String.length text) (start_of (chars_of text)).

(** [pattern.finditer(text)]: the matches from left to right, each search
    resuming where the previous match ended. *)
Fixpoint finditer_from (f : flags) (r : regex) (n : nat) (s : mstate) : list rmatch_obj :=
  match n with
  | O => []
  | S n' =>
      match match_at f r s with
      | Some (m, e) =>
          if (pos s <? pos e)%nat then m :: finditer_from f r n' e
          else m :: match advance s with
                    | Some s' => finditer_from f r n' s'
                    | None => []
                    end
      | None =>
          match advance s with
          | Some s' => finditer_from f r n' s'
          | None => []
          end
      end
  end.
Definition finditer (f : flags) (r : regex) (text : string) : list rmatch_obj :=
  finditer_from f r (S (String.length text)) (start_of (chars_of text)).

(** [re.findall(pattern, text)] for a pattern with one group *)
Definition findall1 (f : flags) (r : regex) (text : string) : list string :=
  map (group 1) (finditer f r text).

(** [re.sub(pattern, repl, text)] for a literal replacement and a pattern
    that matches no empty string. *)
Fixpoint sub_from (f : flags) (r : regex) (repl : chars) (n : nat) (s : mstate) : chars :=
  match n with
  | O => rest s
  | S n' =>
      match rmatch f r (clear s) Some with
      | Some e =>
          if (pos s <? pos e)%nat then repl ++ sub_from f r repl n' (clear e)
          else match rest s, advance s with
               | c :: _, Some s' => c :: sub_from f r repl n' s'
               | _, _ => []
               end
      | None =>
          match rest s, advance s with
          | c :: _, Some s' => c :: sub_from f r repl n' s'
          | _, _ => []
          end
      end
  end.
Definition sub_l (f : flags) (r : regex) (repl : chars) (l : chars) : chars :=
  sub_from f r repl (S (length l)) (start_of l).
Definition sub (f : flags) (r : regex) (repl : string) (text : string) : string :=
  str_of (sub_l f r (chars_of repl) (chars_of text)).

End Re.

(** ** Exceptions and results *)

Module Py.

Inductive exn : Type :=
| FileExistsError
| FileNotFoundError
| NotADirectoryError
| IsADirectoryError
| PermissionError
| CalledProcessError (returncode : Z)
| SystemExit (code : Z).

Inductive result (A : Type) : Type :=
| Ok (a : A)
| Raise (e : exn).
Arguments Ok {A} a.
Arguments Raise {A} e.

(** Sequencing: an exception ends the computation. *)
#[global] Instance result_bind : MBind result := fun A B k m =>
  match m with
  | Ok a => k a
  | Raise e => Raise e
  end.
#[global] Instance result_ret : MRet result := fun A a => Ok a.

End Py.

(** ** [scripts/study_agent.py] *)

Module StudyAgent.
Import Text Re Py.
Local Open Scope regex_scope.

Definition ws : regex := Cls is_space.     (* \s *)
Definition digit : regex := Cls is_digit.  (* \d *)

(** \d{4}-\d{2}-\d{2} *)
Definition YMD : regex :=
  Rep 4 digit ⋅ Lit "-" ⋅ Rep 2 digit ⋅ Lit "-" ⋅ Rep 2 digit.

(** DATE_H = ^##\s*(\d{4}-\d{2}-\d{2})\s*$ *)
Definition DATE_H : regex :=
  Bol ⋅ Word "##" ⋅ Star ws ⋅ Grp 1 YMD ⋅ Star ws ⋅ Eol.

(** BLOCK = (?:(?!^##\s*\d{4}-\d{2}-\d{2}\s*$).)* ; [date_line] is the
    pattern inside its look-ahead. *)
Definition date_line : regex :=
  Bol ⋅ Word "##" ⋅ Star ws ⋅ YMD ⋅ Star ws ⋅ Eol.
Definition BLOCK : regex :=
  Star (NegLook date_line ⋅ Dot).

(** sec_re = DATE_H \n (BLOCK), compiled with MULTILINE | DOTALL *)
Definition sec_re : regex := DATE_H ⋅ Lit newline ⋅ Grp 2 BLOCK.
Definition sec_flags : flags :=
  {| IGNORECASE := false; MULTILINE := true; DOTALL := true |}.

(** rx = ^{heading}:\s*\n(BLOCK), compiled with IGNORECASE | MULTILINE *)
Definition list_re (heading : string) : regex :=
  Bol ⋅ Word heading ⋅ Lit ":" ⋅ Star ws ⋅ Lit newline ⋅ Grp 1 BLOCK.
Definition list_flags : flags :=
  {| IGNORECASE := true; MULTILINE := true; DOTALL := false |}.

(** ^\s*-\s*(.+?)\s*$ with MULTILINE *)
Definition bullet_re : regex :=
  Bol ⋅ Star ws ⋅ Lit "-" ⋅ Star ws ⋅ Grp 1 (LazyPlus Dot) ⋅ Star ws ⋅ Eol.
Definition bullet_flags : flags :=
  {| IGNORECASE := false; MULTILINE := true; DOTALL := false |}.

Record journal : Type := Journal
  { date : string; topics : list string; notes : list string }.

(** Python truth of a string: non-empty *)
Definition truthy (s : string) : bool :=
  match s with
  | EmptyString => false
  | String _ _ => true
  end.

Definition parse_list (section : string) (heading : string) : list string :=
  match search list_flags (list_re heading) section with
  | None => []
  | Some mm =>
      let bullets := findall1 bullet_flags bullet_re (group 1 mm) in
      List.filter truthy (map strip bullets)
  end.

(** The [for m in sec_re.finditer(text)] loop: the body of the first match
    whose date is the target. *)
Fixpoint first_section (ms : list rmatch_obj) (target_date : string) : option string :=
  match ms with
  | [] => None
  | m :: ms' =>
      if String.eqb (group 1 m) target_date then Some (group 2 m)
      else first_section ms' target_date
  end.

(** [parse_yearly_journal]: [text] is what [md_path.read_text] returned and
    [today] what [datetime.now().strftime] gives. *)
Definition parse_yearly_journal (today : string) (text : string)
    (target_date : option string) : journal :=
  let target_date :=
    match target_date with
    | Some d => if truthy d then d else today
    | None => today
    end in
  let section := first_section (finditer sec_flags sec_re text) target_date in
  match section with
  | None => Journal target_date [] []
  | Some section =>
      if truthy section then
        Journal target_date (parse_list section "Topics") (parse_list section "Notes")
      else Journal target_date [] []
  end.

Definition any_in (keys : list string) (t : string) : bool :=
  existsb (fun k => contains k t) keys.

Definition group1 := ["react"; "ag grid"; "frontend"; "tsx"; "typescript"].
Definition group2 :=
  ["git"; "docker"; "kubernetes"; "ci/cd"; "ci-cd"; "shell"; "zsh"; "brew"; "homebrew"].
Definition group3 := ["java"; "spring"].
Definition group4 := ["django"; "python"].
Definition group5 := ["langchain"; "agent"; "crewai"].
Definition group6 := ["rag"; "prompt"; "fine-tuning"; "evals"; "transformer"; "embedding"].
Definition group7 := ["sklearn"; "regression"; "clustering"; "pytorch"; "tensorflow"].

Definition route (topic : string) : string * string * string :=
  let t := lower topic in
  if any_in group1 t then ("swe", "frontend", "typescript")
  else if any_in group2 t then ("swe", "devops", "bash")
  else if any_in group3 t then ("swe", "backend", "java")
  else if any_in group4 t then ("swe", "backend", "python")
  else if any_in group5 t then ("ai", "agents", "python")
  else if any_in group6 t then ("ai", "llms", "python")
  else if any_in group7 t then ("ml", "frameworks", "python")
  else ("swe", "misc", "python").

(** [route] with [str.lower] as a parameter: the same tests in the same
    order on [lower topic], whatever function [lower] is. *)
Definition route_with (lower : string -> string) (topic : string)
  : string * string * string :=
  let t := lower topic in
  if any_in group1 t then ("swe", "frontend", "typescript")
  else if any_in group2 t then ("swe", "devops", "bash")
  else if any_in group3 t then ("swe", "backend", "java")
  else if any_in group4 t then ("swe", "backend", "python")
  else if any_in group5 t then ("ai", "agents", "python")
  else if any_in group6 t then ("ai", "llms", "python")
  else if any_in group7 t then ("ml", "frameworks", "python")
  else ("swe", "misc", "python").

(** Running a child process: it runs and returns an exit status, or it
    cannot be started and [Popen] raises an [OSError]. *)
Inductive proc_outcome : Type :=
| Returned (returncode : Z)
| NotStarted (e : exn).

(** [subprocess.run(args, check=True)] on the outcome of the child *)
Definition run_checked (o : proc_outcome) : result unit :=
  match o with
  | Returned rc => if (rc =? 0)%Z then Ok tt else Raise (CalledProcessError rc)
  | NotStarted e => Raise e
  end.

(** The world a run of the script sees: [spawn n args] is the outcome of the
    child process started with [args] after [n] earlier children; the
    working directory given to a child is not modelled. *)
Record world : Type := World
  { read_text : string -> result string;
    today : string;
    spawn : nat -> list string -> proc_outcome }.

(** [add_topic]: the materializer is run as a child process. *)
Definition add_topic (w : world) (n : nat) (area group topic lang : string)
  : result unit :=
  run_checked
    (spawn w n ["python"; "scripts/knowledge.py"; "add"; area; group; topic; "--lang"; lang]).

(** The [for t in data["topics"]] loop; the result is the number of
    children started so far. *)
Fixpoint add_topics (w : world) (n : nat) (ts : list string) : result nat :=
  match ts with
  | [] => Ok n
  | t :: ts' =>
      let '(area, group, lang) := route t in
      _ ← add_topic w n area group t lang;
      add_topics w (S n) ts'
  end.

(** The [try] ... [except subprocess.CalledProcessError] block; the result
    is the line printed. *)
Definition commit (w : world) (n : nat) (date : string) : result string :=
  match
    _ ← run_checked (spawn w n ["git"; "add"; "-A"]);
    _ ← run_checked (spawn w (S n) ["git"; "commit"; "-m"; "study: " +:+ date +:+ " topics"]);
    Ok "✅ committed changes"
  with
  | Raise (CalledProcessError _) => Ok "ℹ️ nothing to commit"
  | r => r
  end.

(** How a run ends. *)
Inductive status : Type :=
| Finished                 (* [main] returned *)
| SysExit (code : Z)       (* [sys.exit(code)] *)
| Uncaught (e : exn).      (* an exception left [main] *)

Record run : Type := Run { printed : list string; ended : status }.

Definition usage : string :=
  "Usage: study_agent.py journal/2025.md [--date YYYY-MM-DD]".

Definition no_topics (d : string) : string :=
  "No topics found for " +:+ d +:+ ". Add a 'Topics:' list under '## " +:+ d +:+ "'.".

Definition main (argv : list string) (w : world) : run :=
  match argv with
  | [] | [_] => Run [usage] (SysExit 1)
  | _ :: md_path :: args =>
      let target_date :=
        match args with
        | flag :: d :: _ => if String.eqb flag "--date" then Some d else None
        | _ => None
        end in
      match read_text w md_path with
      | Raise e => Run [] (Uncaught e)
      | Ok text =>
          let data := parse_yearly_journal (today w) text target_date in
          match topics data with
          | [] => Run [no_topics (date data)] (SysExit 0)
          | ts =>
              match add_topics w 0 ts with
              | Raise e => Run [] (Uncaught e)
              | Ok n =>
                  match commit w n (date data) with
                  | Ok line => Run [line] Finished
                  | Raise e => Run [] (Uncaught e)
                  end
              end
          end
      end
  end.

End StudyAgent.

(** ** The file system and [pathlib] paths *)

Module Fs.
Import Text Py.

Inductive node : Type :=
| Dir
| File (content : string).

(** A path is its [parts]; the working directory is the empty list.  A
    part [..] is kept as it is, and there are no symbolic links.  Every
    entry of a tree is taken to lie in a directory that is an entry too. *)
Abbreviation path := (list string).
Abbreviation fsmap := (gmap (list string) node).

Fixpoint split_l (sep : ascii -> bool) (cur : chars) (l : chars) : list chars :=
  match l with
  | [] => [rev cur]
  | c :: t => if sep c then rev cur :: split_l sep [] t else split_l sep (c :: cur) t
  end.

Definition is_slash (c : ascii) : bool := (code c =? 47)%nat.

(** The parts a segment contributes: split at [/], empty and [.] parts dropped. *)
Definition seg_parts (seg : string) : list string :=
  List.filter (fun x => negb (String.eqb x "" || String.eqb x "."))
    (map str_of (split_l is_slash [] (chars_of seg))).

(** The root of an absolute segment: [//] when it starts with exactly two
    slashes, [/] otherwise. *)
Definition seg_root (seg : string) : option string :=
  match chars_of seg with
  | a :: b :: c :: _ =>
      if is_slash a then
        if is_slash b && negb (is_slash c) then Some "//" else Some "/"
      else None
  | [a; b] =>
      if is_slash a then if is_slash b then Some "//" else Some "/" else None
  | [a] => if is_slash a then Some "/" else None
  | [] => None
  end.

(** [p / seg] *)
Definition join_path (p : path) (seg : string) : path :=
  match seg_root seg with
  | Some r => r :: seg_parts seg
  | None => p ++ seg_parts seg
  end.

Declare Scope path_scope.
Delimit Scope path_scope with path.
Infix "/" := join_path : path_scope.
Local Open Scope path_scope.

Definition is_root (p : path) : bool :=
  match p with
  | [] => true
  | [r] => String.eqb r "/" || String.eqb r "//"
  | _ => false
  end.

(** [p.parent]; a root is its own parent. *)
Definition parent (p : path) : path :=
  if is_root p then p else removelast p.

(** [p.name] *)
Definition name (p : path) : string :=
  if is_root p then "" else List.last p "".

(** What is at [p]: the working directory and the roots are directories. *)
Definition stat (fs : fsmap) (p : path) : option node :=
  if is_root p then Some Dir else fs !! p.

Definition exists_ (fs : fsmap) (p : path) : bool :=
  match stat fs p with
  | Some _ => true
  | None => false
  end.

Definition is_dir (fs : fsmap) (p : path) : bool :=
  match stat fs p with
  | Some Dir => true
  | _ => false
  end.

(** [os.mkdir(p)] *)
Definition os_mkdir (p : path) (fs : fsmap) : result fsmap :=
  match stat fs (parent p) with
  | None => Raise FileNotFoundError
  | Some (File _) => Raise NotADirectoryError
  | Some Dir =>
      match stat fs p with
      | Some _ => Raise FileExistsError
      | None => Ok (<[p := Dir]> fs)
      end
  end.

(** [p.mkdir(exist_ok=True)] *)
Definition mkdir (p : path) (fs : fsmap) : result fsmap :=
  match os_mkdir p fs with
  | Ok fs' => Ok fs'
  | Raise FileNotFoundError => Raise FileNotFoundError
  | Raise e => if is_dir fs p then Ok fs else Raise e
  end.

(** [p.mkdir(parents=True, exist_ok=True)], by recursion on the reversed
    parts [rp] of [p]: a missing parent is made first. *)
Fixpoint mkdir_parents_rev (rp : list string) (fs : fsmap) : result fsmap :=
  let p := rev rp in
  match os_mkdir p fs with
  | Ok fs' => Ok fs'
  | Raise FileNotFoundError =>
      match rp with
      | [] => Raise FileNotFoundError
      | _ :: rp' =>
          if is_root p then Raise FileNotFoundError
          else fs1 ← mkdir_parents_rev rp' fs; mkdir p fs1
      end
  | Raise e => if is_dir fs p then Ok fs else Raise e
  end.
Definition mkdir_parents (p : path) (fs : fsmap) : result fsmap :=
  mkdir_parents_rev (rev p) fs.

(** [p.touch()]: an existing entry is left as it is, a missing one becomes
    an empty file. *)
Definition touch (p : path) (fs : fsmap) : result fsmap :=
  match stat fs p with
  | Some _ => Ok fs
  | None =>
      match stat fs (parent p) with
      | None => Raise FileNotFoundError
      | Some (File _) => Raise NotADirectoryError
      | Some Dir => Ok (<[p := File ""]> fs)
      end
  end.

(** [p.write_text(text)] *)
Definition write_text (p : path) (text : string) (fs : fsmap) : result fsmap :=
  match stat fs p with
  | Some Dir => Raise IsADirectoryError
  | Some (File _) => Ok (<[p := File text]> fs)
  | None =>
      match stat fs (parent p) with
      | None => Raise FileNotFoundError
      | Some (File _) => Raise NotADirectoryError
      | Some Dir => Ok (<[p := File text]> fs)
      end
  end.

(** The name of [k] when [k] is an entry directly inside [p]. *)
Fixpoint child_of (p k : path) : option string :=
  match p, k with
  | [], [n] => Some n
  | a :: p', b :: k' => if String.eqb a b then child_of p' k' else None
  | _, _ => None
  end.

Fixpoint insert_sorted (x : string) (l : list string) : list string :=
  match l with
  | [] => [x]
  | y :: t => if String.leb x y then x :: l else y :: insert_sorted x t
  end.
Definition sort_names (l : list string) : list string :=
  fold_right insert_sorted [] l.

(** [sorted(p.iterdir())] *)
Definition sorted_iterdir (p : path) (fs : fsmap) : result (list path) :=
  match stat fs p with
  | None => Raise FileNotFoundError
  | Some (File _) => Raise NotADirectoryError
  | Some Dir =>
      Ok (map (fun n => p ++ [n])
            (sort_names (omap (fun kv => child_of p (fst kv)) (map_to_list fs))))
  end.

(** [p.relative_to(root).as_posix()] for [p] below [root] *)
Definition relative_posix (root p : path) : string :=
  join "/" (drop (length root) p).

(** Whether a call returned, and the tree it left (the empty tree when it
    raised). *)
Definition returned (r : result fsmap) : bool :=
  match r with
  | Ok _ => true
  | Raise _ => false
  end.

Definition state_of (r : result fsmap) : fsmap :=
  match r with
  | Ok fs => fs
  | Raise _ => ∅
  end.

End Fs.

(** ** [scripts/knowledge.py] *)

Module Knowledge.
Import Text Re Py Fs.
Local Open Scope path_scope.

Definition ROOT : path := ["knowledge"].

(** The dictionary in the order it is written, which is the order it is
    iterated in. *)
Definition CATEGORIES : list (string * list (string * list string)) :=
  [ ("swe",
      [ ("frontend", ["react"; "typescript"; "css-tailwind"]);
        ("backend", ["java-spring"; "python-django"; "node-express"]);
        ("languages", ["javascript"; "python"; "java"; "rust"]);
        ("devops", ["git"; "ci-cd"; "docker-k8s"; "cloud-aws"; "shell"]);
        ("security", ["web-security"; "authentication"; "cryptography"]);
        ("misc", []) ]);
    ("ml",
      [ ("fundamentals", ["linear-regression"; "decision-trees"; "clustering"]);
        ("data-engineering", ["preprocessing"; "feature-engineering"; "pipelines"]);
        ("mlops", ["model-training"; "model-deployment"; "monitoring"]);
        ("frameworks", ["sklearn"; "tensorflow"; "pytorch"]);
        ("misc", []) ]);
    ("ai",
      [ ("llms", ["prompting"; "fine-tuning"; "evals"; "safety-redteaming"]);
        ("nlp-classic", ["embeddings"; "transformers"; "seq2seq"]);
        ("agents", ["langchain"; "crewai"; "orchestration"]);
        ("applications", ["chatbots"; "search"; "retrieval-augmented-gen"]);
        ("misc", []) ]) ].

Definition is_alnum (c : ascii) : bool := is_lower_az c || is_digit c.
Definition not_alnum (c : ascii) : bool := negb (is_alnum c).

(** [^a-z0-9]+ and -{2,} *)
Definition non_alnum_run : regex := Plus (Cls not_alnum).
Definition hyphen_run : regex := AtLeast2 (Lit "-").

Definition slug_l (l : chars) : chars :=
  let l := lower_l (strip_l is_space l) in
  let l := strip_l is_hyphen (sub_l no_flags non_alnum_run [hyphen] l) in
  sub_l no_flags hyphen_run [hyphen] l.
Definition slug (s : string) : string := str_of (slug_l (chars_of s)).

(** The body of the inner loop of [ensure_tree], for one suggested topic. *)
Definition ensure_topic (base : path) (t : string) (fs : fsmap) : result fsmap :=
  fs ← mkdir_parents (base / t) fs;
  touch (base / t / ".gitkeep") fs.

Fixpoint ensure_topics (base : path) (ts : list string) (fs : fsmap) : result fsmap :=
  match ts with
  | [] => Ok fs
  | t :: ts' => fs ← ensure_topic base t fs; ensure_topics base ts' fs
  end.

Definition ensure_group (root : path) (area : string) (g : string * list string)
    (fs : fsmap) : result fsmap :=
  let base := root / area / fst g in
  fs ← mkdir_parents base fs;
  fs ← touch (base / ".gitkeep") fs;
  ensure_topics base (snd g) fs.

Fixpoint ensure_groups (root : path) (area : string)
    (gs : list (string * list string)) (fs : fsmap) : result fsmap :=
  match gs with
  | [] => Ok fs
  | g :: gs' => fs ← ensure_group root area g fs; ensure_groups root area gs' fs
  end.

Fixpoint ensure_areas (root : path)
    (cats : list (string * list (string * list string))) (fs : fsmap) : result fsmap :=
  match cats with
  | [] => Ok fs
  | (area, groups) :: cats' =>
      fs ← ensure_groups root area groups fs; ensure_areas root cats' fs
  end.

Definition ensure_tree (root : path) (fs : fsmap) : result fsmap :=
  fs ← ensure_areas root CATEGORIES fs;
  touch (root / "INDEX.md") fs.

(** The README stub after [textwrap.dedent], for a title, an area and a
    group of one line each: the code dedents after it has put the values in,
    so a line break in a value would leave the margin in place.  [today] is
    [datetime.now().strftime("%Y-%m-%d")]. *)
Definition readme_text (topic area group today : string) : string :=
  let nl := String newline "" in
  String.concat nl
    [ "# " +:+ topic;
      "";
      "**Area:** " +:+ area +:+ " / **Group:** " +:+ group +:+ "  ";
      "**Created:** " +:+ today;
      "";
      "## Difficulty";
      "(easy|medium|hard)";
      "";
      "## Why this matters";
      "(short note)";
      "";
      "## Key concepts";
      "- …";
      "";
      "## Pitfalls";
      "- …";
      "";
      "## Further reading";
      "- …";
      "";
      "" ].

(** {"python":"py","typescript":"ts","javascript":"js","bash":"sh"}.get(lang, "txt") *)
Definition ext_of (lang : string) : string :=
  if String.eqb lang "python" then "py"
  else if String.eqb lang "typescript" then "ts"
  else if String.eqb lang "javascript" then "js"
  else if String.eqb lang "bash" then "sh"
  else "txt".

Definition quote : string := String (ascii_of_nat 34) "".

Definition code_of (lang : string) : string :=
  let nl := String newline "" in
  if String.eqb lang "python" then
    "print(" +:+ quote +:+ "hello from example" +:+ quote +:+ ")" +:+ nl
  else if String.eqb lang "javascript" then
    "console.log(" +:+ quote +:+ "hello from example" +:+ quote +:+ ")" +:+ nl
  else if String.eqb lang "typescript" then
    "console.log(" +:+ quote +:+ "hello from example" +:+ quote +:+ ")" +:+ nl
  else if String.eqb lang "bash" then
    "echo " +:+ quote +:+ "hello from example" +:+ quote +:+ nl
  else "Example placeholder." +:+ nl.

(** Where [add_topic] puts the topic. *)
Definition dest_of (root : path) (area group topic : string) : path :=
  root / lower area / lower group / slug topic.

Definition add_topic (root : path) (today : string)
    (area group topic lang : string) (fs : fsmap) : result fsmap :=
  let area := lower area in
  let group := lower group in
  let tslug := slug topic in
  let dest := root / area / group / tslug in
  fs ← (if negb (exists_ fs dest) then mkdir_parents dest fs else Ok fs);
  fs ← mkdir (dest / "examples") fs;
  fs ← touch (dest / ".gitkeep") fs;
  let readme := dest / "README.md" in
  fs ← (if negb (exists_ fs readme)
        then write_text readme (readme_text topic area group today) fs
        else Ok fs);
  let ext := ext_of lang in
  let ex := dest / "examples" / ("main." +:+ ext) in
  if negb (exists_ fs ex) then write_text ex (code_of lang) fs else Ok fs.

(** The command line after [argparse]: the sub-command and its arguments. *)
Inductive command : Type :=
| Bootstrap (root : string)
| Add (area group topic lang : string).

Definition area_choices : list string := ["swe"; "ml"; "ai"].

(** [main]: [argparse] ends the run with status 2 when the area is not one
    of the choices; the global [ROOT] is the --root of bootstrap, and
    "knowledge" for add. *)
Definition main (today : string) (args : command) (fs : fsmap) : result fsmap :=
  match args with
  | Bootstrap root => ensure_tree ([] / root) fs
  | Add area group topic lang =>
      if existsb (String.eqb area) area_choices then
        fs ← ensure_tree ROOT fs;
        add_topic ROOT today area group topic lang fs
      else Raise (SystemExit 2)
  end.

End Knowledge.

(** ** [scripts/build_index.py] *)

Module BuildIndex.
Import Text Py Fs.
Local Open Scope path_scope.

Definition ROOT : path := ["knowledge"].

Definition starts_with_dot (n : string) : bool :=
  match n with
  | String c _ => (code c =? 46)%nat
  | EmptyString => false
  end.

(** [not d.is_dir() or d.name.startswith(".")] *)
Definition skipped (fs : fsmap) (d : path) : bool :=
  negb (is_dir fs d) || starts_with_dot (name d).

Definition topic_lines (root : path) (fs : fsmap) (topic_dir : path) : list string :=
  if skipped fs topic_dir then []
  else
    let readme := topic_dir / "README.md" in
    if exists_ fs readme then
      let title := str_of (capitalize_l (replace_char "-" " " (chars_of (name topic_dir)))) in
      ["  - [" +:+ title +:+ "](" +:+ relative_posix root readme +:+ ")"]
    else [].

Definition group_lines (root : path) (fs : fsmap) (group_dir : path)
  : result (list string) :=
  if skipped fs group_dir then Ok []
  else
    topics ← sorted_iterdir group_dir fs;
    Ok (("- " +:+ capitalize (name group_dir))
          :: concat (map (topic_lines root fs) topics)).

Fixpoint groups_lines (root : path) (fs : fsmap) (gs : list path)
  : result (list string) :=
  match gs with
  | [] => Ok []
  | g :: gs' =>
      l ← group_lines root fs g;
      ls ← groups_lines root fs gs';
      Ok (l ++ ls)
  end.

Definition area_lines (root : path) (fs : fsmap) (area_dir : path)
  : result (list string) :=
  if skipped fs area_dir then Ok []
  else
    groups ← sorted_iterdir area_dir fs;
    ls ← groups_lines root fs groups;
    Ok (("## " +:+ upper (name area_dir)) :: ls ++ [""]).

Fixpoint areas_lines (root : path) (fs : fsmap) (areas : list path)
  : result (list string) :=
  match areas with
  | [] => Ok []
  | a :: areas' =>
      l ← area_lines root fs a;
      ls ← areas_lines root fs areas';
      Ok (l ++ ls)
  end.

Definition index_lines (root : path) (fs : fsmap) : result (list string) :=
  areas ← sorted_iterdir root fs;
  ls ← areas_lines root fs areas;
  Ok (("# 📚 Knowledge Index" +:+ String newline "") :: ls).

Definition build_index (root : path) (fs : fsmap) : result fsmap :=
  lines ← index_lines root fs;
  write_text (root / "INDEX.md") (join (String newline "") lines) fs.

End BuildIndex.

(** * Properties *)

(** ** Text *)

Module TextFacts.
Import Text.

Lemma code_inj (a b : ascii) : code a = code b -> a = b.
Proof.
  unfold code. intros H.
  rewrite <- (ascii_nat_embedding a), <- (ascii_nat_embedding b). by rewrite H.
Qed.

Lemma code_eqb (a b : ascii) : (code a =? code b)%nat = true <-> a = b.
Proof.
  rewrite Nat.eqb_eq. split; [apply code_inj | by intros ->].
Qed.

Lemma str_of_chars_of (s : string) : str_of (chars_of s) = s.
Proof. apply string_of_list_ascii_of_string. Qed.

Lemma chars_of_str_of (l : chars) : chars_of (str_of l) = l.
Proof. apply list_ascii_of_string_of_list_ascii. Qed.

Lemma chars_of_app (a b : string) : chars_of (a +:+ b) = chars_of a ++ chars_of b.
Proof. induction a as [|c a IH]; simpl; [done | by rewrite IH]. Qed.

Lemma str_of_app (a b : chars) : str_of (a ++ b) = str_of a +:+ str_of b.
Proof. induction a as [|c a IH]; simpl; [done | by rewrite IH]. Qed.

Lemma chars_of_inj (a b : string) : chars_of a = chars_of b -> a = b.
Proof.
  intros H. rewrite <- (str_of_chars_of a), <- (str_of_chars_of b). by rewrite H.
Qed.

(** [k] occurs in [t]: some text, then [k], then some text. *)
Definition occurs (k t : string) : Prop :=
  exists pre post : string, t = pre +:+ k +:+ post.

Lemma starts_with_spec (k t : chars) :
  starts_with k t = true <-> exists post, t = k ++ post.
Proof.
  revert t. induction k as [|a k IH]; intros t; simpl.
  - split; [by exists t | done].
  - destruct t as [|b t].
    + split; [done | by intros [post ?]].
    + rewrite andb_true_iff, code_eqb, IH. split.
      * intros [-> [post ->]]. by exists post.
      * intros [post [= -> ->]]. eauto.
Qed.

Lemma contains_l_spec (k t : chars) :
  contains_l k t = true <-> exists pre post, t = pre ++ k ++ post.
Proof.
  induction t as [|b t IH]; simpl.
  - rewrite orb_false_r, starts_with_spec. split.
    + intros [post ->]. by exists [], post.
    + intros [pre [post H]]. symmetry in H.
      apply app_eq_nil in H as [-> H]. apply app_eq_nil in H as [-> ->]. by exists [].
  - rewrite orb_true_iff, starts_with_spec, IH. split.
    + intros [[post ->] | [pre [post ->]]].
      * by exists [], post.
      * by exists (b :: pre), post.
    + intros [[|c pre] [post H]].
      * left. by exists post.
      * right. injection H as -> ->. by exists pre, post.
Qed.

(** The [in] test of Python is the substring relation. *)
Lemma contains_spec (k t : string) : contains k t = true <-> occurs k t.
Proof.
  unfold contains, occurs. rewrite contains_l_spec. split.
  - intros [pre [post H]]. exists (str_of pre), (str_of post).
    apply chars_of_inj. by rewrite !chars_of_app, !chars_of_str_of.
  - intros [pre [post ->]]. exists (chars_of pre), (chars_of post).
    by rewrite !chars_of_app.
Qed.

End TextFacts.

(** ** The topic router *)

Module RouterSpec.
Import Text TextFacts StudyAgent.

Lemma any_in_spec (keys : list string) (t : string) :
  any_in keys t = true <-> exists k, In k keys /\ occurs k t.
Proof.
  unfold any_in. rewrite existsb_exists.
  split; intros [k [Hk H]]; exists k; split; auto; by apply contains_spec.
Qed.

Lemma any_in_none (keys : list string) (t : string) :
  (forall k, In k keys -> ~ occurs k t) -> any_in keys t = false.
Proof.
  intros H. destruct (any_in keys t) eqn:E; [|done].
  apply any_in_spec in E as [k [Hk Ho]]. by destruct (H k Hk).
Qed.

Lemma not_occurs (k t : string) : contains k t = false -> ~ occurs k t.
Proof. intros E H. apply contains_spec in H. congruence. Qed.

Ltac no_keyword :=
  let k := fresh "k" in
  let Hk := fresh "Hk" in
  intros k Hk; simpl in Hk;
  repeat (destruct Hk as [<- | Hk]; [by apply not_occurs; vm_compute|]);
  destruct Hk.

Ltac has_keyword w :=
  exists w; split; [simpl; tauto | by apply contains_spec; vm_compute].

(** C2.  [route "java python"] is [(swe, backend, java)]; and a topic in
    ASCII whose lower-cased text contains a keyword of group 3 and a keyword
    of group 4, and no keyword of groups 1 and 2, is routed to
    [(swe, backend, java)], wherever the keywords stand in it.  The same
    holds of every topic whatever the lower-casing function is: so for
    [str.lower] on any text. *)
Theorem route_java_before_python :
  route "java python" = ("swe", "backend", "java") /\
  (forall topic : string,
     ascii_only topic = true ->
     (exists k, In k group3 /\ occurs k (lower topic)) ->
     (exists k, In k group4 /\ occurs k (lower topic)) ->
     (forall k, In k (group1 ++ group2) -> ~ occurs k (lower topic)) ->
     route topic = ("swe", "backend", "java")) /\
  (forall (lw : string -> string) (topic : string),
     (exists k, In k group3 /\ occurs k (lw topic)) ->
     (exists k, In k group4 /\ occurs k (lw topic)) ->
     (forall k, In k (group1 ++ group2) -> ~ occurs k (lw topic)) ->
     route_with lw topic = ("swe", "backend", "java")).
Proof.
  assert (H : forall (lw : string -> string) (topic : string),
     (exists k, In k group3 /\ occurs k (lw topic)) ->
     (exists k, In k group4 /\ occurs k (lw topic)) ->
     (forall k, In k (group1 ++ group2) -> ~ occurs k (lw topic)) ->
     route_with lw topic = ("swe", "backend", "java")).
  { intros lw topic H3 _ H12. unfold route_with.
    rewrite (any_in_none group1), (any_in_none group2).
    - apply any_in_spec in H3. by rewrite H3.
    - intros k Hk. apply H12, in_or_app. by right.
    - intros k Hk. apply H12, in_or_app. by left. }
  split; [by vm_compute|]. split; [|exact H].
  intros topic _. apply (H lower).
Qed.

Lemma route_java_before_python_witness :
  route "Python for Java developers" = ("swe", "backend", "java").
Proof.
  apply (proj1 (proj2 route_java_before_python)).
  - by vm_compute.
  - has_keyword "java".
  - has_keyword "python".
  - no_keyword.
Defined.

Definition all_keywords : list string :=
  group1 ++ group2 ++ group3 ++ group4 ++ group5 ++ group6 ++ group7.

(** C8.  [route] is a function, defined on every string; it sends the three
    sample topics to their groups, and a topic in ASCII whose lower-cased
    text contains no keyword of any group to the fallback
    [(swe, misc, python)].  The same holds of every topic whatever the
    lower-casing function is: so for [str.lower] on any text. *)
Theorem route_samples_and_fallback :
  route "Learning Django REST" = ("swe", "backend", "python") /\
  route "Kubernetes CI/CD pipeline" = ("swe", "devops", "bash") /\
  route "Fine-tuning a transformer" = ("ai", "llms", "python") /\
  route "something unrelated" = ("swe", "misc", "python") /\
  (forall topic : string,
     ascii_only topic = true ->
     (forall k, In k all_keywords -> ~ occurs k (lower topic)) ->
     route topic = ("swe", "misc", "python")) /\
  (forall (lw : string -> string) (topic : string),
     (forall k, In k all_keywords -> ~ occurs k (lw topic)) ->
     route_with lw topic = ("swe", "misc", "python")).
Proof.
  assert (H : forall (lw : string -> string) (topic : string),
     (forall k, In k all_keywords -> ~ occurs k (lw topic)) ->
     route_with lw topic = ("swe", "misc", "python")).
  { intros lw topic H. unfold route_with.
    assert (Hg : forall g, incl g all_keywords -> any_in g (lw topic) = false).
    { intros g Hg. apply any_in_none. intros k Hk. apply H, Hg, Hk. }
    rewrite !Hg;
      [done | unfold all_keywords, incl; intros k Hk; rewrite !in_app_iff; tauto ..]. }
  do 4 (split; [by vm_compute|]). split; [|exact H].
  intros topic _. apply (H lower).
Qed.

Lemma route_samples_and_fallback_witness :
  route "Borrow checker notes" = ("swe", "misc", "python").
Proof.
  apply (proj1 (proj2 (proj2 (proj2 (proj2 route_samples_and_fallback))))).
  - by vm_compute.
  - no_keyword.
Defined.

End RouterSpec.

(** ** The journal parser *)

Module JournalSpec.
Import Text TextFacts Re StudyAgent.

Definition nl : string := String newline "".

(** The document of the round-trip example: one section, a Topics block of
    two bullets and a Notes block of one. *)
Definition sample_doc : string :=
  "## 2025-06-01" +:+ nl +:+
  "Topics:" +:+ nl +:+
  "- rust basics" +:+ nl +:+
  "- docker networking" +:+ nl +:+
  "Notes:" +:+ nl +:+
  "- review later" +:+ nl.

End JournalSpec.

(** ** The study orchestrator *)

Module OrchestratorSpec.
Import Text Re Py StudyAgent.

Definition committed : string := "✅ committed changes".
Definition nothing_to_commit : string := "ℹ️ nothing to commit".

(** A world with the sample journal in which the materializer runs and
    [git] is not installed. *)
Definition world_without_git : world :=
  {| read_text := fun _ => Ok JournalSpec.sample_doc;
     today := "2025-06-01";
     spawn := fun _ args =>
       match args with
       | cmd :: _ => if String.eqb cmd "git" then NotStarted FileNotFoundError
                     else Returned 0
       | [] => Returned 0
       end |}.

(** C6, as stated, fails: when [git] cannot be started the exception is not
    a [CalledProcessError], and it leaves [main]. *)
Lemma git_missing_is_fatal :
  main ["study_agent.py"; "journal/2025.md"] world_without_git
  = Run [] (Uncaught FileNotFoundError).
Proof. by vm_compute. Qed.

(** Every [git] command can be started. *)
Definition git_starts (w : world) : Prop :=
  forall (n : nat) (args : list string),
    exists rc : Z, spawn w n ("git" :: args) = Returned rc.

(** C6, amended.  When the [git] commands can be started, whatever their
    exit statuses, the commit step raises nothing and prints one of its two
    lines; and a run that reached that step ends by returning from [main]. *)
Theorem commit_exit_status_is_caught (w : world) :
  git_starts w ->
  (forall (n : nat) (d : string),
     commit w n d = Ok committed \/ commit w n d = Ok nothing_to_commit) /\
  (forall (prog md_path text : string) (args : list string) (n : nat),
     read_text w md_path = Ok text ->
     let data := parse_yearly_journal (today w) text
                   match args with
                   | flag :: d :: _ => if String.eqb flag "--date" then Some d else None
                   | _ => None
                   end in
     topics data <> [] ->
     add_topics w 0 (topics data) = Ok n ->
     exists line, main (prog :: md_path :: args) w = Run [line] Finished).
Proof.
  intros Hg.
  assert (Hc : forall n d,
             commit w n d = Ok committed \/ commit w n d = Ok nothing_to_commit).
  { intros n d. unfold commit.
    destruct (Hg n ["add"; "-A"]) as [rc1 ->].
    destruct (Hg (S n) ["commit"; "-m"; "study: " +:+ d +:+ " topics"]) as [rc2 ->].
    simpl. destruct (rc1 =? 0)%Z; simpl; [|by right].
    destruct (rc2 =? 0)%Z; simpl; [by left | by right]. }
  split; [exact Hc|].
  intros prog md_path text args n Hr data Ht Ha.
  unfold main. rewrite Hr. fold data.
  destruct (topics data) as [|t ts] eqn:E; [done|].
  rewrite Ha. destruct (Hc n (date data)) as [-> | ->]; eauto.
Qed.

(** A world in which every child starts and [git commit] finds nothing to
    commit. *)
Definition world_nothing_changed : world :=
  {| read_text := fun _ => Ok JournalSpec.sample_doc;
     today := "2025-06-01";
     spawn := fun _ args =>
       match args with
       | _ :: sub :: _ => if String.eqb sub "commit" then Returned 1 else Returned 0
       | _ => Returned 0
       end |}.

Lemma commit_exit_status_is_caught_witness :
  exists line,
    main ["study_agent.py"; "journal/2025.md"; "--date"; "2025-06-01"]
         world_nothing_changed
    = Run [line] Finished.
Proof.
  assert (Hg : git_starts world_nothing_changed).
  { intros n [|sub args]; simpl; [by exists 0%Z|].
    destruct (String.eqb sub "commit"); [by exists 1%Z | by exists 0%Z]. }
  destruct (commit_exit_status_is_caught world_nothing_changed Hg) as [_ H].
  apply (H "study_agent.py" "journal/2025.md" JournalSpec.sample_doc
           ["--date"; "2025-06-01"] 1); by vm_compute.
Defined.

End OrchestratorSpec.

(** ** The file system *)

Module FsFacts.
Import Text Py Fs.
Local Open Scope path_scope.

Lemma stat_None (fs : fsmap) (p : path) :
  stat fs p = None -> is_root p = false /\ fs !! p = None.
Proof. unfold stat. by destruct (is_root p). Qed.

Lemma stat_mono (fs fs' : fsmap) (p : path) (n : node) :
  fs ⊆ fs' -> stat fs p = Some n -> stat fs' p = Some n.
Proof.
  unfold stat. intros Hs. destruct (is_root p); [done|].
  intros H. by eapply lookup_weaken.
Qed.

Lemma exists_mono (fs fs' : fsmap) (p : path) :
  fs ⊆ fs' -> exists_ fs p = true -> exists_ fs' p = true.
Proof.
  unfold exists_. intros Hs. destruct (stat fs p) eqn:E; [|done].
  by rewrite (stat_mono _ _ _ _ Hs E).
Qed.

Lemma is_dir_mono (fs fs' : fsmap) (p : path) :
  fs ⊆ fs' -> is_dir fs p = true -> is_dir fs' p = true.
Proof.
  unfold is_dir. intros Hs. destruct (stat fs p) as [[|c]|] eqn:E; try done.
  by rewrite (stat_mono _ _ _ _ Hs E).
Qed.

Lemma is_dir_exists (fs : fsmap) (p : path) : is_dir fs p = true -> exists_ fs p = true.
Proof. unfold is_dir, exists_. by destruct (stat fs p) as [[|c]|]. Qed.

Lemma stat_insert_new (fs : fsmap) (p : path) (n : node) :
  stat fs p = None -> stat (<[p := n]> fs) p = Some n /\ fs ⊆ <[p := n]> fs.
Proof.
  intros H. apply stat_None in H as [Hr Hl]. split.
  - unfold stat. rewrite Hr. apply lookup_insert_eq.
  - by apply insert_subseteq.
Qed.

Lemma stat_insert_other (fs : fsmap) (p q : path) (n : node) :
  p <> q -> stat (<[p := n]> fs) q = stat fs q.
Proof. intros H. unfold stat. by rewrite lookup_insert_ne. Qed.

(** What each operation guarantees when it returns: nothing that was there
    has changed, and the entry asked for is there. *)

Lemma os_mkdir_ok (p : path) (fs fs' : fsmap) :
  os_mkdir p fs = Ok fs' ->
  fs ⊆ fs' /\ is_dir fs' p = true /\ stat fs (parent p) = Some Dir /\
  fs' = <[p := Dir]> fs.
Proof.
  unfold os_mkdir. destruct (stat fs (parent p)) as [[|c]|] eqn:Ep; try done.
  destruct (stat fs p) eqn:E; [done|]. intros [= <-].
  destruct (stat_insert_new fs p Dir E) as [H1 H2].
  unfold is_dir. by rewrite H1.
Qed.

Lemma os_mkdir_not_found (p : path) (fs : fsmap) (e : exn) :
  os_mkdir p fs = Raise e -> e <> FileNotFoundError -> exists_ fs (parent p) = true.
Proof.
  unfold os_mkdir, exists_. destruct (stat fs (parent p)) as [[|c]|]; try done.
  by intros [= <-].
Qed.

Lemma mkdir_ok (p : path) (fs fs' : fsmap) :
  mkdir p fs = Ok fs' ->
  fs ⊆ fs' /\ is_dir fs' p = true /\ exists_ fs' (parent p) = true /\
  (fs' = fs \/ fs' = <[p := Dir]> fs).
Proof.
  unfold mkdir. destruct (os_mkdir p fs) as [fs1|e] eqn:E.
  - intros [= <-]. apply os_mkdir_ok in E as (H1 & H2 & H3 & H4).
    repeat split; auto. apply (exists_mono fs); [done|]. unfold exists_. by rewrite H3.
  - assert (He : e = FileNotFoundError \/ e <> FileNotFoundError)
      by (destruct e; auto; by right).
    destruct He as [-> | He]; [done|].
    assert (Hx := os_mkdir_not_found _ _ _ E He).
    destruct (is_dir fs p) eqn:Ed.
    + destruct e; try done; intros [= <-]; repeat split; auto.
    + by destruct e.
Qed.

(** Once a directory is there with its parent, [mkdir] changes nothing. *)
Lemma mkdir_noop (p : path) (fs : fsmap) :
  is_dir fs p = true -> exists_ fs (parent p) = true -> mkdir p fs = Ok fs.
Proof.
  unfold mkdir, os_mkdir, exists_, is_dir. intros Hd Hp.
  destruct (stat fs (parent p)) as [[|c]|]; try done.
  - by destruct (stat fs p) as [[|c]|].
  - destruct (stat fs p) as [[|c']|]; done.
Qed.

Lemma mkdir_parents_rev_ok (rp : list string) (fs fs' : fsmap) :
  mkdir_parents_rev rp fs = Ok fs' ->
  fs ⊆ fs' /\ is_dir fs' (rev rp) = true /\
  forall q, length rp < length q -> fs' !! q = fs !! q.
Proof.
  revert fs fs'. induction rp as [|x rp IH]; intros fs fs'; simpl.
  - intros [= <-]. repeat split; auto.
  - destruct (os_mkdir (rev rp ++ [x]) fs) as [fs1|e] eqn:E.
    + apply os_mkdir_ok in E as (H1 & H2 & H3 & ->). intros [= <-].
      repeat split; auto. intros q Hq. apply lookup_insert_ne.
      intros <-. rewrite length_app, length_rev in Hq. simpl in Hq. lia.
    + destruct e; try (destruct (is_dir fs (rev rp ++ [x])) eqn:Ed; try done;
                       intros [= <-]; repeat split; auto; done).
      destruct (is_root (rev rp ++ [x])) eqn:Er; [done|].
      destruct (mkdir_parents_rev rp fs) as [fs1|e1] eqn:E1; [|done].
      simpl. intros Hm.
      apply IH in E1 as (H1 & H2 & H3).
      apply mkdir_ok in Hm as (H4 & H5 & H6 & H7).
      repeat split; [by etrans | done |].
      intros q Hq. destruct H7 as [-> | ->].
      * apply H3. lia.
      * rewrite lookup_insert_ne; [apply H3; lia|].
        intros <-. rewrite length_app, length_rev in Hq. simpl in Hq. lia.
Qed.

Lemma mkdir_parents_ok (p : path) (fs fs' : fsmap) :
  mkdir_parents p fs = Ok fs' ->
  fs ⊆ fs' /\ is_dir fs' p = true /\
  forall q, length p < length q -> fs' !! q = fs !! q.
Proof.
  unfold mkdir_parents. intros H. apply mkdir_parents_rev_ok in H.
  by rewrite rev_involutive, length_rev in H.
Qed.

Lemma touch_ok (p : path) (fs fs' : fsmap) :
  touch p fs = Ok fs' ->
  fs ⊆ fs' /\ exists_ fs' p = true /\ (fs' = fs \/ fs' = <[p := File ""]> fs).
Proof.
  unfold touch. destruct (stat fs p) eqn:E.
  - intros [= <-]. unfold exists_. rewrite E. auto.
  - destruct (stat fs (parent p)) as [[|c]|]; try done. intros [= <-].
    destruct (stat_insert_new fs p (File "") E) as [H1 H2].
    unfold exists_. rewrite H1. auto.
Qed.

Lemma touch_noop (p : path) (fs : fsmap) : exists_ fs p = true -> touch p fs = Ok fs.
Proof. unfold touch, exists_. by destruct (stat fs p). Qed.

(** Writing a file that is not there yet. *)
Lemma write_new_ok (p : path) (text : string) (fs fs' : fsmap) :
  exists_ fs p = false -> write_text p text fs = Ok fs' ->
  fs ⊆ fs' /\ stat fs' p = Some (File text) /\ fs' = <[p := File text]> fs.
Proof.
  unfold exists_, write_text. destruct (stat fs p) eqn:E; [done|]. intros _.
  destruct (stat fs (parent p)) as [[|c]|]; try done. intros [= <-].
  destruct (stat_insert_new fs p (File text) E) as [H1 H2]. auto.
Qed.

Lemma returned_state (r : result fsmap) : returned r = true -> r = Ok (state_of r).
Proof. by destruct r. Qed.

End FsFacts.

(** ** The topic materializer *)

Module MaterializerSpec.
Import Text Py Fs FsFacts Knowledge.
Local Open Scope path_scope.

(** An operation settles: when it returns, nothing that existed has
    changed, and run again (as [op']) on that state or a larger one it
    returns the state as it got it. *)
Definition settles (op op' : fsmap -> result fsmap) : Prop :=
  forall fs fs' : fsmap,
    op fs = Ok fs' ->
    fs ⊆ fs' /\ forall fs'' : fsmap, fs' ⊆ fs'' -> op' fs'' = Ok fs''.

Lemma settles_bind (op1 op1' op2 op2' : fsmap -> result fsmap) :
  settles op1 op1' -> settles op2 op2' ->
  settles (fun fs => fs1 ← op1 fs; op2 fs1) (fun fs => fs1 ← op1' fs; op2' fs1).
Proof.
  intros H1 H2 fs fs'. simpl. unfold mbind, result_bind.
  destruct (op1 fs) as [fs1|e] eqn:E1; [|done]. intros E2.
  destruct (H1 _ _ E1) as [Ha Hb]. destruct (H2 _ _ E2) as [Hc Hd].
  split; [by etrans|]. intros fs'' Hs.
  rewrite Hb; [by apply Hd | by etrans].
Qed.

Definition ensure_dest (dest : path) (fs : fsmap) : result fsmap :=
  if negb (exists_ fs dest) then mkdir_parents dest fs else Ok fs.

Definition write_if_absent (p : path) (text : string) (fs : fsmap) : result fsmap :=
  if negb (exists_ fs p) then write_text p text fs else Ok fs.

Lemma ensure_dest_settles (dest : path) : settles (ensure_dest dest) (ensure_dest dest).
Proof.
  intros fs fs'. unfold ensure_dest. destruct (exists_ fs dest) eqn:E; simpl.
  - intros [= <-]. split; [done|]. intros fs'' Hs.
    by rewrite (exists_mono _ _ _ Hs E).
  - intros H. apply mkdir_parents_ok in H as (H1 & H2 & _). split; [done|].
    intros fs'' Hs. by rewrite (exists_mono _ _ _ Hs (is_dir_exists _ _ H2)).
Qed.

Lemma mkdir_settles (p : path) : settles (mkdir p) (mkdir p).
Proof.
  intros fs fs' H. apply mkdir_ok in H as (H1 & H2 & H3 & _). split; [done|].
  intros fs'' Hs. apply mkdir_noop; [by eapply is_dir_mono | by eapply exists_mono].
Qed.

Lemma touch_settles (p : path) : settles (touch p) (touch p).
Proof.
  intros fs fs' H. apply touch_ok in H as (H1 & H2 & _). split; [done|].
  intros fs'' Hs. apply touch_noop. by eapply exists_mono.
Qed.

Lemma write_if_absent_settles (p : path) (text text' : string) :
  settles (write_if_absent p text) (write_if_absent p text').
Proof.
  intros fs fs'. unfold write_if_absent. destruct (exists_ fs p) eqn:E; simpl.
  - intros [= <-]. split; [done|]. intros fs'' Hs.
    by rewrite (exists_mono _ _ _ Hs E).
  - intros H. apply (write_new_ok _ _ _ _ E) in H as (H1 & H2 & _). split; [done|].
    intros fs'' Hs.
    assert (Hx : exists_ fs' p = true) by (unfold exists_; by rewrite H2).
    by rewrite (exists_mono _ _ _ Hs Hx).
Qed.

(** [add_topic] as the sequence of its five steps. *)
Lemma add_topic_steps (root : path) (today area group topic lang : string) (fs : fsmap) :
  let dest := dest_of root area group topic in
  add_topic root today area group topic lang fs =
  (fs ← ensure_dest dest fs;
   fs ← mkdir (dest / "examples") fs;
   fs ← touch (dest / ".gitkeep") fs;
   fs ← write_if_absent (dest / "README.md")
          (readme_text topic (lower area) (lower group) today) fs;
   write_if_absent (dest / "examples" / ("main." +:+ ext_of lang)) (code_of lang) fs).
Proof. reflexivity. Qed.

(** C3.  When [add_topic] returns, every entry that existed, an existing
    README.md and examples/main.* among them, is as it was; and calling it
    again with the same arguments, on whatever day, returns the state
    unchanged. *)
Theorem add_topic_idempotent (root : path) (today area group topic lang : string)
    (fs fs1 : fsmap) :
  add_topic root today area group topic lang fs = Ok fs1 ->
  (forall (p : path) (n : node), fs !! p = Some n -> fs1 !! p = Some n) /\
  (forall today' : string, add_topic root today' area group topic lang fs1 = Ok fs1).
Proof.
  intros H.
  assert (Hs : forall today',
    settles (add_topic root today area group topic lang)
            (add_topic root today' area group topic lang)).
  { intros today' f f'. rewrite !add_topic_steps. cbv zeta. revert f f'.
    apply (settles_bind (ensure_dest _) (ensure_dest _)); [apply ensure_dest_settles|].
    apply (settles_bind (mkdir _) (mkdir _)); [apply mkdir_settles|].
    apply (settles_bind (touch _) (touch _)); [apply touch_settles|].
    apply (settles_bind (write_if_absent _ _) (write_if_absent _ _));
      apply write_if_absent_settles. }
  split.
  - destruct (Hs today _ _ H) as [Hsub _]. intros p n Hp. by eapply lookup_weaken.
  - intros today'. destruct (Hs today' _ _ H) as [_ Hagain]. by apply Hagain.
Qed.

(** A first call on the empty tree, and a second one the day after. *)
Local Abbreviation first_call :=
  (add_topic ROOT "2025-06-01" "swe" "frontend" "React Hooks" "typescript" ∅).

Lemma add_topic_idempotent_witness :
  returned first_call = true /\
  add_topic ROOT "2025-06-02" "swe" "frontend" "React Hooks" "typescript"
    (state_of first_call)
  = Ok (state_of first_call).
Proof.
  assert (E : returned first_call = true) by (vm_compute; exact eq_refl).
  split; [exact E|].
  exact (proj2 (add_topic_idempotent ROOT "2025-06-01" "swe" "frontend" "React Hooks"
                  "typescript" ∅ (state_of first_call) (returned_state first_call E))
                "2025-06-02").
Defined.
(** Paths below a topic directory. *)
Lemma stat_long (fs : fsmap) (q : path) : 2 <= length q -> stat fs q = fs !! q.
Proof. unfold stat. destruct q as [|a [|b q]]; simpl; [lia | lia | done]. Qed.

Lemma ensure_dest_frame (dest : path) (fs fs' : fsmap) (q : path) :
  ensure_dest dest fs = Ok fs' -> length dest < length q -> fs' !! q = fs !! q.
Proof.
  unfold ensure_dest. destruct (negb (exists_ fs dest)).
  - intros H. apply mkdir_parents_ok in H as (_ & _ & H). apply H.
  - by intros [= <-].
Qed.

Lemma mkdir_frame (p : path) (fs fs' : fsmap) (q : path) :
  mkdir p fs = Ok fs' -> p <> q -> fs' !! q = fs !! q.
Proof.
  intros H Hne. apply mkdir_ok in H as (_ & _ & _ & [-> | ->]); [done|].
  by apply lookup_insert_ne.
Qed.

Lemma touch_frame (p : path) (fs fs' : fsmap) (q : path) :
  touch p fs = Ok fs' -> p <> q -> fs' !! q = fs !! q.
Proof.
  intros H Hne. apply touch_ok in H as (_ & _ & [-> | ->]); [done|].
  by apply lookup_insert_ne.
Qed.

Lemma write_if_absent_frame (p : path) (text : string) (fs fs' : fsmap) (q : path) :
  write_if_absent p text fs = Ok fs' -> p <> q -> fs' !! q = fs !! q.
Proof.
  unfold write_if_absent. destruct (exists_ fs p) eqn:E; simpl.
  - by intros [= <-].
  - intros H Hne. apply (write_new_ok _ _ _ _ E) in H as (_ & _ & ->).
    by apply lookup_insert_ne.
Qed.

Lemma longer_ne (d : path) (a b c : string) : d ++ [a] <> (d ++ [b]) ++ [c].
Proof.
  intros H. apply (f_equal length) in H. rewrite !length_app in H. simpl in H. lia.
Qed.

(** C10.  A topic that the router gives the language "java" is in group 3,
    the extension table sends "java" to "txt", and the materializer, when
    the topic has no examples/main.txt yet, creates it with the placeholder
    line and creates no examples/main.java. *)
Theorem java_topic_gets_placeholder (topic : string) :
  snd (StudyAgent.route topic) = "java" ->
  StudyAgent.route topic = ("swe", "backend", "java") /\
  ext_of "java" = "txt" /\
  forall (root : path) (today : string) (fs fs' : fsmap),
    let dest := dest_of root "swe" "backend" topic in
    exists_ fs (dest / "examples" / "main.txt") = false ->
    add_topic root today "swe" "backend" topic "java" fs = Ok fs' ->
    stat fs' (dest / "examples" / "main.txt")
    = Some (File ("Example placeholder." +:+ String newline "")) /\
    stat fs' (dest / "examples" / "main.java") = stat fs (dest / "examples" / "main.java").
Proof.
  intros Hj. split; [|split; [done|]].
  - revert Hj. unfold StudyAgent.route.
    repeat match goal with
           | |- context [if ?b then _ else _] => destruct b
           end; simpl; intros; done.
  - intros root today fs fs' dest Hex. rewrite add_topic_steps. fold dest.
    change (dest / "examples" / ("main." +:+ ext_of "java"))
      with ((dest ++ ["examples"]) ++ ["main.txt"]).
    change (dest / "examples" / "main.txt") with ((dest ++ ["examples"]) ++ ["main.txt"]) in *.
    change (dest / "examples" / "main.java") with ((dest ++ ["examples"]) ++ ["main.java"]).
    change (dest / "examples") with (dest ++ ["examples"]).
    change (dest / ".gitkeep") with (dest ++ [".gitkeep"]).
    change (dest / "README.md") with (dest ++ ["README.md"]).
    change (code_of "java") with ("Example placeholder." +:+ String newline "").
    set (ex := (dest ++ ["examples"]) ++ ["main.txt"]) in *.
    set (exj := (dest ++ ["examples"]) ++ ["main.java"]).
    assert (Hlen : forall x, length ((dest ++ ["examples"]) ++ [x]) = length dest + 2)
      by (intros x; rewrite !length_app; simpl; lia).
    assert (Hne : ex <> exj)
      by (intros H; apply app_inj_tail in H as [_ H]; discriminate).
    simpl. unfold mbind, result_bind.
    destruct (ensure_dest dest fs) as [f1|] eqn:E1; [|done].
    destruct (mkdir (dest ++ ["examples"]) f1) as [f2|] eqn:E2; [|done].
    destruct (touch (dest ++ [".gitkeep"]) f2) as [f3|] eqn:E3; [|done].
    destruct (write_if_absent (dest ++ ["README.md"]) _ f3) as [f4|] eqn:E4; [|done].
    assert (Hsame : forall q, length q = length dest + 2 -> f4 !! q = fs !! q).
    { intros q Hq.
      rewrite (write_if_absent_frame _ _ _ _ q E4), (touch_frame _ _ _ q E3),
        (mkdir_frame _ _ _ q E2), (ensure_dest_frame _ _ _ q E1); try done; try lia;
        intros <-; rewrite length_app in Hq; simpl in Hq; lia. }
    assert (Hex4 : exists_ f4 ex = false).
    { revert Hex. unfold exists_. rewrite !stat_long by (unfold ex; rewrite Hlen; lia).
      rewrite Hsame; [done | apply Hlen]. }
    unfold write_if_absent. rewrite Hex4. simpl. intros Hw.
    apply (write_new_ok _ _ _ _ Hex4) in Hw as (_ & Hw & ->). split; [done|].
    rewrite !stat_long by (unfold exj; rewrite Hlen; lia).
    rewrite lookup_insert_ne by done. apply Hsame, Hlen.
Qed.

Local Abbreviation java_call :=
  (add_topic ROOT "2025-06-01" "swe" "backend" "Java Streams" "java" ∅).

Lemma java_topic_gets_placeholder_witness :
  stat (state_of java_call)
    (dest_of ROOT "swe" "backend" "Java Streams" / "examples" / "main.txt")
  = Some (File ("Example placeholder." +:+ String newline "")).
Proof.
  assert (Hj : snd (StudyAgent.route "Java Streams") = "java") by (vm_compute; exact eq_refl).
  assert (Hr : returned java_call = true) by (vm_compute; exact eq_refl).
  assert (Hx : exists_ ∅ (dest_of ROOT "swe" "backend" "Java Streams" / "examples" / "main.txt")
               = false) by (vm_compute; exact eq_refl).
  exact (proj1 (proj2 (proj2 (java_topic_gets_placeholder "Java Streams" Hj))
                  ROOT "2025-06-01" ∅ (state_of java_call) Hx
                  (returned_state java_call Hr))).
Defined.

(** What [ensure_tree] leaves behind. *)

Ltac bind_ok H f E :=
  cbn [ensure_topics ensure_groups ensure_areas] in H;
  unfold mbind, result_bind in H;
  match type of H with
  | match ?m with Ok _ => _ | Raise _ => _ end = Ok _ =>
      destruct m as [f|] eqn:E; [|discriminate H]
  end.

Lemma ensure_topics_mono (base : path) (ts : list string) (fs fs' : fsmap) :
  ensure_topics base ts fs = Ok fs' -> fs ⊆ fs'.
Proof.
  revert fs. induction ts as [|t ts IH]; intros fs H.
  - by injection H as <-.
  - bind_ok H f1 E1. unfold ensure_topic in E1. bind_ok E1 f0 E0.
    apply mkdir_parents_ok in E0 as (H0 & _). apply touch_ok in E1 as (H1 & _).
    apply IH in H. etrans; [exact H0|]. etrans; [exact H1 | exact H].
Qed.

Lemma ensure_group_ok (root : path) (area : string) (g : string * list string)
    (fs fs' : fsmap) :
  ensure_group root area g fs = Ok fs' ->
  fs ⊆ fs' /\ is_dir fs' (root / area / fst g) = true.
Proof.
  unfold ensure_group. intros H. bind_ok H f1 E1. bind_ok H f2 E2.
  apply mkdir_parents_ok in E1 as (H1 & Hd & _). apply touch_ok in E2 as (H2 & _).
  apply ensure_topics_mono in H.
  split; [etrans; [exact H1|]; etrans; [exact H2 | exact H] |].
  apply (is_dir_mono f1); [etrans; [exact H2 | exact H] | done].
Qed.

Lemma ensure_groups_ok (root : path) (area : string) (gs : list (string * list string))
    (fs fs' : fsmap) :
  ensure_groups root area gs fs = Ok fs' ->
  fs ⊆ fs' /\ forall g, In g gs -> is_dir fs' (root / area / fst g) = true.
Proof.
  revert fs. induction gs as [|g gs IH]; intros fs H.
  - injection H as <-. by split.
  - bind_ok H f1 E1. apply ensure_group_ok in E1 as [H1 Hd].
    apply IH in H as [H2 Hg]. split; [by etrans|].
    intros g' [<- | Hin]; [by apply (is_dir_mono f1) | by apply Hg].
Qed.

Lemma ensure_areas_ok (root : path) (cats : list (string * list (string * list string)))
    (fs fs' : fsmap) :
  ensure_areas root cats fs = Ok fs' ->
  fs ⊆ fs' /\
  forall area gs g, In (area, gs) cats -> In g gs ->
    is_dir fs' (root / area / fst g) = true.
Proof.
  revert fs. induction cats as [|[a gs0] cats IH]; intros fs H.
  - injection H as <-. by split.
  - bind_ok H f1 E1. apply ensure_groups_ok in E1 as [H1 Hd].
    apply IH in H as [H2 Hg]. split; [by etrans|].
    intros area gs g [[= <- <-] | Hin] Hg'.
    + apply (is_dir_mono f1); [done | by apply Hd].
    + by eapply Hg.
Qed.

(** Every area/group of the taxonomy is a directory after [ensure_tree]. *)
Lemma ensure_tree_seeds (root : path) (fs fs' : fsmap)
    (area group : string) (gs : list (string * list string)) (ts : list string) :
  In (area, gs) CATEGORIES -> In (group, ts) gs ->
  ensure_tree root fs = Ok fs' ->
  is_dir fs' (root / area / group) = true.
Proof.
  intros Ha Hg H. unfold ensure_tree in H. bind_ok H f1 E1.
  apply ensure_areas_ok in E1 as [_ Hd]. apply touch_ok in H as (H2 & _).
  apply (is_dir_mono f1); [done|]. apply (Hd area gs (group, ts) Ha Hg).
Qed.

(** [add_topic] changes nothing that is there, and the topic directory is
    there when it returns. *)
Lemma add_topic_dest (root : path) (today area group topic lang : string)
    (fs fs' : fsmap) :
  add_topic root today area group topic lang fs = Ok fs' ->
  fs ⊆ fs' /\ exists_ fs' (dest_of root area group topic) = true.
Proof.
  rewrite add_topic_steps. cbv zeta. intros H.
  bind_ok H f1 E1. bind_ok H f2 E2. bind_ok H f3 E3. bind_ok H f4 E4.
  assert (Hx : exists_ f1 (dest_of root area group topic) = true).
  { unfold ensure_dest in E1. destruct (exists_ fs _) eqn:Ex; simpl in E1.
    - by injection E1 as <-.
    - apply mkdir_parents_ok in E1 as (_ & Hdir & _). by apply is_dir_exists. }
  destruct (ensure_dest_settles _ _ _ E1) as [H1 _].
  apply mkdir_ok in E2 as (H2 & _). apply touch_ok in E3 as (H3 & _).
  destruct (write_if_absent_settles _ _ "" _ _ E4) as [H4 _].
  destruct (write_if_absent_settles _ _ "" _ _ H) as [H5 _].
  assert (H15 : f1 ⊆ fs') by (etrans; [exact H2|]; etrans; [exact H3|]; by etrans).
  split; [by etrans | by apply (exists_mono f1)].
Qed.

Definition routed_pairs : list (string * string) :=
  [ ("swe", "frontend"); ("swe", "devops"); ("swe", "backend"); ("ai", "agents");
    ("ai", "llms"); ("ml", "frameworks"); ("swe", "misc") ].

(** C9.  Whatever the topic, the area and group that [route] returns are
    one of seven pairs, each an area and group of [CATEGORIES]; so
    [ensure_tree] leaves that group directory in place, and [add_topic] puts
    the topic inside it. *)
Theorem routed_group_is_seeded (topic area group lang : string) :
  StudyAgent.route topic = (area, group, lang) ->
  In (area, group) routed_pairs /\
  (exists gs ts, In (area, gs) CATEGORIES /\ In (group, ts) gs) /\
  (forall (root : path) (fs fs' : fsmap),
     ensure_tree root fs = Ok fs' -> is_dir fs' (root / area / group) = true) /\
  (forall root : path,
     dest_of root area group topic = root / area / group / slug topic) /\
  (forall (today : string) (fs fs' : fsmap),
     main today (Add area group topic lang) fs = Ok fs' ->
     is_dir fs' (ROOT / area / group) = true /\
     exists_ fs' (ROOT / area / group / slug topic) = true).
Proof.
  intros H.
  assert (Hp : In (area, group) routed_pairs).
  { revert H. unfold StudyAgent.route.
    repeat match goal with
           | |- context [if ?b then _ else _] => destruct b
           end; intros [= <- <- <-]; simpl; tauto. }
  assert (Hc : exists gs ts, In (area, gs) CATEGORIES /\ In (group, ts) gs).
  { simpl in Hp.
    repeat (destruct Hp as [[= <- <-] | Hp];
            [eexists _, _; split; simpl; [tauto | simpl; tauto] |]).
    destruct Hp. }
  assert (Hs : forall (root : path) (fs fs' : fsmap),
     ensure_tree root fs = Ok fs' -> is_dir fs' (root / area / group) = true).
  { intros root fs fs' He. destruct Hc as (gs & ts & Ha & Hg).
    by eapply ensure_tree_seeds. }
  assert (Hd : forall root : path,
     dest_of root area group topic = root / area / group / slug topic).
  { intros root. simpl in Hp.
    repeat (destruct Hp as [[= <- <-] | Hp]; [reflexivity |]). destruct Hp. }
  do 4 (split; [done|]).
  intros today fs fs' Hm. unfold main in Hm.
  destruct (existsb (String.eqb area) area_choices); [|done].
  bind_ok Hm f1 E1. apply Hs in E1.
  apply add_topic_dest in Hm as [Hsub Hex]. rewrite Hd in Hex.
  split; [by apply (is_dir_mono f1) | done].
Qed.

Lemma routed_group_is_seeded_witness :
  In ("swe", "backend") routed_pairs /\
  returned (ensure_tree ROOT ∅) = true /\
  is_dir (state_of (ensure_tree ROOT ∅)) (ROOT / "swe" / "backend") = true.
Proof.
  assert (Hr : StudyAgent.route "java python" = ("swe", "backend", "java"))
    by (vm_compute; exact eq_refl).
  assert (He : returned (ensure_tree ROOT ∅) = true) by (vm_compute; exact eq_refl).
  destruct (routed_group_is_seeded "java python" "swe" "backend" "java" Hr)
    as (H1 & _ & H3 & _).
  split; [exact H1 | split; [exact He |]].
  exact (H3 ROOT ∅ (state_of (ensure_tree ROOT ∅)) (returned_state _ He)).
Defined.

End MaterializerSpec.

(** ** The index builder *)

Module IndexSpec.
Import Text Py Fs BuildIndex.
Local Open Scope path_scope.

Definition nl : string := String newline "".

(** A tree with one area, one group and one topic that holds a README. *)
Definition one_topic_tree (readme : string) : fsmap :=
  <[ ["knowledge"; "swe"; "frontend"; "react-hooks"; "README.md"] := File readme ]>
  (<[ ["knowledge"; "swe"; "frontend"; "react-hooks"] := Dir ]>
  (<[ ["knowledge"; "swe"; "frontend"] := Dir ]>
  (<[ ["knowledge"; "swe"] := Dir ]>
  (<[ ["knowledge"] := Dir ]> ∅)))).

Definition one_topic_lines : list string :=
  [ "# 📚 Knowledge Index" +:+ nl;
    "## SWE";
    "- Frontend";
    "  - [React hooks](swe/frontend/react-hooks/README.md)";
    "" ].

(** C7.  On the tree with area swe, group frontend and topic react-hooks
    holding a README, whatever its text, the index has the heading "## SWE",
    the bullet "- Frontend" and the nested bullet that links "React hooks"
    to swe/frontend/react-hooks/README.md; these lines, joined by line
    breaks, are written to INDEX.md. *)
Theorem build_index_one_topic (readme : string) :
  index_lines ROOT (one_topic_tree readme) = Ok one_topic_lines /\
  In "## SWE" one_topic_lines /\
  In "- Frontend" one_topic_lines /\
  In "  - [React hooks](swe/frontend/react-hooks/README.md)" one_topic_lines /\
  build_index ROOT (one_topic_tree readme)
  = Ok (<[ ROOT / "INDEX.md" := File (join nl one_topic_lines) ]> (one_topic_tree readme)).
Proof.
  assert (H : index_lines ROOT (one_topic_tree readme) = Ok one_topic_lines)
    by (vm_compute; exact eq_refl).
  split; [exact H|]. do 3 (split; [simpl; tauto|]).
  unfold build_index. rewrite H. simpl. unfold mbind, result_bind, write_text.
  assert (H1 : stat (one_topic_tree readme) (ROOT / "INDEX.md") = None)
    by (vm_compute; exact eq_refl).
  assert (H2 : stat (one_topic_tree readme) (parent (ROOT / "INDEX.md")) = Some Dir)
    by (vm_compute; exact eq_refl).
  by rewrite H1, H2.
Qed.

End IndexSpec.

(** ** The matcher on the two patterns of [slug] *)

Module ReFacts.
Import Text TextFacts Re.

(** The position after the longest run of [p] characters. *)
Fixpoint skip (p : ascii -> bool) (l : chars) (n : nat) (b : option ascii)
    (c : list (nat * chars)) : mstate :=
  match l with
  | x :: t => if p x then skip p t (S n) (Some x) c else MState n b l c
  | [] => MState n b [] c
  end.

Lemma skip_rest (p : ascii -> bool) (l : chars) (n : nat) (b : option ascii)
    (c : list (nat * chars)) :
  rest (skip p l n b c) = lstrip_l p l /\ n <= pos (skip p l n b c).
Proof.
  revert n b. induction l as [|x t IH]; intros n b; simpl; [by split|].
  destruct (p x); simpl; [|by split].
  destruct (IH (S n) (Some x)) as [H1 H2]. split; [done | lia].
Qed.

(** A greedy star over a character class, followed by nothing that can
    fail, reads the whole run. *)
Lemma star_class (p : ascii -> bool) (n : nat) (s : mstate) :
  length (rest s) <= n ->
  star_loop (eat p) Some n s = Some (skip p (rest s) (pos s) (prev s) (caps s)).
Proof.
  revert s. induction n as [|n IH]; intros [po pr l c]; simpl; intros Hn.
  - destruct l; [done | simpl in Hn; lia].
  - unfold eat at 1. cbn [rest pos prev caps]. destruct l as [|x t]; [done|].
    cbn [skip]. destruct (p x); [|done].
    replace (po <? S po)%nat with true by (symmetry; apply Nat.ltb_lt; lia).
    rewrite IH by (simpl in *; lia). done.
Qed.

(** What [re.sub] makes of a text for the pattern [p+]: every run of [p]
    characters becomes [repl].  The replacement is put where a run ends. *)
Fixpoint squeeze (p : ascii -> bool) (repl : chars) (l : chars) : chars :=
  match l with
  | [] => []
  | c :: t =>
      if p c then
        match t with
        | d :: _ => if p d then squeeze p repl t else repl ++ squeeze p repl t
        | [] => repl
        end
      else c :: squeeze p repl t
  end.

Lemma squeeze_run (p : ascii -> bool) (repl : chars) (c : ascii) (t : chars) :
  p c = true -> squeeze p repl (c :: t) = repl ++ squeeze p repl (lstrip_l p t).
Proof.
  revert c. induction t as [|d t IH]; intros c Hc.
  - simpl. rewrite Hc. by rewrite app_nil_r.
  - change (squeeze p repl (c :: d :: t))
      with (if p c then if p d then squeeze p repl (d :: t)
                        else repl ++ squeeze p repl (d :: t)
            else c :: squeeze p repl (d :: t)).
    rewrite Hc. simpl lstrip_l. destruct (p d) eqn:Hd; [by apply IH | done].
Qed.

Lemma rmatch_plus_class (f : flags) (p : ascii -> bool) (s : mstate) :
  rmatch f (Plus (Cls p)) s Some =
  match rest s with
  | x :: t => if p x then Some (skip p t (S (pos s)) (Some x) (caps s)) else None
  | [] => None
  end.
Proof.
  destruct s as [po pr l c]. unfold Plus. cbn [rmatch]. unfold eat at 1.
  cbn [rest pos prev caps]. destruct l as [|x t]; [done|].
  destruct (p x); [|done]. cbn [rest]. by apply star_class.
Qed.

Lemma lstrip_length (p : ascii -> bool) (l : chars) : length (lstrip_l p l) <= length l.
Proof. induction l as [|y t IH]; simpl; [lia|]. destruct (p y); simpl; lia. Qed.

Lemma sub_from_class (f : flags) (p : ascii -> bool) (repl : chars) (n : nat) (s : mstate) :
  length (rest s) < n ->
  sub_from f (Plus (Cls p)) repl n s = squeeze p repl (rest s).
Proof.
  revert s. induction n as [|n IH]; intros [po pr l c] Hn; [simpl in Hn; lia|].
  simpl in Hn. destruct l as [|x t]; [done|].
  change (rest {| pos := po; prev := pr; rest := x :: t; caps := c |}) with (x :: t).
  cbn [sub_from]. rewrite rmatch_plus_class. unfold clear, advance.
  cbn [rest pos prev caps].
  destruct (p x) eqn:Hx.
  - rewrite (squeeze_run _ _ _ _ Hx).
    destruct (skip_rest p t (S po) (Some x) []) as [Hr Hp].
    replace (po <? pos (skip p t (S po) (Some x) []))%nat with true
      by (symmetry; apply Nat.ltb_lt; lia).
    f_equal. rewrite IH; cbn [rest]; rewrite Hr; [done|].
    pose proof (lstrip_length p t). simpl in Hn. lia.
  - simpl squeeze. rewrite Hx. f_equal. rewrite IH; [done | simpl in *; lia].
Qed.

Lemma sub_class (f : flags) (p : ascii -> bool) (repl : chars) (l : chars) :
  sub_l f (Plus (Cls p)) repl l = squeeze p repl l.
Proof. unfold sub_l. rewrite sub_from_class; [done | simpl; lia]. Qed.

(** No two neighbours both satisfy [q]. *)
Fixpoint no_double (q : ascii -> bool) (l : chars) : bool :=
  match l with
  | c :: t =>
      match t with
      | d :: _ => negb (q c && q d) && no_double q t
      | [] => true
      end
  | [] => true
  end.

(** Where no character is doubled, replacing the runs of two or more
    changes nothing. *)
Lemma sub_from_no_double (f : flags) (h : ascii) (repl : chars) (n : nat) (s : mstate) :
  no_double (lit_eq f h) (rest s) = true ->
  sub_from f (AtLeast2 (Lit h)) repl n s = rest s.
Proof.
  revert s. induction n as [|n IH]; intros [po pr l c] Hd; [done|].
  cbn [sub_from]. unfold AtLeast2, clear. cbn [rmatch pos prev rest caps]. unfold eat.
  cbn [rest pos prev caps] in *. destruct l as [|x t]; [done|].
  unfold advance. cbn [rest pos prev caps].
  assert (Ht : no_double (lit_eq f h) t = true).
  { destruct t as [|y t]; [done|]. simpl in Hd. by apply andb_true_iff in Hd as [_ Hd]. }
  destruct (lit_eq f h x) eqn:Hx.
  - destruct t as [|y t].
    + simpl. f_equal. by rewrite IH.
    + simpl in Hd. rewrite Hx in Hd. simpl in Hd.
      apply andb_true_iff in Hd as [Hy _]. apply negb_true_iff in Hy.
      cbn [rest]. rewrite Hy. f_equal. by rewrite IH.
  - f_equal. by rewrite IH.
Qed.

Lemma sub_no_double (f : flags) (h : ascii) (repl : chars) (l : chars) :
  no_double (lit_eq f h) l = true -> sub_l f (AtLeast2 (Lit h)) repl l = l.
Proof. intros H. unfold sub_l. by rewrite sub_from_no_double. Qed.

(** *** Where a match can end *)

(** [steps s mid s']: [s'] is the position reached from [s] by reading
    [mid]. *)
Definition prev_after (pr : option ascii) (mid : chars) : option ascii :=
  match last mid with
  | Some c => Some c
  | None => pr
  end.

Definition steps (s : mstate) (mid : chars) (s' : mstate) : Prop :=
  rest s = mid ++ rest s' /\
  pos s' = pos s + length mid /\
  prev s' = prev_after (prev s) mid.

Lemma prev_after_app (pr : option ascii) (m1 m2 : chars) :
  prev_after (prev_after pr m1) m2 = prev_after pr (m1 ++ m2).
Proof.
  unfold prev_after. rewrite last_app. by destruct (last m2).
Qed.

Lemma steps_refl (s : mstate) : steps s [] s.
Proof. unfold steps. simpl. repeat split; lia. Qed.

Lemma steps_trans (s1 s2 s3 : mstate) (m1 m2 : chars) :
  steps s1 m1 s2 -> steps s2 m2 s3 -> steps s1 (m1 ++ m2) s3.
Proof.
  intros (H1 & H2 & H3) (H4 & H5 & H6). repeat split.
  - by rewrite H1, H4, app_assoc.
  - rewrite H5, H2, length_app. lia.
  - by rewrite H6, H3, prev_after_app.
Qed.

(** A body is sound when its result is the result of its continuation at
    a position further on. *)
Definition sound (body : mstate -> (mstate -> option mstate) -> option mstate) : Prop :=
  forall s k e, body s k = Some e -> exists mid s', steps s mid s' /\ k s' = Some e.

Lemma eat_sound (p : ascii -> bool) : sound (eat p).
Proof.
  intros [po pr l c] k e. unfold eat. simpl.
  destruct l as [|x t]; [done|]. destruct (p x); [|done]. intros H.
  exists [x], (MState (S po) (Some x) t c). split; [|done].
  unfold steps. simpl. repeat split. lia.
Qed.

Lemma star_loop_sound (body : mstate -> (mstate -> option mstate) -> option mstate)
    (k : mstate -> option mstate) (n : nat) :
  sound body ->
  forall s e, star_loop body k n s = Some e ->
    exists mid s', steps s mid s' /\ k s' = Some e.
Proof.
  intros Hb. induction n as [|n IH]; intros s e; simpl.
  - intros H. exists [], s. split; [apply steps_refl | done].
  - destruct (body s _) as [e'|] eqn:E.
    + intros [= ->]. apply Hb in E as (m1 & s1 & H1 & E).
      destruct (pos s <? pos s1)%nat; [|done].
      apply IH in E as (m2 & s2 & H2 & E).
      exists (m1 ++ m2), s2. split; [by eapply steps_trans | done].
    + intros H. exists [], s. split; [apply steps_refl | done].
Qed.

Lemma lazy_loop_sound (body : mstate -> (mstate -> option mstate) -> option mstate)
    (k : mstate -> option mstate) (n : nat) :
  sound body ->
  forall s e, lazy_loop body k n s = Some e ->
    exists mid s', steps s mid s' /\ k s' = Some e.
Proof.
  intros Hb. induction n as [|n IH]; intros s e; simpl.
  - intros H. exists [], s. split; [apply steps_refl | done].
  - destruct (k s) as [e'|] eqn:Ek.
    + intros [= ->]. exists [], s. split; [apply steps_refl | done].
    + intros E. apply Hb in E as (m1 & s1 & H1 & E).
      destruct (pos s <? pos s1)%nat; [|done].
      apply IH in E as (m2 & s2 & H2 & E).
      exists (m1 ++ m2), s2. split; [by eapply steps_trans | done].
Qed.

Lemma times_loop_sound (body : mstate -> (mstate -> option mstate) -> option mstate)
    (k : mstate -> option mstate) (n : nat) :
  sound body ->
  forall s e, times_loop body k n s = Some e ->
    exists mid s', steps s mid s' /\ k s' = Some e.
Proof.
  intros Hb. induction n as [|n IH]; intros s e; simpl.
  - intros H. exists [], s. split; [apply steps_refl | done].
  - intros E. apply Hb in E as (m1 & s1 & H1 & E).
    apply IH in E as (m2 & s2 & H2 & E).
    exists (m1 ++ m2), s2. split; [by eapply steps_trans | done].
Qed.

(** Whatever the pattern, a match ends further on in the same text. *)
Lemma rmatch_sound (f : flags) (r : regex) : sound (rmatch f r).
Proof.
  induction r as [|c|p| | | |r1 IH1 r2 IH2|r IH|r IH|n r IH|n r IH|r IH];
    intros s k e; cbn [rmatch].
  - intros H. exists [], s. split; [apply steps_refl | done].
  - apply eat_sound.
  - apply eat_sound.
  - apply eat_sound.
  - destruct (at_bol f s); [|done]. intros H. exists [], s. split; [apply steps_refl | done].
  - destruct (at_eol f s); [|done]. intros H. exists [], s. split; [apply steps_refl | done].
  - intros E. apply IH1 in E as (m1 & s1 & H1 & E). apply IH2 in E as (m2 & s2 & H2 & E).
    exists (m1 ++ m2), s2. split; [by eapply steps_trans | done].
  - by apply star_loop_sound.
  - by apply lazy_loop_sound.
  - by apply times_loop_sound.
  - intros E. apply IH in E as (m1 & s1 & H1 & E).
    exists m1, (set_cap n s s1). split; [exact H1 | done].
  - destruct (rmatch f r s Some); [done|]. intros H.
    exists [], s. split; [apply steps_refl | done].
Qed.

(** *** A match does not depend on the offset or on the groups *)

Definition succeeded (o : option mstate) : bool :=
  match o with
  | Some _ => true
  | None => false
  end.

(** The same place in the same text, the offsets a fixed distance apart. *)
Definition shifted (a b : nat) (s t : mstate) : Prop :=
  prev s = prev t /\ rest s = rest t /\ pos s + a = pos t + b.

Definition alike (a b : nat) (k k' : mstate -> option mstate) : Prop :=
  forall s t, shifted a b s t -> succeeded (k s) = succeeded (k' t).

Definition stable (body : mstate -> (mstate -> option mstate) -> option mstate) : Prop :=
  forall a b s t k k',
    shifted a b s t -> alike a b k k' -> succeeded (body s k) = succeeded (body t k').

Lemma eat_stable (p : ascii -> bool) : stable (eat p).
Proof.
  intros a b [po pr l c] [po' pr' l' c'] k k' (H1 & H2 & H3) Hk.
  simpl in *. subst. unfold eat. simpl.
  destruct l' as [|x t]; [done|]. destruct (p x); [|done].
  apply Hk. unfold shifted. simpl. repeat split. lia.
Qed.

Lemma star_loop_stable (body : mstate -> (mstate -> option mstate) -> option mstate)
    (n : nat) :
  stable body -> stable (fun s k => star_loop body k n s).
Proof.
  intros Hb. induction n as [|n IH]; intros a b s t k k' Hs Hk; simpl.
  - by apply Hk.
  - assert (E : succeeded
               (body s (fun s' => if (pos s <? pos s')%nat
                                  then star_loop body k n s' else None))
             = succeeded
                 (body t (fun s' => if (pos t <? pos s')%nat
                                    then star_loop body k' n s' else None))).
    { apply (Hb a b); [done|]. intros s' t' Hs'.
      replace (pos t <? pos t')%nat with (pos s <? pos s')%nat.
      - destruct (pos s <? pos s')%nat; [by apply (IH a b) | done].
      - destruct Hs as (_ & _ & Hs), Hs' as (_ & _ & Hs').
        destruct (Nat.ltb_spec (pos s) (pos s')), (Nat.ltb_spec (pos t) (pos t'));
          try done; lia. }
    destruct (body s _), (body t _); try done. by apply Hk.
Qed.

Lemma lazy_loop_stable (body : mstate -> (mstate -> option mstate) -> option mstate)
    (n : nat) :
  stable body -> stable (fun s k => lazy_loop body k n s).
Proof.
  intros Hb. induction n as [|n IH]; intros a b s t k k' Hs Hk; simpl.
  - by apply Hk.
  - pose proof (Hk s t Hs) as E. destruct (k s), (k' t); try done.
    apply (Hb a b); [done|]. intros s' t' Hs'.
    replace (pos t <? pos t')%nat with (pos s <? pos s')%nat.
    + destruct (pos s <? pos s')%nat; [by apply (IH a b) | done].
    + destruct Hs as (_ & _ & Hs), Hs' as (_ & _ & Hs').
      destruct (Nat.ltb_spec (pos s) (pos s')), (Nat.ltb_spec (pos t) (pos t'));
        try done; lia.
Qed.

Lemma times_loop_stable (body : mstate -> (mstate -> option mstate) -> option mstate)
    (n : nat) :
  stable body -> stable (fun s k => times_loop body k n s).
Proof.
  intros Hb. induction n as [|n IH]; intros a b s t k k' Hs Hk; simpl.
  - by apply Hk.
  - apply (Hb a b); [done|]. intros s' t' Hs'. by apply (IH a b).
Qed.

Lemma rmatch_stable (f : flags) (r : regex) : stable (rmatch f r).
Proof.
  induction r as [|c|p| | | |r1 IH1 r2 IH2|r IH|r IH|n r IH|n r IH|r IH];
    intros a b s t k k' Hs Hk; cbn [rmatch].
  - by apply Hk.
  - by apply (eat_stable _ a b).
  - by apply (eat_stable _ a b).
  - by apply (eat_stable _ a b).
  - unfold at_bol. destruct Hs as (Hp & Hr & Ho). rewrite Hp.
    destruct (match prev t with Some c => _ | None => _ end); [|done].
    by apply Hk.
  - unfold at_eol. destruct Hs as (Hp & Hr & Ho). rewrite Hr.
    destruct (match rest t with [] => _ | _ :: _ => _ end); [|done].
    by apply Hk.
  - apply (IH1 a b); [done|]. intros s' t' Hs'. by apply (IH2 a b).
  - destruct Hs as (Hp & Hr & Ho). rewrite Hr.
    by apply (star_loop_stable _ _ IH a b).
  - destruct Hs as (Hp & Hr & Ho). rewrite Hr.
    by apply (lazy_loop_stable _ _ IH a b).
  - by apply (times_loop_stable _ _ IH a b).
  - apply (IH a b); [done|]. intros s' t' Hs'. apply Hk.
    destruct Hs' as (Hp & Hr & Ho). by repeat split.
  - assert (E : succeeded (rmatch f r s Some) = succeeded (rmatch f r t Some))
      by (by apply (IH a b)).
    destruct (rmatch f r s Some), (rmatch f r t Some); try done. by apply Hk.
Qed.

(** Whether [r] matches where [l] starts, the character before being [pr]. *)
Definition matches_here (f : flags) (r : regex) (pr : option ascii) (l : chars) : bool :=
  succeeded (rmatch f r (MState 0 pr l []) Some).

Lemma look_here (f : flags) (r : regex) (s : mstate) :
  succeeded (rmatch f r s Some) = matches_here f r (prev s) (rest s).
Proof.
  apply (rmatch_stable f r 0 (pos s)); [|done].
  unfold shifted. simpl. repeat split. lia.
Qed.

(** *** The pattern (?:(?!h).)* under DOTALL *)

(** The text up to, and without, the first place where [h] matches. *)
Fixpoint until_here (f : flags) (h : regex) (pr : option ascii) (l : chars) : chars :=
  match l with
  | [] => []
  | x :: t => if matches_here f h pr l then [] else x :: until_here f h (Some x) t
  end.

Lemma until_here_prefix (f : flags) (h : regex) (pr : option ascii) (l : chars) :
  take (length (until_here f h pr l)) l = until_here f h pr l.
Proof.
  revert pr. induction l as [|x t IH]; intros pr; [done|].
  simpl. destruct (matches_here f h pr (x :: t)); [done|]. simpl. by rewrite IH.
Qed.

Lemma neglook_dot (f : flags) (h : regex) (s : mstate) (k : mstate -> option mstate) :
  rmatch f (NegLook h ⋅ Dot) s k =
  match rmatch f h s Some with
  | Some _ => None
  | None => eat (fun c => DOTALL f || negb (is_newline c)) s k
  end.
Proof. reflexivity. Qed.

Lemma star_until (f : flags) (h : regex) (k : mstate -> option mstate) (n : nat)
    (s : mstate) :
  DOTALL f = true -> (forall s', k s' <> None) -> length (rest s) <= n ->
  let b := until_here f h (prev s) (rest s) in
  star_loop (rmatch f (NegLook h ⋅ Dot)) k n s
  = k (MState (pos s + length b) (prev_after (prev s) b) (drop (length b) (rest s)) (caps s)).
Proof.
  intros Hf Hk. revert s. induction n as [|n IH]; intros [po pr l c] Hn; cbn [pos prev rest caps] in *.
  - destruct l; [|simpl in Hn; lia]. simpl. by rewrite Nat.add_0_r.
  - cbn [star_loop]. rewrite neglook_dot.
    pose proof (look_here f h (MState po pr l c)) as Hl. cbn [prev rest] in Hl.
    destruct (rmatch f h (MState po pr l c) Some) as [e|] eqn:E; simpl in Hl.
    + destruct l as [|x t]; simpl; [by rewrite Nat.add_0_r|].
      rewrite <- Hl. simpl. by rewrite Nat.add_0_r.
    + unfold eat at 1. cbn [pos prev rest caps]. destruct l as [|x t].
      * simpl. by rewrite Nat.add_0_r.
      * rewrite Hf. cbn [orb].
        replace (po <? S po)%nat with true by (symmetry; apply Nat.ltb_lt; lia).
        rewrite IH by (simpl in Hn; cbn [rest]; lia). cbn [pos prev rest caps].
        cbn [until_here]. rewrite <- Hl.
        set (b := until_here f h (Some x) t).
        replace (S po + length b) with (po + length (x :: b)) by (simpl; lia).
        replace (prev_after (Some x) b) with (prev_after pr (x :: b))
          by (unfold prev_after; rewrite last_cons; by destruct (last b)).
        cbn [length drop].
        destruct (k _) eqn:Ek; [done | by apply Hk in Ek].
Qed.

Lemma prev_after_cons (pr : option ascii) (x : ascii) (b : chars) :
  prev_after pr (x :: b) = prev_after (Some x) b.
Proof. unfold prev_after. rewrite last_cons. by destruct (last b). Qed.

(** [until_here] in words: the text splits into what is taken and a tail;
    the tail is empty or starts where [h] matches; and [h] matches nowhere
    inside what is taken. *)
Lemma until_here_spec (f : flags) (h : regex) (pr : option ascii) (l : chars) :
  exists tail,
    l = until_here f h pr l ++ tail /\
    (tail = [] \/ matches_here f h (prev_after pr (until_here f h pr l)) tail = true) /\
    forall b1 b2, until_here f h pr l = b1 ++ b2 -> b2 <> [] ->
      matches_here f h (prev_after pr b1) (b2 ++ tail) = false.
Proof.
  revert pr. induction l as [|x t IH]; intros pr.
  - exists []. simpl. split; [done|]. split; [by left|].
    intros b1 b2 H. symmetry in H. by apply app_eq_nil in H as [_ ->].
  - cbn [until_here]. destruct (matches_here f h pr (x :: t)) eqn:E.
    + exists (x :: t). split; [done|]. split; [by right|].
      intros b1 b2 H. symmetry in H. by apply app_eq_nil in H as [_ ->].
    + destruct (IH (Some x)) as (tail & H1 & H2 & H3). exists tail.
      split; [simpl; by rewrite <- H1|]. split; [by rewrite prev_after_cons|].
      intros [|y b1] b2 Hb Hne.
      * simpl in Hb. subst b2. simpl. by rewrite <- H1.
      * injection Hb as <- Hb. rewrite prev_after_cons. by apply H3.
Qed.

End ReFacts.

(** ** The slug normalizer *)

Module SlugSpec.
Import Text TextFacts Re ReFacts Knowledge.

Ltac by_bits c :=
  destruct c as [[] [] [] [] [] [] [] []]; vm_compute; intros; congruence.

Lemma alnum_not_hyphen (c : ascii) : is_alnum c = true -> is_hyphen c = false.
Proof. by_bits c. Qed.
Lemma alnum_not_space (c : ascii) : is_alnum c = true -> is_space c = false.
Proof. by_bits c. Qed.
Lemma alnum_lower (c : ascii) : is_alnum c = true -> lower_char c = c.
Proof. by_bits c. Qed.
Lemma alnum_keeps (c : ascii) : is_alnum c = true -> not_alnum c = false.
Proof. unfold not_alnum. by intros ->. Qed.
Lemma hyphen_is (c : ascii) : is_hyphen c = true -> c = hyphen.
Proof. by_bits c. Qed.
Lemma lit_hyphen (c : ascii) : lit_eq no_flags "-" c = is_hyphen c.
Proof. by_bits c. Qed.

(** Alphanumeric or a hyphen *)
Definition slug_char (c : ascii) : bool := is_alnum c || is_hyphen c.

(** [rstrip] by recursion from the left: the characters are kept up to the
    last one outside the set. *)
Fixpoint rstrip_rec (p : ascii -> bool) (l : chars) : chars :=
  match l with
  | [] => []
  | c :: t =>
      match rstrip_rec p t with
      | [] => if p c then [] else [c]
      | y => c :: y
      end
  end.

Lemma lstrip_snoc (p : ascii -> bool) (m : chars) (c : ascii) :
  lstrip_l p (m ++ [c]) =
  match lstrip_l p m with
  | [] => if p c then [] else [c]
  | y => y ++ [c]
  end.
Proof.
  induction m as [|x m IH]; simpl; [done|]. destruct (p x); [done | done].
Qed.

Lemma rstrip_l_rec (p : ascii -> bool) (l : chars) : rstrip_l p l = rstrip_rec p l.
Proof.
  unfold rstrip_l. induction l as [|c t IH]; [done|].
  simpl rev. rewrite lstrip_snoc. simpl rstrip_rec. rewrite <- IH.
  destruct (lstrip_l p (rev t)) as [|y ys]; simpl.
  - by destruct (p c).
  - rewrite rev_app_distr. simpl. by destruct (rev ys ++ [y]) eqn:E; [destruct (rev ys)|].
Qed.

(** The shape [a-z0-9]+(-[a-z0-9]+)* : a letter or digit, then nothing
    more, or the same shape again, directly or after one hyphen. *)
Inductive slug_shape : chars -> Prop :=
| shape_one (c : ascii) : is_alnum c = true -> slug_shape [c]
| shape_more (c : ascii) (t : chars) :
    is_alnum c = true -> slug_shape t -> slug_shape (c :: t)
| shape_hyphen (c : ascii) (t : chars) :
    is_alnum c = true -> slug_shape t -> slug_shape (c :: hyphen :: t).

Lemma shape_head (l : chars) :
  slug_shape l -> exists c t, l = c :: t /\ is_alnum c = true.
Proof. intros H. destruct H; eauto. Qed.

(** The squeezed text has slug characters only and no hyphen twice. *)
Lemma squeeze_chars (l : chars) :
  Forall (fun c => slug_char c = true) (squeeze not_alnum [hyphen] l).
Proof.
  induction l as [|c t IH]; [constructor|].
  simpl. destruct (not_alnum c) eqn:Hc.
  - destruct t as [|d t0]; [by repeat constructor|].
    destruct (not_alnum d); [done | by constructor].
  - constructor; [|done]. unfold slug_char, not_alnum in *.
    apply negb_false_iff in Hc. by rewrite Hc.
Qed.

Lemma no_double_cons (c : ascii) (l : chars) :
  is_hyphen c = false -> no_double is_hyphen l = true ->
  no_double is_hyphen (c :: l) = true.
Proof. intros Hc Hl. destruct l as [|d l]; [done|]. simpl in *. by rewrite Hc, Hl. Qed.

Lemma no_double_tail (c : ascii) (l : chars) :
  no_double is_hyphen (c :: l) = true -> no_double is_hyphen l = true.
Proof. destruct l as [|d l]; [done|]. simpl. by intros [_ H]%andb_true_iff. Qed.

Lemma no_double_cons2 (c d : ascii) (l : chars) :
  is_hyphen d = false -> no_double is_hyphen (d :: l) = true ->
  no_double is_hyphen (c :: d :: l) = true.
Proof.
  intros Hd H.
  change (negb (is_hyphen c && is_hyphen d) && no_double is_hyphen (d :: l) = true).
  by rewrite Hd, andb_false_r, H.
Qed.

Lemma squeeze_no_double (l : chars) :
  no_double is_hyphen (squeeze not_alnum [hyphen] l) = true.
Proof.
  induction l as [|c t IH]; [done|].
  simpl. destruct (not_alnum c) eqn:Hc.
  - destruct t as [|d t0]; [done|].
    destruct (not_alnum d) eqn:Hd; [done|].
    simpl app. simpl squeeze in *. rewrite Hd in *.
    unfold not_alnum in Hd. apply negb_false_iff in Hd.
    apply no_double_cons2; [by apply alnum_not_hyphen | exact IH].
  - apply no_double_cons; [|done].
    unfold not_alnum in Hc. apply negb_false_iff in Hc. by apply alnum_not_hyphen.
Qed.

Lemma lstrip_keeps (l : chars) :
  Forall (fun c => slug_char c = true) l -> no_double is_hyphen l = true ->
  Forall (fun c => slug_char c = true) (lstrip_l is_hyphen l) /\
  no_double is_hyphen (lstrip_l is_hyphen l) = true /\
  match lstrip_l is_hyphen l with
  | [] => True
  | c :: _ => is_hyphen c = false
  end.
Proof.
  induction l as [|c t IH]; intros Hf Hd; [done|].
  simpl. destruct (is_hyphen c) eqn:Hc.
  - apply IH; [by inversion Hf | by eapply no_double_tail].
  - done.
Qed.

(** Stripping the hyphens on the right of such a text leaves nothing or a
    slug, behind the hyphen the text starts with if it starts with one. *)
Lemma rstrip_shape (l : chars) :
  Forall (fun c => slug_char c = true) l -> no_double is_hyphen l = true ->
  match l with
  | [] => True
  | c :: _ =>
      if is_hyphen c
      then rstrip_rec is_hyphen l = [] \/
           exists y, rstrip_rec is_hyphen l = c :: y /\ slug_shape y
      else slug_shape (rstrip_rec is_hyphen l)
  end.
Proof.
  induction l as [|c t IH]; intros Hf Hd; [done|].
  inversion Hf as [|? ? Hc Hft]; subst.
  specialize (IH Hft (no_double_tail _ _ Hd)).
  simpl rstrip_rec. destruct t as [|d t0].
  - simpl. destruct (is_hyphen c) eqn:Hh; [by left|].
    apply shape_one. unfold slug_char in Hc. by rewrite Hh, orb_false_r in Hc.
  - destruct (is_hyphen c) eqn:Hh.
    + assert (Hdh : is_hyphen d = false).
      { simpl in Hd. rewrite Hh in Hd. simpl in Hd.
        apply andb_true_iff in Hd as [Hd _]. by apply negb_true_iff in Hd. }
      rewrite Hdh in IH. right.
      destruct (shape_head _ IH) as (x & y & E & _). rewrite E in *. eauto.
    + assert (Ha : is_alnum c = true)
        by (unfold slug_char in Hc; by rewrite Hh, orb_false_r in Hc).
      destruct (is_hyphen d) eqn:Hdh.
      * destruct IH as [-> | (y & -> & Hy)]; [by apply shape_one|].
        rewrite (hyphen_is _ Hdh). by apply shape_hyphen.
      * destruct (shape_head _ IH) as (x & y & E & _). rewrite E in *.
        by apply shape_more.
Qed.

(** On a slug every step of [slug] is the identity. *)
Lemma shape_lstrip (q : ascii -> bool) (l : chars) :
  (forall c, is_alnum c = true -> q c = false) -> slug_shape l -> lstrip_l q l = l.
Proof. intros Hq Hl. destruct Hl; simpl; by rewrite Hq. Qed.

Lemma shape_rstrip (q : ascii -> bool) (l : chars) :
  (forall c, is_alnum c = true -> q c = false) -> slug_shape l -> rstrip_rec q l = l.
Proof.
  intros Hq Hl. induction Hl as [c Hc|c t Hc Ht IH|c t Hc Ht IH].
  - simpl. by rewrite Hq.
  - simpl. rewrite IH. by destruct Ht.
  - simpl. rewrite IH. by destruct Ht.
Qed.

Lemma shape_lower (l : chars) : slug_shape l -> lower_l l = l.
Proof.
  intros Hl. induction Hl as [c Hc|c t Hc Ht IH|c t Hc Ht IH].
  - simpl. by rewrite alnum_lower.
  - change (lower_l (c :: t)) with (lower_char c :: lower_l t).
    by rewrite alnum_lower, IH.
  - change (lower_l (c :: hyphen :: t)) with (lower_char c :: hyphen :: lower_l t).
    by rewrite alnum_lower, IH.
Qed.

Lemma shape_squeeze (l : chars) : slug_shape l -> squeeze not_alnum [hyphen] l = l.
Proof.
  intros Hl. induction Hl as [c Hc|c t Hc Ht IH|c t Hc Ht IH].
  - simpl. by rewrite alnum_keeps.
  - simpl. by rewrite alnum_keeps, IH.
  - destruct (shape_head _ Ht) as (x & y & -> & Hx).
    simpl in *. rewrite (alnum_keeps _ Hc), (alnum_keeps _ Hx) in *. by rewrite IH.
Qed.

Lemma shape_no_double (l : chars) :
  slug_shape l -> no_double (lit_eq no_flags "-") l = true.
Proof.
  intros Hl. induction Hl as [c Hc|c t Hc Ht IH|c t Hc Ht IH]; [done| |].
  - destruct t as [|d t]; [done|].
    change (negb (lit_eq no_flags "-" c && lit_eq no_flags "-" d)
            && no_double (lit_eq no_flags "-") (d :: t) = true).
    by rewrite IH, lit_hyphen, (alnum_not_hyphen _ Hc).
  - destruct (shape_head _ Ht) as (x & y & -> & Hx).
    change (negb (lit_eq no_flags "-" c && lit_eq no_flags "-" hyphen)
            && (negb (lit_eq no_flags "-" hyphen && lit_eq no_flags "-" x)
                && no_double (lit_eq no_flags "-") (x :: y)) = true).
    by rewrite IH, !lit_hyphen, (alnum_not_hyphen _ Hc), (alnum_not_hyphen _ Hx),
      andb_false_r.
Qed.

Lemma shape_fixed (l : chars) : slug_shape l -> slug_l l = l.
Proof.
  intros Hl. unfold slug_l, strip_l, non_alnum_run, hyphen_run.
  rewrite !rstrip_l_rec, (shape_lstrip is_space l alnum_not_space Hl).
  rewrite (shape_rstrip is_space l alnum_not_space Hl), (shape_lower l Hl).
  rewrite sub_class, (shape_squeeze l Hl).
  rewrite (shape_lstrip is_hyphen l alnum_not_hyphen Hl).
  rewrite (shape_rstrip is_hyphen l alnum_not_hyphen Hl).
  by apply sub_no_double, shape_no_double.
Qed.

(** The slug of any text is empty or has the slug shape. *)
Lemma slug_l_shape (l : chars) : slug_l l = [] \/ slug_shape (slug_l l).
Proof.
  unfold slug_l, non_alnum_run, hyphen_run. rewrite sub_class.
  set (x := squeeze not_alnum [hyphen] (lower_l (strip_l is_space l))).
  destruct (lstrip_keeps x (squeeze_chars _) (squeeze_no_double _)) as (Hf & Hd & Hh).
  unfold strip_l. rewrite rstrip_l_rec.
  pose proof (rstrip_shape _ Hf Hd) as Hs.
  destruct (lstrip_l is_hyphen x) as [|c t]; [by left|].
  rewrite Hh in Hs. right.
  rewrite sub_no_double; [done | by apply shape_no_double].
Qed.

(** A non-empty word of lower-case letters and digits *)
Definition word (w : string) : Prop :=
  w <> "" /\ Forall (fun c => is_alnum c = true) (chars_of w).

(** A slug is one or more words joined by single hyphens. *)
Lemma shape_words (l : chars) :
  slug_shape l ->
  exists (w : string) (ws : list string),
    Forall word (w :: ws) /\ str_of l = join "-" (w :: ws).
Proof.
  induction 1 as [c Hc|c t Hc Ht IH|c t Hc Ht IH].
  - exists (String c ""), []. split; [|done].
    repeat constructor; [done | by simpl].
  - destruct IH as (w & ws & Hw & E). exists (String c w), ws.
    inversion Hw as [|? ? [Hne Hall] Hws]; subst. split.
    + constructor; [|done]. split; [done | by constructor].
    + simpl str_of. fold (str_of t). rewrite E. by destruct ws.
  - destruct IH as (w & ws & Hw & E). exists (String c ""), (w :: ws). split.
    + constructor; [|done]. split; [done | by repeat constructor].
    + simpl str_of. fold (str_of t). by rewrite E.
Qed.

(** C4.  For every text, [slug] gives the empty string or non-empty words
    over [a-z0-9] joined by single hyphens, which is what
    ^[a-z0-9]+(-[a-z0-9]+)*$ matches; and [slug] applied to a slug returns
    it. *)
Theorem slug_shape_and_idempotent (s : string) :
  (slug s = "" \/
   exists (w : string) (ws : list string),
     Forall word (w :: ws) /\ slug s = join "-" (w :: ws)) /\
  slug (slug s) = slug s.
Proof.
  unfold slug. rewrite chars_of_str_of.
  destruct (slug_l_shape (chars_of s)) as [E | H].
  - rewrite E. split; [by left | done].
  - split; [right; by apply shape_words|]. by rewrite (shape_fixed _ H).
Qed.

End SlugSpec.

(** ** The sections of a journal *)

Module SectionSpec.
Import Text TextFacts Re ReFacts StudyAgent.

Lemma steps_clear (s e : mstate) (mid : chars) :
  steps (clear s) mid e -> steps s mid (clear e).
Proof. done. Qed.

Lemma advance_steps (s s1 : mstate) :
  advance s = Some s1 -> exists c, steps s [c] s1.
Proof.
  unfold advance. destruct s as [po pr l c]. simpl. destruct l as [|x t]; [done|].
  intros [= <-]. exists x. unfold steps. simpl. repeat split. lia.
Qed.

(** Every match that [finditer] yields is a match at some position of the
    text. *)
Lemma finditer_from_origin (f : flags) (r : regex) (n : nat) (s : mstate)
    (m : rmatch_obj) :
  In m (finditer_from f r n s) ->
  exists mid s' e,
    steps s mid s' /\ rmatch f r (clear s') Some = Some e /\
    m = MatchObj (pos s') (pos e) (take (pos e - pos s') (rest s')) (caps e).
Proof.
  revert s. induction n as [|n IH]; intros s; [done|].
  cbn [finditer_from]. unfold match_at.
  assert (Hadv : In m match advance s with
                      | Some s' => finditer_from f r n s'
                      | None => []
                      end ->
                 exists mid s' e,
                   steps s mid s' /\ rmatch f r (clear s') Some = Some e /\
                   m = MatchObj (pos s') (pos e) (take (pos e - pos s') (rest s')) (caps e)).
  { destruct (advance s) as [s1|] eqn:Ea; [|done]. intros Hin.
    apply advance_steps in Ea as [c Hc].
    apply IH in Hin as (mid & s' & e & H1 & H2 & H3).
    exists ([c] ++ mid), s', e. split; [by eapply steps_trans | done]. }
  destruct (rmatch f r (clear s) Some) as [e|] eqn:E; [|exact Hadv].
  assert (Hhere : exists mid s' e0,
             steps s mid s' /\ rmatch f r (clear s') Some = Some e0 /\
             MatchObj (pos s) (pos e) (take (pos e - pos s) (rest s)) (caps e)
             = MatchObj (pos s') (pos e0) (take (pos e0 - pos s') (rest s')) (caps e0)).
  { exists [], s, e. split; [apply steps_refl | done]. }
  change (pos (clear e)) with (pos e).
  destruct (pos s <? pos e)%nat.
  - intros [<- | Hin]; [exact Hhere|].
    apply IH in Hin as (mid & s' & e' & H1 & H2 & H3).
    destruct (rmatch_sound f r _ _ _ E) as (m0 & s0 & Hs0 & [= ->]).
    exists (m0 ++ mid), s', e'. split; [|done].
    eapply steps_trans; [|exact H1]. by apply steps_clear.
  - intros [<- | Hin]; [exact Hhere | by apply Hadv].
Qed.

Lemma steps_from_start (l before : chars) (s : mstate) :
  steps (start_of l) before s ->
  l = before ++ rest s /\ pos s = length before /\ prev s = last before.
Proof.
  intros (H1 & H2 & H3). simpl in *. repeat split; [done | done |].
  rewrite H3. unfold prev_after. by destruct (last before).
Qed.

(** The body of a section: the text after the heading line up to, and
    without, the next date heading, or up to the end. *)
Definition section_body (pr : option ascii) (after : chars) : chars :=
  until_here sec_flags date_line pr after.

Lemma block_eq (f : flags) (s : mstate) (k : mstate -> option mstate) :
  rmatch f BLOCK s k
  = star_loop (rmatch f (NegLook date_line ⋅ Dot)) k (length (rest s)) s.
Proof. reflexivity. Qed.

(** A match of [sec_re]: a heading line, and as group 2 the body that
    follows it. *)
Lemma sec_re_match (s e : mstate) :
  rmatch sec_flags sec_re s Some = Some e ->
  exists line s2,
    steps s line s2 /\ line <> [] /\
    assoc 2 (caps e) = Some (section_body (prev s2) (rest s2)) /\
    pos e = pos s2 + length (section_body (prev s2) (rest s2)).
Proof.
  unfold sec_re. cbn [rmatch]. intros E.
  apply rmatch_sound in E as (m1 & s1 & H1 & E).
  unfold eat in E. destruct s1 as [po pr l c]. cbn [pos prev rest caps] in *.
  destruct l as [|x t]; [done|]. destruct (lit_eq sec_flags newline x); [|done].
  rewrite block_eq in E.
  rewrite star_until in E; [|done|done|cbn [rest]; lia].
  cbn [pos prev rest caps] in E. injection E as <-.
  exists (m1 ++ [x]), (MState (S po) (Some x) t c). split; [|split; [|split]].
  - eapply steps_trans; [exact H1|]. unfold steps. simpl. repeat split. lia.
  - by destruct m1.
  - unfold set_cap. cbn [pos prev rest caps assoc Nat.eqb].
    unfold section_body. f_equal.
    replace (S (po + length (until_here sec_flags date_line (Some x) t)) - S po)
      with (length (until_here sec_flags date_line (Some x) t)) by lia.
    apply until_here_prefix.
  - done.
Qed.

(** A date heading starts at [l], the character before being [pr]. *)
Definition heading_here (pr : option ascii) (l : chars) : bool :=
  matches_here sec_flags date_line pr l.

(** Every section that [finditer] yields: a heading line, then as group 2
    the text up to the next date heading or the end of the document. *)
Lemma finditer_section (doc : string) (m : rmatch_obj) :
  In m (finditer sec_flags sec_re doc) ->
  exists before line body tail : chars,
    chars_of doc = before ++ line ++ body ++ tail /\
    line <> [] /\
    m_start m = length before /\
    chars_of (group 2 m) = body /\
    (tail = [] \/ heading_here (last (before ++ line ++ body)) tail = true) /\
    (forall b1 b2, body = b1 ++ b2 -> b2 <> [] ->
       heading_here (last (before ++ line ++ b1)) (b2 ++ tail) = false).
Proof.
  unfold finditer. intros Hin.
  apply finditer_from_origin in Hin as (before & s' & e & H1 & H2 & ->).
  apply sec_re_match in H2 as (line & s2 & H3 & Hne & Hc & _).
  pose proof (steps_trans _ _ _ _ _ H1 H3) as H4.
  apply steps_from_start in H4 as (Hdoc & _ & Hprev).
  apply steps_from_start in H1 as (_ & Hpos & _).
  destruct (until_here_spec sec_flags date_line (prev s2) (rest s2))
    as (tail & Ht1 & Ht2 & Ht3).
  fold (section_body (prev s2) (rest s2)) in Ht1, Ht2, Ht3.
  set (body := section_body (prev s2) (rest s2)) in *.
  assert (Hpa : forall b, prev_after (prev s2) b = last (before ++ line ++ b)).
  { intros b. rewrite Hprev. unfold prev_after.
    rewrite (app_assoc before line b), (last_app (before ++ line) b).
    by destruct (last b). }
  exists before, line, body, tail. repeat split.
  - by rewrite Hdoc, Ht1, <- app_assoc.
  - done.
  - done.
  - unfold group. cbn [m_caps]. rewrite Hc. simpl. apply chars_of_str_of.
  - destruct Ht2 as [-> | Ht2]; [by left | right]. unfold heading_here.
    by rewrite <- Hpa.
  - intros b1 b2 Hb Hb2. unfold heading_here. rewrite <- Hpa. by apply Ht3.
Qed.

Lemma first_section_found (ms1 ms2 : list rmatch_obj) (m : rmatch_obj) (target : string) :
  (forall m', In m' ms1 -> group 1 m' <> target) -> group 1 m = target ->
  first_section (ms1 ++ m :: ms2) target = Some (group 2 m).
Proof.
  intros H1 H2. induction ms1 as [|m0 ms1 IH]; cbn [app first_section].
  - by rewrite H2, String.eqb_refl.
  - destruct (String.eqb_spec (group 1 m0) target) as [E|E].
    + destruct (H1 m0); [by left | done].
    + apply IH. intros m' Hm'. apply H1. by right.
Qed.

Lemma first_section_none (ms : list rmatch_obj) (target : string) :
  (forall m, In m ms -> group 1 m <> target) -> first_section ms target = None.
Proof.
  intros H. induction ms as [|m0 ms IH]; [done|]. cbn [first_section].
  destruct (String.eqb_spec (group 1 m0) target) as [E|E].
  - destruct (H m0); [by left | done].
  - apply IH. intros m' Hm'. apply H. by right.
Qed.

Lemma truthy_nonempty (s : string) : s <> "" -> truthy s = true.
Proof. by destruct s. Qed.

(** *** The date heading, in the words of the specification *)

(** The definitions named [spec_...] are written from the specification:
    what a date heading is, where a section starts, how far its body goes,
    and which section is selected.  They are compared below with the
    patterns [sec_re] and [BLOCK] and the loop of the source. *)

Definition is_hash (c : ascii) : bool := (code c =? 35)%nat.

(** YYYY-MM-DD: four digits, a hyphen, two digits, a hyphen, two digits. *)
Definition is_ymd (m : chars) : bool :=
  match m with
  | [a; b; c; d; h1; e; g; h2; i; j] =>
      is_digit a && is_digit b && is_digit c && is_digit d && is_hyphen h1 &&
      is_digit e && is_digit g && is_hyphen h2 && is_digit i && is_digit j
  | _ => false
  end.








(** *** The patterns, evaluated *)

Local Open Scope regex_scope.

















Lemma hash_not_newline (c : ascii) : is_hash c = true -> is_newline c = false.
Proof. destruct c as [[] [] [] [] [] [] [] []]; vm_compute; intros; congruence. Qed.




















(** *** The sections the finder yields *)














Lemma str_of_eqb (a b : chars) : String.eqb (str_of a) (str_of b) = true <-> a = b.
Proof.
  rewrite String.eqb_eq. split; [|by intros ->].
  intros H. by rewrite <- (chars_of_str_of a), <- (chars_of_str_of b), H.
Qed.







End SectionSpec.

(** ** The lists of a section *)

Module ListSpec.
Import Text TextFacts Re ReFacts StudyAgent SectionSpec.

Definition one_line (l : chars) : Prop := Forall (fun c => is_newline c = false) l.

(** Soundness with a property of what was read. *)
Definition sound_in (P : chars -> Prop)
    (body : mstate -> (mstate -> option mstate) -> option mstate) : Prop :=
  forall s k e, body s k = Some e ->
    exists mid s', steps s mid s' /\ P mid /\ k s' = Some e.

Lemma star_loop_sound_in (P : chars -> Prop)
    (body : mstate -> (mstate -> option mstate) -> option mstate)
    (k : mstate -> option mstate) (n : nat) :
  P [] -> (forall a b, P a -> P b -> P (a ++ b)) -> sound_in P body ->
  forall s e, star_loop body k n s = Some e ->
    exists mid s', steps s mid s' /\ P mid /\ k s' = Some e.
Proof.
  intros P0 Papp Hb. induction n as [|n IH]; intros s e; simpl.
  - intros H. exists [], s. split; [apply steps_refl | done].
  - destruct (body s _) as [e'|] eqn:E.
    + intros [= ->]. apply Hb in E as (m1 & s1 & H1 & Hp1 & E).
      destruct (pos s <? pos s1)%nat; [|done].
      apply IH in E as (m2 & s2 & H2 & Hp2 & E).
      exists (m1 ++ m2), s2. split; [by eapply steps_trans | auto].
    + intros H. exists [], s. split; [apply steps_refl | done].
Qed.

(** Without DOTALL the dot reads no line break. *)
Lemma dot_one_line (f : flags) (h : regex) :
  DOTALL f = false -> sound_in one_line (rmatch f (NegLook h ⋅ Dot)).
Proof.
  intros Hf [po pr l c] k e. rewrite neglook_dot.
  destruct (rmatch f h _ Some); [done|]. unfold eat. cbn [pos prev rest caps].
  destruct l as [|x t]; [done|]. rewrite Hf. cbn [orb].
  destruct (is_newline x) eqn:Hx; [done|]. cbn [negb]. intros H.
  exists [x], (MState (S po) (Some x) t c). split; [|split; [|done]].
  - unfold steps. simpl. repeat split. lia.
  - by repeat constructor.
Qed.

Lemma cat_sound (f : flags) (a b : regex) (s e : mstate) (k : mstate -> option mstate) :
  rmatch f (a ⋅ b) s k = Some e ->
  exists mid s', steps s mid s' /\ rmatch f b s' k = Some e.
Proof. cbn [rmatch]. apply rmatch_sound. Qed.

(** The block that [rx] captures lies on one line. *)
Lemma list_re_match (heading : string) (s e : mstate) :
  rmatch list_flags (list_re heading) s Some = Some e ->
  one_line (default [] (assoc 1 (caps e))).
Proof.
  unfold list_re. intros E.
  apply cat_sound in E as (m1 & s1 & _ & E). apply cat_sound in E as (m2 & s2 & _ & E).
  apply cat_sound in E as (m3 & s3 & _ & E). apply cat_sound in E as (m4 & s4 & _ & E).
  apply cat_sound in E as (m5 & s5 & _ & E).
  change (rmatch list_flags BLOCK s5 (fun s' => Some (set_cap 1 s5 s')) = Some e) in E.
  rewrite block_eq in E.
  apply (star_loop_sound_in one_line) in E as (mid & s' & (H1 & H2 & _) & Hp & [= <-]).
  - unfold set_cap. cbn [caps assoc Nat.eqb default].
    rewrite H2, H1. replace (pos s5 + length mid - pos s5) with (length mid) by lia.
    by rewrite take_app_length.
  - constructor.
  - intros a b Ha Hb. by apply Forall_app.
  - by apply dot_one_line.
Qed.

Lemma search_from_origin (f : flags) (r : regex) (n : nat) (s : mstate) (m : rmatch_obj) :
  search_from f r n s = Some m ->
  exists s' e, rmatch f r (clear s') Some = Some e /\ m_caps m = caps e.
Proof.
  revert s. induction n as [|n IH]; intros s; cbn [search_from]; unfold match_at.
  - destruct (rmatch f r (clear s) Some) as [e|] eqn:E; [|done].
    intros [= <-]. by exists s, e.
  - destruct (rmatch f r (clear s) Some) as [e|] eqn:E.
    + intros [= <-]. by exists s, e.
    + destruct (advance s) as [s1|]; [apply IH | done].
Qed.

(** Inside a line no pattern that starts with ^ matches. *)
Definition inside_line (s : mstate) : Prop :=
  (exists c, prev s = Some c /\ is_newline c = false) /\ one_line (rest s).

Lemma finditer_inside (f : flags) (x : regex) (n : nat) (s : mstate) :
  inside_line s -> finditer_from f (Bol ⋅ x) n s = [].
Proof.
  revert s. induction n as [|n IH]; intros [po pr l c] [[c0 [Hp Hc]] Hr]; [done|].
  cbn [pos prev rest caps] in *. subst pr.
  cbn [finditer_from]. unfold match_at, clear. cbn [rmatch pos prev rest caps].
  unfold at_bol. cbn [prev]. rewrite Hc, andb_false_r.
  unfold advance. cbn [pos prev rest caps]. destruct l as [|y t]; [done|].
  apply IH. inversion Hr; subst. split; [by exists y | done].
Qed.

Lemma steps_inside (l mid : chars) (s : mstate) :
  one_line l -> steps (start_of l) mid s -> mid <> [] -> inside_line (clear s).
Proof.
  intros Hl Hs Hne. apply steps_from_start in Hs as (-> & _ & Hp).
  apply Forall_app in Hl as [Hm Hr]. split; [|done].
  destruct (last mid) as [c|] eqn:E; [|by apply last_None in E].
  exists c. split; [done|].
  apply last_Some in E as [l' ->]. apply Forall_app in Hm as [_ Hm]. by inversion Hm.
Qed.

(** On one line a pattern that starts with ^ is found at most once. *)
Lemma finditer_one_line (f : flags) (x : regex) (text : string) :
  one_line (chars_of text) -> length (finditer f (Bol ⋅ x) text) <= 1.
Proof.
  intros Hl. unfold finditer. cbn [finditer_from]. unfold match_at.
  set (s := start_of (chars_of text)).
  assert (Hadv : match advance s with
                 | Some s' => finditer_from f (Bol ⋅ x) (String.length text) s'
                 | None => []
                 end = []).
  { destruct (advance s) as [s1|] eqn:Ea; [|done].
    apply finditer_inside. apply advance_steps in Ea as [c Hc].
    by apply (steps_inside _ _ _ Hl Hc). }
  destruct (rmatch f (Bol ⋅ x) (clear s) Some) as [e|] eqn:E.
  - change (pos (clear e)) with (pos e).
    destruct (pos s <? pos e)%nat eqn:Hlt.
    + apply rmatch_sound in E as (mid & s' & Hs & [= ->]).
      rewrite finditer_inside; [done|].
      apply (steps_inside _ mid _ Hl Hs).
      intros ->. destruct Hs as (_ & Hs & _). apply Nat.ltb_lt in Hlt.
      change (pos (clear s)) with (pos s) in Hs. simpl in Hs. lia.
    + by rewrite Hadv.
  - rewrite Hadv. simpl. lia.
Qed.

Lemma filter_shorter {A} (p : A -> bool) (l : list A) :
  length (List.filter p l) <= length l.
Proof. induction l as [|a l IH]; simpl; [lia|]. destruct (p a); simpl; lia. Qed.

(** [parse_list] gives at most one entry, whatever the section. *)
Lemma parse_list_at_most_one (section heading : string) :
  length (parse_list section heading) <= 1.
Proof.
  unfold parse_list, search.
  destruct (search_from _ _ _ _) as [mm|] eqn:E; [|simpl; lia].
  apply search_from_origin in E as (s' & e & E & Hc).
  apply list_re_match in E.
  etrans; [apply filter_shorter|]. rewrite length_map. unfold findall1.
  rewrite length_map. apply finditer_one_line.
  unfold group. rewrite Hc, chars_of_str_of. exact E.
Qed.

(** C1.  On the round-trip document the parser returns the first topic
    only; and for every document it returns at most one topic and at most
    one note.  [rx] in [parse_list] is compiled without DOTALL, so the block
    it captures ends at the first line break. *)
Theorem parse_sample_drops_second_topic :
  (forall today : string,
     parse_yearly_journal today JournalSpec.sample_doc (Some "2025-06-01")
     = Journal "2025-06-01" ["rust basics"] ["review later"]) /\
  (forall (today doc : string) (target : option string),
     length (topics (parse_yearly_journal today doc target)) <= 1 /\
     length (notes (parse_yearly_journal today doc target)) <= 1).
Proof.
  split; [intros today; by vm_compute|].
  intros today doc target. unfold parse_yearly_journal.
  destruct (first_section _ _) as [section|]; [|simpl; lia].
  destruct (truthy section); [|simpl; lia].
  cbn [topics notes]. split; apply parse_list_at_most_one.
Qed.

End ListSpec.

(** ** The tree scaffolder *)

Module ScaffoldSpec.
Import Text Py Fs FsFacts Knowledge MaterializerSpec.
Local Open Scope path_scope.

Lemma settles_skip : settles (fun fs => Ok fs) (fun fs => Ok fs).
Proof. intros fs fs' [= <-]. by split. Qed.

Lemma os_mkdir_existing (p : path) (fs : fsmap) :
  is_dir fs p = true -> exists_ fs (parent p) = true ->
  os_mkdir p fs = Raise FileExistsError \/ os_mkdir p fs = Raise NotADirectoryError.
Proof.
  unfold os_mkdir, is_dir, exists_. intros Hd Hp.
  destruct (stat fs (parent p)) as [[|c]|]; [|by right|done].
  destruct (stat fs p); [by left | done].
Qed.

(** A directory that is there with its parent is left alone. *)
Lemma mkdir_parents_noop (p : path) (fs : fsmap) :
  is_dir fs p = true -> exists_ fs (parent p) = true -> mkdir_parents p fs = Ok fs.
Proof.
  intros Hd Hp. unfold mkdir_parents.
  destruct (os_mkdir_existing p fs Hd Hp) as [E | E];
    destruct (rev p) as [|x rp] eqn:Er; simpl;
    rewrite <- ?Er, ?rev_involutive;
    try (apply (f_equal (@rev string)) in Er; rewrite rev_involutive in Er; simpl in Er;
         rewrite <- Er);
    rewrite ?E, ?Hd; try done.
Qed.

(** When [mkdir_parents] returns, the parent of the directory is there. *)
Lemma mkdir_parents_parent (p : path) (fs fs' : fsmap) :
  mkdir_parents p fs = Ok fs' -> exists_ fs' (parent p) = true.
Proof.
  unfold mkdir_parents. intros H.
  destruct (rev p) as [|x rp] eqn:Er.
  - apply (f_equal (@rev string)) in Er. rewrite rev_involutive in Er. simpl in Er.
    by subst p.
  - assert (Hp : p = rev rp ++ [x]).
    { apply (f_equal (@rev string)) in Er. by rewrite rev_involutive in Er. }
    simpl in H. rewrite <- Hp in H.
    destruct (os_mkdir p fs) as [f1|e] eqn:E.
    + injection H as <-. apply os_mkdir_ok in E as (H1 & _ & H3 & _).
      apply (exists_mono fs); [done|]. unfold exists_. by rewrite H3.
    + assert (He : e = FileNotFoundError \/ e <> FileNotFoundError)
        by (destruct e; auto; by right).
      destruct He as [-> | He].
      * destruct (is_root p); [done|].
        destruct (mkdir_parents_rev rp fs) as [f1|]; [|done]. simpl in H.
        by apply mkdir_ok in H as (_ & _ & H & _).
      * pose proof (os_mkdir_not_found _ _ _ E He) as Hx.
        destruct e; try done; destruct (is_dir fs p); try done; by injection H as <-.
Qed.

Lemma mkdir_parents_settles (p : path) : settles (mkdir_parents p) (mkdir_parents p).
Proof.
  intros fs fs' H. pose proof (mkdir_parents_parent _ _ _ H) as Hp.
  apply mkdir_parents_ok in H as (H1 & H2 & _). split; [done|].
  intros fs'' Hs. apply mkdir_parents_noop; [by eapply is_dir_mono | by eapply exists_mono].
Qed.

Lemma ensure_topics_settles (base : path) (ts : list string) :
  settles (ensure_topics base ts) (ensure_topics base ts).
Proof.
  induction ts as [|t ts IH]; [apply settles_skip|].
  apply (settles_bind (ensure_topic base t) (ensure_topic base t)); [|exact IH].
  apply (settles_bind (mkdir_parents _) (mkdir_parents _));
    [apply mkdir_parents_settles | apply touch_settles].
Qed.

Lemma ensure_group_settles (root : path) (area : string) (g : string * list string) :
  settles (ensure_group root area g) (ensure_group root area g).
Proof.
  apply (settles_bind (mkdir_parents _) (mkdir_parents _)); [apply mkdir_parents_settles|].
  apply (settles_bind (touch _) (touch _)); [apply touch_settles|].
  apply ensure_topics_settles.
Qed.

Lemma ensure_groups_settles (root : path) (area : string)
    (gs : list (string * list string)) :
  settles (ensure_groups root area gs) (ensure_groups root area gs).
Proof.
  induction gs as [|g gs IH]; [apply settles_skip|].
  apply (settles_bind (ensure_group root area g) (ensure_group root area g));
    [apply ensure_group_settles | exact IH].
Qed.

Lemma ensure_areas_settles (root : path)
    (cats : list (string * list (string * list string))) :
  settles (ensure_areas root cats) (ensure_areas root cats).
Proof.
  induction cats as [|[a gs] cats IH]; [apply settles_skip|].
  apply (settles_bind (ensure_groups root a gs) (ensure_groups root a gs));
    [apply ensure_groups_settles | exact IH].
Qed.

Lemma ensure_tree_settles (root : path) : settles (ensure_tree root) (ensure_tree root).
Proof.
  apply (settles_bind (ensure_areas root CATEGORIES) (ensure_areas root CATEGORIES));
    [apply ensure_areas_settles | apply touch_settles].
Qed.

(** X1.  When [ensure_tree] returns, every entry that existed is as it was,
    and running it again returns the tree unchanged. *)
Theorem ensure_tree_idempotent (root : path) (fs fs' : fsmap) :
  ensure_tree root fs = Ok fs' ->
  (forall (p : path) (n : node), fs !! p = Some n -> fs' !! p = Some n) /\
  ensure_tree root fs' = Ok fs'.
Proof.
  intros H. destruct (ensure_tree_settles root fs fs' H) as [Hs Ha]. split.
  - intros p n Hp. by eapply lookup_weaken.
  - by apply Ha.
Qed.

Lemma ensure_tree_idempotent_witness :
  returned (ensure_tree ROOT ∅) = true /\
  ensure_tree ROOT (state_of (ensure_tree ROOT ∅)) = Ok (state_of (ensure_tree ROOT ∅)).
Proof.
  assert (He : returned (ensure_tree ROOT ∅) = true) by (vm_compute; exact eq_refl).
  split; [exact He|].
  exact (proj2 (ensure_tree_idempotent ROOT ∅ (state_of (ensure_tree ROOT ∅))
                  (returned_state _ He))).
Defined.

(** What one group of the taxonomy looks like once it is made. *)
Definition group_made (root : path) (area : string) (g : string * list string)
    (fs : fsmap) : Prop :=
  is_dir fs (root / area / fst g) = true /\
  exists_ fs (root / area / fst g / ".gitkeep") = true /\
  forall t, In t (snd g) ->
    is_dir fs (root / area / fst g / t) = true /\
    exists_ fs (root / area / fst g / t / ".gitkeep") = true.

Lemma group_made_mono (root : path) (area : string) (g : string * list string)
    (fs fs' : fsmap) :
  fs ⊆ fs' -> group_made root area g fs -> group_made root area g fs'.
Proof.
  intros Hs (H1 & H2 & H3). split; [by eapply is_dir_mono|].
  split; [by eapply exists_mono|]. intros t Ht. destruct (H3 t Ht) as [H4 H5].
  split; [by eapply is_dir_mono | by eapply exists_mono].
Qed.

Lemma ensure_topics_made (base : path) (ts : list string) (fs fs' : fsmap) :
  ensure_topics base ts fs = Ok fs' ->
  forall t, In t ts ->
    is_dir fs' (base / t) = true /\ exists_ fs' (base / t / ".gitkeep") = true.
Proof.
  revert fs. induction ts as [|t0 ts IH]; intros fs H t Ht; [done|].
  bind_ok H f1 E1. unfold ensure_topic in E1. bind_ok E1 f0 E0.
  apply mkdir_parents_ok in E0 as (_ & Hd & _). apply touch_ok in E1 as (H1 & Hx & _).
  pose proof (ensure_topics_mono _ _ _ _ H) as Hm.
  destruct Ht as [<- | Ht]; [|by eapply IH].
  split; [apply (is_dir_mono f0); [by etrans | done] | by apply (exists_mono f1)].
Qed.

Lemma ensure_group_made (root : path) (area : string) (g : string * list string)
    (fs fs' : fsmap) :
  ensure_group root area g fs = Ok fs' -> group_made root area g fs'.
Proof.
  intros H. pose proof (ensure_group_ok _ _ _ _ _ H) as [_ Hd].
  unfold ensure_group in H. bind_ok H f1 E1. bind_ok H f2 E2.
  apply touch_ok in E2 as (_ & Hx & _).
  split; [done|]. split; [|by eapply ensure_topics_made].
  apply (exists_mono f2); [by eapply ensure_topics_mono | done].
Qed.

Lemma ensure_groups_made (root : path) (area : string)
    (gs : list (string * list string)) (fs fs' : fsmap) :
  ensure_groups root area gs fs = Ok fs' ->
  forall g, In g gs -> group_made root area g fs'.
Proof.
  revert fs. induction gs as [|g0 gs IH]; intros fs H g Hg; [done|].
  bind_ok H f1 E1. destruct Hg as [<- | Hg]; [|by eapply IH].
  apply ensure_group_made in E1. apply ensure_groups_ok in H as [Hs _].
  by eapply group_made_mono.
Qed.

Lemma ensure_areas_made (root : path)
    (cats : list (string * list (string * list string))) (fs fs' : fsmap) :
  ensure_areas root cats fs = Ok fs' ->
  forall area gs g, In (area, gs) cats -> In g gs -> group_made root area g fs'.
Proof.
  revert fs. induction cats as [|[a0 gs0] cats IH]; intros fs H area gs g Ha Hg; [done|].
  bind_ok H f1 E1. destruct Ha as [[= <- <-] | Ha]; [|by eapply IH].
  apply ensure_areas_ok in H as [Hs _].
  eapply group_made_mono; [exact Hs|]. by eapply ensure_groups_made.
Qed.

(** X2.  When [ensure_tree] returns, every group of the taxonomy is a
    directory with a .gitkeep, every suggested topic of the group is a
    directory with a .gitkeep, and INDEX.md is there. *)
Theorem ensure_tree_complete (root : path) (fs fs' : fsmap)
    (area group : string) (gs : list (string * list string)) (ts : list string) :
  ensure_tree root fs = Ok fs' ->
  In (area, gs) CATEGORIES -> In (group, ts) gs ->
  is_dir fs' (root / area / group) = true /\
  exists_ fs' (root / area / group / ".gitkeep") = true /\
  (forall t, In t ts ->
     is_dir fs' (root / area / group / t) = true /\
     exists_ fs' (root / area / group / t / ".gitkeep") = true) /\
  exists_ fs' (root / "INDEX.md") = true.
Proof.
  intros H Ha Hg. unfold ensure_tree in H. bind_ok H f1 E1.
  apply touch_ok in H as (Hs & Hx & _).
  pose proof (ensure_areas_made _ _ _ _ E1 area gs (group, ts) Ha Hg) as Hm.
  apply (group_made_mono _ _ _ _ _ Hs) in Hm as (H1 & H2 & H3).
  cbn [fst snd] in H1, H2, H3. split; [exact H1|]. split; [exact H2|]. by split.
Qed.

Lemma ensure_tree_complete_witness :
  is_dir (state_of (ensure_tree ROOT ∅)) (ROOT / "ai" / "llms" / "evals") = true.
Proof.
  assert (He : returned (ensure_tree ROOT ∅) = true) by (vm_compute; exact eq_refl).
  assert (Ha : In ("ai", snd (List.nth 2 CATEGORIES ("", []))) CATEGORIES)
    by (cbn; tauto).
  assert (Hg : In ("llms", ["prompting"; "fine-tuning"; "evals"; "safety-redteaming"])
                 (snd (List.nth 2 CATEGORIES ("", [])))) by (cbn; tauto).
  assert (Ht : In "evals" ["prompting"; "fine-tuning"; "evals"; "safety-redteaming"])
    by (cbn; tauto).
  exact (proj1 (proj1 (proj2 (proj2
           (ensure_tree_complete ROOT ∅ (state_of (ensure_tree ROOT ∅)) "ai" "llms" _ _
              (returned_state _ He) Ha Hg))) "evals" Ht)).
Defined.

End ScaffoldSpec.

(** ** More on the topic materializer *)

Module TopicSpec.
Import Text TextFacts Py Fs FsFacts Knowledge MaterializerSpec ScaffoldSpec.
Local Open Scope path_scope.

Lemma main_ext (d : path) (lang : string) :
  d / ("main." +:+ ext_of lang) = d ++ ["main." +:+ ext_of lang].
Proof.
  unfold ext_of.
  repeat match goal with
         | |- context [if ?b then _ else _] => destruct b
         end; reflexivity.
Qed.

Lemma child_not_root (d : path) (x : string) :
  String.eqb x "/" = false -> String.eqb x "//" = false -> is_root (d ++ [x]) = false.
Proof.
  intros H1 H2. destruct d as [|a [|b d]]; simpl; [by rewrite H1, H2 | done | done].
Qed.

Lemma child_stat (fs : fsmap) (d : path) (x : string) :
  String.eqb x "/" = false -> String.eqb x "//" = false ->
  stat fs (d ++ [x]) = fs !! (d ++ [x]).
Proof. intros H1 H2. unfold stat. by rewrite child_not_root. Qed.

Lemma child_exists (fs fs' : fsmap) (p : path) :
  fs' !! p = fs !! p -> exists_ fs' p = exists_ fs p.
Proof. unfold exists_, stat. by intros ->. Qed.

Lemma sibling_ne (d : path) (x y : string) : x <> y -> d ++ [x] <> d ++ [y].
Proof. intros H E. apply app_inv_head in E. congruence. Qed.

Lemma add_topic_fun (root : path) (today area group topic lang : string) :
  add_topic root today area group topic lang =
  fun fs =>
    fs ← ensure_dest (dest_of root area group topic) fs;
    fs ← mkdir (dest_of root area group topic / "examples") fs;
    fs ← touch (dest_of root area group topic / ".gitkeep") fs;
    fs ← write_if_absent (dest_of root area group topic / "README.md")
           (readme_text topic (lower area) (lower group) today) fs;
    write_if_absent (dest_of root area group topic / "examples" / ("main." +:+ ext_of lang))
      (code_of lang) fs.
Proof. reflexivity. Qed.

(** Two calls that name the same directory and the same example file:
    after the first, the second changes nothing. *)
Lemma add_topic_settles (root : path) (today today' : string)
    (area group topic lang area' group' topic' lang' : string) :
  dest_of root area' group' topic' = dest_of root area group topic ->
  ext_of lang' = ext_of lang ->
  settles (add_topic root today area group topic lang)
          (add_topic root today' area' group' topic' lang').
Proof.
  intros Hd He. rewrite !add_topic_fun, Hd, He.
  apply (settles_bind (ensure_dest _) (ensure_dest _)); [apply ensure_dest_settles|].
  apply (settles_bind (mkdir _) (mkdir _)); [apply mkdir_settles|].
  apply (settles_bind (touch _) (touch _)); [apply touch_settles|].
  apply (settles_bind (write_if_absent _ _) (write_if_absent _ _));
    apply write_if_absent_settles.
Qed.

(** X3.  A topic whose area and group differ only in case, whose title has
    the same slug and whose language has the same extension as a topic
    added before is not added again: the call returns the tree unchanged,
    and the README keeps the first title. *)
Theorem add_topic_same_slug (root : path) (today today' : string)
    (area group topic lang area' group' topic' lang' : string) (fs fs1 : fsmap) :
  add_topic root today area group topic lang fs = Ok fs1 ->
  lower area' = lower area -> lower group' = lower group ->
  slug topic' = slug topic -> ext_of lang' = ext_of lang ->
  add_topic root today' area' group' topic' lang' fs1 = Ok fs1.
Proof.
  intros H Ha Hg Ht He.
  assert (Hd : dest_of root area' group' topic' = dest_of root area group topic)
    by (unfold dest_of; by rewrite Ha, Hg, Ht).
  destruct (add_topic_settles root today today' _ _ _ _ _ _ _ _ Hd He fs fs1 H)
    as [_ Hagain].
  by apply Hagain.
Qed.

Local Abbreviation hooks_call :=
  (add_topic ROOT "2025-06-01" "swe" "frontend" "React Hooks" "typescript" ∅).

Lemma add_topic_same_slug_witness :
  add_topic ROOT "2025-06-09" "SWE" "Frontend" "react_hooks!" "typescript"
    (state_of hooks_call)
  = Ok (state_of hooks_call).
Proof.
  assert (Hr : returned hooks_call = true) by (vm_compute; exact eq_refl).
  assert (Ha : lower "SWE" = lower "swe") by (vm_compute; exact eq_refl).
  assert (Hg : lower "Frontend" = lower "frontend") by (vm_compute; exact eq_refl).
  assert (Ht : slug "react_hooks!" = slug "React Hooks") by (vm_compute; exact eq_refl).
  exact (add_topic_same_slug ROOT "2025-06-01" "2025-06-09"
           "swe" "frontend" "React Hooks" "typescript"
           "SWE" "Frontend" "react_hooks!" "typescript"
           ∅ (state_of hooks_call) (returned_state hooks_call Hr) Ha Hg Ht eq_refl).
Defined.

(** X4.  The command line: when a command returns, every entry that
    existed is as it was, and the same command run again, on whatever day,
    returns the tree unchanged. *)
Theorem main_idempotent (today today' : string) (args : command) (fs fs' : fsmap) :
  main today args fs = Ok fs' ->
  (forall (p : path) (n : node), fs !! p = Some n -> fs' !! p = Some n) /\
  main today' args fs' = Ok fs'.
Proof.
  assert (Hs : settles (main today args) (main today' args)).
  { destruct args as [root|area group topic lang]; unfold main.
    - apply ensure_tree_settles.
    - destruct (existsb (String.eqb area) area_choices); [|by intros f f'].
      apply (settles_bind (ensure_tree ROOT) (ensure_tree ROOT));
        [apply ensure_tree_settles | by apply add_topic_settles]. }
  intros H. destruct (Hs fs fs' H) as [Hsub Hagain]. split.
  - intros p n Hp. by eapply lookup_weaken.
  - by apply Hagain.
Qed.

Local Abbreviation cli_call :=
  (main "2025-06-01" (Add "ai" "agents" "Tool use" "python") ∅).

Lemma main_idempotent_witness :
  main "2025-06-02" (Add "ai" "agents" "Tool use" "python") (state_of cli_call)
  = Ok (state_of cli_call).
Proof.
  assert (Hr : returned cli_call = true) by (vm_compute; exact eq_refl).
  exact (proj2 (main_idempotent "2025-06-01" "2025-06-02"
                  (Add "ai" "agents" "Tool use" "python") ∅ (state_of cli_call)
                  (returned_state cli_call Hr))).
Defined.

Lemma write_if_absent_ok (p : path) (text : string) (fs fs' : fsmap) :
  write_if_absent p text fs = Ok fs' ->
  fs ⊆ fs' /\ exists_ fs' p = true /\
  (exists_ fs p = false -> stat fs' p = Some (File text)).
Proof.
  unfold write_if_absent. destruct (exists_ fs p) eqn:E; simpl.
  - intros [= <-]. by repeat split.
  - intros H. apply (write_new_ok _ _ _ _ E) in H as (H1 & H2 & _).
    repeat split; [done | | done]. unfold exists_. by rewrite H2.
Qed.

(** No line break in the text. *)
Definition single_line (s : string) : bool :=
  forallb (fun c => negb (is_newline c)) (chars_of s).

(** No part of the path is [..], which the tree does not resolve. *)
Definition no_dotdot (p : path) : bool :=
  forallb (fun x => negb (String.eqb x "..")) p.

(** X5.  For an area, a group and a title in ASCII, each of one line as the
    day is, and a topic directory whose path has no [..] part: when
    [add_topic] returns, the topic directory, its examples directory, its
    .gitkeep, its README.md and its example file are there; a README that
    was missing holds the stub for this title, area, group and day, and an
    example file that was missing holds the snippet of the language. *)
Theorem add_topic_makes (root : path) (today area group topic lang : string)
    (fs fs' : fsmap) :
  add_topic root today area group topic lang fs = Ok fs' ->
  let dest := dest_of root area group topic in
  let readme := dest / "README.md" in
  let ex := dest / "examples" / ("main." +:+ ext_of lang) in
  no_dotdot dest = true ->
  ascii_only area = true -> ascii_only group = true -> ascii_only topic = true ->
  single_line area = true -> single_line group = true -> single_line topic = true ->
  single_line today = true ->
  exists_ fs' dest = true /\
  is_dir fs' (dest / "examples") = true /\
  exists_ fs' (dest / ".gitkeep") = true /\
  exists_ fs' readme = true /\
  exists_ fs' ex = true /\
  (exists_ fs readme = false ->
   stat fs' readme = Some (File (readme_text topic (lower area) (lower group) today))) /\
  (exists_ fs ex = false -> stat fs' ex = Some (File (code_of lang))).
Proof.
  intros H dest. cbv zeta. intros _ _ _ _ _ _ _ _.
  pose proof (add_topic_dest _ _ _ _ _ _ _ _ H) as [_ Hdest]. fold dest in Hdest.
  rewrite add_topic_steps in H. cbv zeta in H. fold dest in H.
  change (dest / "examples") with (dest ++ ["examples"]) in *.
  change (dest / ".gitkeep") with (dest ++ [".gitkeep"]) in *.
  change (dest / "README.md") with (dest ++ ["README.md"]) in *.
  rewrite main_ext in H. rewrite main_ext.
  set (e := "main." +:+ ext_of lang) in *.
  bind_ok H f1 E1. bind_ok H f2 E2. bind_ok H f3 E3. bind_ok H f4 E4.
  pose proof (mkdir_ok _ _ _ E2) as (H2 & Hd2 & _).
  pose proof (touch_ok _ _ _ E3) as (H3 & Hx3 & _).
  pose proof (write_if_absent_ok _ _ _ _ E4) as (H4 & Hx4 & Hr).
  pose proof (write_if_absent_ok _ _ _ _ H) as (H5 & Hx5 & He).
  assert (H35 : f3 ⊆ fs') by (by etrans).
  assert (H25 : f2 ⊆ fs') by (by etrans).
  split; [done|]. split; [by apply (is_dir_mono f2)|].
  split; [by apply (exists_mono f3)|]. split; [by apply (exists_mono f4)|].
  split; [done|]. split.
  - intros Habs. apply (stat_mono f4); [done|]. apply Hr.
    etrans; [|exact Habs]. apply child_exists.
    rewrite (touch_frame _ _ _ (dest ++ ["README.md"]) E3) by (by apply sibling_ne).
    rewrite (mkdir_frame _ _ _ (dest ++ ["README.md"]) E2) by (by apply sibling_ne).
    apply (ensure_dest_frame _ _ _ _ E1). rewrite length_app. simpl. lia.
  - intros Habs. apply He. etrans; [|exact Habs]. apply child_exists.
    assert (Hlen : forall x, length (dest ++ [x]) < length ((dest ++ ["examples"]) ++ [e]))
      by (intros x; rewrite !length_app; simpl; lia).
    assert (Hne : forall x, dest ++ [x] <> (dest ++ ["examples"]) ++ [e])
      by (intros x Hx; apply (f_equal length) in Hx; specialize (Hlen x); lia).
    rewrite (write_if_absent_frame _ _ _ _ _ E4) by apply Hne.
    rewrite (touch_frame _ _ _ _ E3) by apply Hne.
    rewrite (mkdir_frame _ _ _ _ E2) by apply Hne.
    apply (ensure_dest_frame _ _ _ _ E1). rewrite !length_app. simpl. lia.
Qed.

Local Abbreviation bash_call :=
  (add_topic ROOT "2025-06-01" "swe" "devops" "Docker networking" "bash" ∅).

Lemma add_topic_makes_witness :
  stat (state_of bash_call)
    (dest_of ROOT "swe" "devops" "Docker networking" / "examples" / ("main." +:+ ext_of "bash"))
  = Some (File (code_of "bash")).
Proof.
  assert (Hr : returned bash_call = true) by (vm_compute; exact eq_refl).
  assert (Hx : exists_ ∅ (dest_of ROOT "swe" "devops" "Docker networking" / "examples"
                           / ("main." +:+ ext_of "bash")) = false)
    by (vm_compute; exact eq_refl).
  refine (proj2 (proj2 (proj2 (proj2 (proj2 (proj2
           (add_topic_makes ROOT "2025-06-01" "swe" "devops" "Docker networking" "bash"
              ∅ (state_of bash_call) (returned_state bash_call Hr)
              _ _ _ _ _ _ _ _)))))) Hx); vm_compute; reflexivity.
Defined.

(** X6.  When the topic directory is there as a plain file, [add_topic]
    raises NotADirectoryError at the examples directory. *)
Theorem add_topic_over_file (root : path) (today area group topic lang content : string)
    (fs : fsmap) :
  let dest := dest_of root area group topic in
  stat fs dest = Some (File content) ->
  is_dir fs (dest / "examples") = false ->
  add_topic root today area group topic lang fs = Raise NotADirectoryError.
Proof.
  intros dest Hf Hd. rewrite add_topic_steps. cbv zeta. fold dest.
  change (dest / "examples") with (dest ++ ["examples"]) in *.
  unfold ensure_dest, exists_. rewrite Hf. simpl. unfold mbind, result_bind.
  unfold mkdir, os_mkdir, parent.
  rewrite child_not_root by done. rewrite removelast_last, Hf. by rewrite Hd.
Qed.

Definition notes_is_a_file : fsmap :=
  <[ ["knowledge"; "swe"; "misc"; "notes"] := File "scratch" ]>
  (<[ ["knowledge"; "swe"; "misc"] := Dir ]>
  (<[ ["knowledge"; "swe"] := Dir ]>
  (<[ ["knowledge"] := Dir ]> ∅))).

Lemma add_topic_over_file_witness :
  add_topic ROOT "2025-06-01" "swe" "misc" "Notes" "python" notes_is_a_file
  = Raise NotADirectoryError.
Proof.
  apply (add_topic_over_file ROOT "2025-06-01" "swe" "misc" "Notes" "python" "scratch");
    vm_compute; exact eq_refl.
Defined.

Lemma alnum_not_slash (c : ascii) : is_alnum c = true -> is_slash c = false.
Proof. destruct c as [[] [] [] [] [] [] [] []]; vm_compute; intros; congruence. Qed.

Lemma alnum_not_dot (c : ascii) : is_alnum c = true -> Ascii.eqb c "." = false.
Proof. destruct c as [[] [] [] [] [] [] [] []]; vm_compute; intros; congruence. Qed.

Lemma shape_no_slash (l : chars) :
  SlugSpec.slug_shape l -> Forall (fun c => is_slash c = false) l.
Proof.
  induction 1 as [c Hc|c t Hc Ht IH|c t Hc Ht IH].
  - repeat constructor. by apply alnum_not_slash.
  - constructor; [by apply alnum_not_slash | done].
  - constructor; [by apply alnum_not_slash|]. by constructor.
Qed.

Lemma split_no_slash (cur l : chars) :
  Forall (fun c => is_slash c = false) l -> split_l is_slash cur l = [rev cur ++ l].
Proof.
  revert cur. induction l as [|c t IH]; intros cur Hl; simpl.
  - by rewrite app_nil_r.
  - inversion Hl as [|? ? Hc Ht]; subst. rewrite Hc, IH by done.
    simpl. by rewrite <- app_assoc.
Qed.

(** A slug is one path part. *)
Lemma slug_one_part (p : path) (l : chars) :
  SlugSpec.slug_shape l -> p / str_of l = p ++ [str_of l].
Proof.
  intros Hl. pose proof (shape_no_slash l Hl) as Hs.
  destruct (SlugSpec.shape_head l Hl) as (c & t & -> & Hc).
  unfold join_path, seg_root, seg_parts. rewrite chars_of_str_of.
  rewrite (split_no_slash [] _ Hs). cbn [rev app map List.filter].
  assert (Hsl : is_slash c = false) by (by apply alnum_not_slash).
  assert (Hroot : match c :: t with
                  | a :: b :: c0 :: _ =>
                      if is_slash a
                      then if is_slash b && negb (is_slash c0) then Some "//" else Some "/"
                      else None
                  | [a; b] =>
                      if is_slash a then if is_slash b then Some "//" else Some "/" else None
                  | [a] => if is_slash a then Some "/" else None
                  | [] => None
                  end = @None string).
  { destruct t as [|b [|c0 t']]; by rewrite Hsl. }
  rewrite Hroot. f_equal.
  change (str_of (c :: t)) with (String c (str_of t)).
  cbn [String.eqb]. by rewrite (alnum_not_dot c Hc).
Qed.

(** X7.  The topic directory is the group directory itself when the title
    has an empty slug, and otherwise the entry of the group directory named
    by the slug: no title leads out of the group directory. *)
Theorem dest_of_shape (root : path) (area group topic : string) :
  dest_of root area group topic =
  (root / lower area / lower group) ++
  (if String.eqb (slug topic) "" then [] else [slug topic]).
Proof.
  unfold dest_of, slug.
  destruct (SlugSpec.slug_l_shape (chars_of topic)) as [-> | Hs].
  - simpl. reflexivity.
  - rewrite (slug_one_part _ _ Hs).
    destruct (SlugSpec.shape_head _ Hs) as (c & t & -> & _). reflexivity.
Qed.

End TopicSpec.

(** ** A run of the study orchestrator *)

Module RunSpec.
Import Text Re Py StudyAgent OrchestratorSpec.

(** The command line of the child that materializes a topic. *)
Definition child_args (t : string) : list string :=
  let '(area, group, lang) := route t in
  ["python"; "scripts/knowledge.py"; "add"; area; group; t; "--lang"; lang].

(** The date argument as [main] reads it from [sys.argv]. *)
Definition date_arg (args : list string) : option string :=
  match args with
  | flag :: d :: _ => if String.eqb flag "--date" then Some d else None
  | _ => None
  end.

Lemma add_topics_step (w : world) (n : nat) (t : string) (ts : list string) :
  add_topics w n (t :: ts) =
  (_ ← run_checked (spawn w n (child_args t)); add_topics w (S n) ts).
Proof.
  unfold child_args. cbn [add_topics]. unfold add_topic.
  by destruct (route t) as [[a g] l].
Qed.

Lemma add_topics_all_ok (w : world) (n : nat) (ts : list string) :
  (forall i t, ts !! i = Some t -> spawn w (n + i) (child_args t) = Returned 0) ->
  add_topics w n ts = Ok (n + length ts).
Proof.
  revert n. induction ts as [|t ts IH]; intros n H.
  - simpl. f_equal. lia.
  - rewrite add_topics_step.
    pose proof (H 0 t eq_refl) as H0. rewrite Nat.add_0_r in H0. rewrite H0. simpl.
    rewrite IH; [f_equal; simpl; lia|].
    intros i t' Hi. replace (S n + i) with (n + S i) by lia. by apply H.
Qed.

Lemma add_topics_first_failure (w : world) (n : nat) (ts1 ts2 : list string)
    (t : string) (rc : Z) :
  (forall i t', ts1 !! i = Some t' -> spawn w (n + i) (child_args t') = Returned 0) ->
  spawn w (n + length ts1) (child_args t) = Returned rc ->
  rc <> 0%Z ->
  add_topics w n (ts1 ++ t :: ts2) = Raise (CalledProcessError rc).
Proof.
  revert n. induction ts1 as [|t1 ts1 IH]; intros n H Ht Hrc.
  - simpl app. rewrite add_topics_step. simpl in Ht. rewrite Nat.add_0_r in Ht.
    rewrite Ht. simpl. by destruct (Z.eqb_spec rc 0).
  - simpl app. rewrite add_topics_step.
    pose proof (H 0 t1 eq_refl) as H0. rewrite Nat.add_0_r in H0. rewrite H0. simpl.
    apply IH; [|by replace (S n + length ts1) with (n + length (t1 :: ts1)) by (simpl; lia)|done].
    intros i t' Hi. replace (S n + i) with (n + S i) by lia. by apply H.
Qed.

(** X8.  The loop of [main] over the topics: when the children of the
    topics before [t] end with status 0 and the child of [t] ends with
    another status, CalledProcessError with that status leaves the loop,
    whatever the children of the topics after [t] would do.  And a run whose
    journal gives the one topic [t] then ends with that error uncaught:
    nothing is printed and the commit is not reached. *)
Theorem child_failure_is_fatal (w : world) (rc : Z) :
  rc <> 0%Z ->
  (forall (n : nat) (ts1 ts2 : list string) (t : string),
     (forall i t', ts1 !! i = Some t' -> spawn w (n + i) (child_args t') = Returned 0) ->
     spawn w (n + length ts1) (child_args t) = Returned rc ->
     add_topics w n (ts1 ++ t :: ts2) = Raise (CalledProcessError rc)) /\
  (forall (prog md_path text t : string) (args : list string),
     read_text w md_path = Ok text ->
     topics (parse_yearly_journal (today w) text (date_arg args)) = [t] ->
     spawn w 0 (child_args t) = Returned rc ->
     main (prog :: md_path :: args) w = Run [] (Uncaught (CalledProcessError rc))).
Proof.
  intros Hrc. split.
  - intros n ts1 ts2 t H0 Hc. by apply add_topics_first_failure.
  - intros prog md_path text t args Hr Ht Hc.
    assert (Hf : add_topics w 0 [t] = Raise (CalledProcessError rc))
      by (by apply (add_topics_first_failure w 0 [] [] t rc)).
    unfold main. rewrite Hr. fold (date_arg args). rewrite Ht.
    cbv iota beta. by rewrite Hf.
Qed.

(** A world in which the materializer fails with status 2. *)
Definition world_add_fails : world :=
  {| read_text := fun _ => Ok JournalSpec.sample_doc;
     today := "2025-06-01";
     spawn := fun _ args =>
       match args with
       | cmd :: _ => if String.eqb cmd "python" then Returned 2 else Returned 0
       | [] => Returned 0
       end |}.

(** A world in which the second child fails with status 2. *)
Definition world_second_fails : world :=
  {| read_text := fun _ => Ok JournalSpec.sample_doc;
     today := "2025-06-01";
     spawn := fun n _ => if (n =? 1)%nat then Returned 2 else Returned 0 |}.

Lemma child_failure_is_fatal_witness :
  add_topics world_second_fails 0 ["rust basics"; "docker networking"; "java streams"]
  = Raise (CalledProcessError 2) /\
  main ["study_agent.py"; "journal/2025.md"] world_add_fails
  = Run [] (Uncaught (CalledProcessError 2)).
Proof.
  split.
  - refine (proj1 (child_failure_is_fatal world_second_fails 2 _) 0
              ["rust basics"] ["java streams"] "docker networking" _ _).
    + discriminate.
    + intros i t' Hi. destruct i as [|i]; [reflexivity | destruct i; discriminate Hi].
    + reflexivity.
  - refine (proj2 (child_failure_is_fatal world_add_fails 2 _) "study_agent.py"
              "journal/2025.md" JournalSpec.sample_doc "rust basics" [] _ _ _).
    + discriminate.
    + reflexivity.
    + vm_compute. reflexivity.
    + vm_compute. reflexivity.
Defined.

(** X9.  When the journal has topics for the day and every child ends with
    status 0, one child is started for each topic, then the two of the
    commit, and the run ends by printing that the changes are committed. *)
Theorem all_children_succeed (w : world) (prog md_path text : string)
    (args : list string) :
  read_text w md_path = Ok text ->
  topics (parse_yearly_journal (today w) text (date_arg args)) <> [] ->
  (forall n cmd, spawn w n cmd = Returned 0) ->
  add_topics w 0 (topics (parse_yearly_journal (today w) text (date_arg args)))
  = Ok (length (topics (parse_yearly_journal (today w) text (date_arg args)))) /\
  main (prog :: md_path :: args) w = Run [committed] Finished.
Proof.
  intros Hr Ht H0.
  assert (Ha : add_topics w 0 (topics (parse_yearly_journal (today w) text (date_arg args)))
               = Ok (length (topics (parse_yearly_journal (today w) text (date_arg args))))).
  { rewrite add_topics_all_ok; [done|]. intros i t _. apply H0. }
  split; [exact Ha|].
  unfold main. rewrite Hr. fold (date_arg args).
  destruct (topics _) as [|t ts] eqn:E; [done|].
  rewrite Ha. unfold commit. rewrite !H0. reflexivity.
Qed.

Definition world_all_fine : world :=
  {| read_text := fun _ => Ok JournalSpec.sample_doc;
     today := "2025-06-01";
     spawn := fun _ _ => Returned 0 |}.

Lemma all_children_succeed_witness :
  main ["study_agent.py"; "journal/2025.md"] world_all_fine = Run [committed] Finished.
Proof.
  apply (proj2 (all_children_succeed world_all_fine "study_agent.py" "journal/2025.md"
                  JournalSpec.sample_doc [] eq_refl
                  ltac:(vm_compute; discriminate) ltac:(intros; reflexivity))).
Defined.

(** X10.  When the journal has no section for the day, the run prints
    that no topics were found for that day and exits with status 0, whatever
    the child processes would do. *)
Theorem no_section_exits_zero (w : world) (prog md_path text d : string)
    (rest_args : list string) :
  read_text w md_path = Ok text ->
  d <> "" ->
  (forall m, In m (finditer sec_flags sec_re text) -> group 1 m <> d) ->
  main (prog :: md_path :: "--date" :: d :: rest_args) w
  = Run [no_topics d] (SysExit 0).
Proof.
  intros Hr Hd Hm. unfold main. rewrite Hr. cbn [String.eqb Ascii.eqb Bool.eqb].
  unfold parse_yearly_journal.
  rewrite (SectionSpec.truthy_nonempty _ Hd), (SectionSpec.first_section_none _ _ Hm).
  reflexivity.
Qed.

Lemma no_section_exits_zero_witness :
  main ["study_agent.py"; "journal/2025.md"; "--date"; "2099-01-01"] world_add_fails
  = Run [no_topics "2099-01-01"] (SysExit 0).
Proof.
  apply (no_section_exits_zero world_add_fails "study_agent.py" "journal/2025.md"
           JournalSpec.sample_doc "2099-01-01" []); [reflexivity | discriminate |].
  intros m Hin. vm_compute in Hin. destruct Hin as [<- | []]. vm_compute. discriminate.
Defined.

End RunSpec.

(** ** What a pattern reads, and what it captures *)

Module LangFacts.
Import Text TextFacts Re ReFacts.

(** Zero or more, and exactly [n], pieces that satisfy [P]. *)
Inductive star_of (P : chars -> Prop) : chars -> Prop :=
| star_nil : star_of P []
| star_more (m1 m2 : chars) : P m1 -> star_of P m2 -> star_of P (m1 ++ m2).

Fixpoint rep_of (n : nat) (P : chars -> Prop) (m : chars) : Prop :=
  match n with
  | O => m = []
  | S n' => exists m1 m2, m = m1 ++ m2 /\ P m1 /\ rep_of n' P m2
  end.

(** The texts a pattern can read; an anchor and a look-ahead read nothing. *)
Fixpoint lang (f : flags) (r : regex) (m : chars) : Prop :=
  match r with
  | Eps | Bol | Eol | NegLook _ => m = []
  | Lit c => exists x, m = [x] /\ lit_eq f c x = true
  | Cls p => exists x, m = [x] /\ p x = true
  | Dot => exists x, m = [x] /\ (DOTALL f || negb (is_newline x)) = true
  | Cat a b => exists m1 m2, m = m1 ++ m2 /\ lang f a m1 /\ lang f b m2
  | Star a | LazyStar a => star_of (lang f a) m
  | Rep n a => rep_of n (lang f a) m
  | Grp _ a => lang f a m
  end.

Definition reads (P : chars -> Prop)
    (body : mstate -> (mstate -> option mstate) -> option mstate) : Prop :=
  forall s k e, body s k = Some e ->
    exists mid s', steps s mid s' /\ P mid /\ k s' = Some e.

Lemma eat_reads (p : ascii -> bool) :
  reads (fun m => exists x, m = [x] /\ p x = true) (eat p).
Proof.
  intros [po pr l c] k e. unfold eat. simpl.
  destruct l as [|x t]; [done|]. destruct (p x) eqn:Hx; [|done]. intros H.
  exists [x], (MState (S po) (Some x) t c). split; [|split; [by exists x | done]].
  unfold steps. simpl. repeat split. lia.
Qed.

Lemma star_loop_reads (P : chars -> Prop)
    (body : mstate -> (mstate -> option mstate) -> option mstate) (n : nat) :
  reads P body -> reads (star_of P) (fun s k => star_loop body k n s).
Proof.
  intros Hb. induction n as [|n IH]; intros s k e; simpl.
  - intros H. exists [], s. split; [apply steps_refl|]. split; [constructor | done].
  - destruct (body s _) as [e'|] eqn:E.
    + intros [= ->]. apply Hb in E as (m1 & s1 & H1 & Hp1 & E).
      destruct (pos s <? pos s1)%nat; [|done].
      apply IH in E as (m2 & s2 & H2 & Hp2 & E).
      exists (m1 ++ m2), s2. split; [by eapply steps_trans|].
      split; [by constructor | done].
    + intros H. exists [], s. split; [apply steps_refl|]. split; [constructor | done].
Qed.

Lemma lazy_loop_reads (P : chars -> Prop)
    (body : mstate -> (mstate -> option mstate) -> option mstate) (n : nat) :
  reads P body -> reads (star_of P) (fun s k => lazy_loop body k n s).
Proof.
  intros Hb. induction n as [|n IH]; intros s k e; simpl.
  - intros H. exists [], s. split; [apply steps_refl|]. split; [constructor | done].
  - destruct (k s) as [e'|] eqn:Ek.
    + intros [= ->]. exists [], s. split; [apply steps_refl|]. split; [constructor | done].
    + intros E. apply Hb in E as (m1 & s1 & H1 & Hp1 & E).
      destruct (pos s <? pos s1)%nat; [|done].
      apply IH in E as (m2 & s2 & H2 & Hp2 & E).
      exists (m1 ++ m2), s2. split; [by eapply steps_trans|].
      split; [by constructor | done].
Qed.

Lemma times_loop_reads (P : chars -> Prop)
    (body : mstate -> (mstate -> option mstate) -> option mstate) (n : nat) :
  reads P body -> reads (rep_of n P) (fun s k => times_loop body k n s).
Proof.
  intros Hb. induction n as [|n IH]; intros s k e; simpl.
  - intros H. exists [], s. split; [apply steps_refl | done].
  - intros E. apply Hb in E as (m1 & s1 & H1 & Hp1 & E).
    apply IH in E as (m2 & s2 & H2 & Hp2 & E).
    exists (m1 ++ m2), s2. split; [by eapply steps_trans|].
    split; [by exists m1, m2 | done].
Qed.

(** What a match has read is a text of the pattern. *)
Lemma rmatch_lang (f : flags) (r : regex) : reads (lang f r) (rmatch f r).
Proof.
  induction r as [|c|p| | | |r1 IH1 r2 IH2|r IH|r IH|n r IH|n r IH|r IH];
    intros s k e; cbn [rmatch lang].
  - intros H. exists [], s. split; [apply steps_refl | done].
  - apply eat_reads.
  - apply eat_reads.
  - apply eat_reads.
  - destruct (at_bol f s); [|done]. intros H. exists [], s. split; [apply steps_refl | done].
  - destruct (at_eol f s); [|done]. intros H. exists [], s. split; [apply steps_refl | done].
  - intros E. apply IH1 in E as (m1 & s1 & H1 & Hp1 & E).
    apply IH2 in E as (m2 & s2 & H2 & Hp2 & E).
    exists (m1 ++ m2), s2. split; [by eapply steps_trans|].
    split; [by exists m1, m2 | done].
  - by apply (star_loop_reads _ _ _ IH).
  - by apply (lazy_loop_reads _ _ _ IH).
  - by apply (times_loop_reads _ _ _ IH).
  - intros E. apply IH in E as (m1 & s1 & H1 & Hp1 & E).
    exists m1, (set_cap n s s1). split; [exact H1 | done].
  - destruct (rmatch f r s Some); [done|]. intros H.
    exists [], s. split; [apply steps_refl | done].
Qed.

(** A pattern without groups leaves the groups as they are. *)
Fixpoint groupless (r : regex) : bool :=
  match r with
  | Grp _ _ => false
  | Cat a b => groupless a && groupless b
  | Star a | LazyStar a | Rep _ a => groupless a
  | _ => true
  end.

Definition keeps (body : mstate -> (mstate -> option mstate) -> option mstate) : Prop :=
  forall s k e, body s k = Some e -> exists s', caps s' = caps s /\ k s' = Some e.

Lemma eat_keeps (p : ascii -> bool) : keeps (eat p).
Proof.
  intros [po pr l c] k e. unfold eat. simpl.
  destruct l as [|x t]; [done|]. destruct (p x); [|done]. intros H.
  by exists (MState (S po) (Some x) t c).
Qed.

Lemma star_loop_keeps (body : mstate -> (mstate -> option mstate) -> option mstate)
    (n : nat) :
  keeps body -> keeps (fun s k => star_loop body k n s).
Proof.
  intros Hb. induction n as [|n IH]; intros s k e; simpl.
  - intros H. by exists s.
  - destruct (body s _) as [e'|] eqn:E.
    + intros [= ->]. apply Hb in E as (s1 & H1 & E).
      destruct (pos s <? pos s1)%nat; [|done].
      apply IH in E as (s2 & H2 & E). exists s2. split; [congruence | done].
    + intros H. by exists s.
Qed.

Lemma lazy_loop_keeps (body : mstate -> (mstate -> option mstate) -> option mstate)
    (n : nat) :
  keeps body -> keeps (fun s k => lazy_loop body k n s).
Proof.
  intros Hb. induction n as [|n IH]; intros s k e; simpl.
  - intros H. by exists s.
  - destruct (k s) as [e'|] eqn:Ek.
    + intros [= ->]. by exists s.
    + intros E. apply Hb in E as (s1 & H1 & E).
      destruct (pos s <? pos s1)%nat; [|done].
      apply IH in E as (s2 & H2 & E). exists s2. split; [congruence | done].
Qed.

Lemma times_loop_keeps (body : mstate -> (mstate -> option mstate) -> option mstate)
    (n : nat) :
  keeps body -> keeps (fun s k => times_loop body k n s).
Proof.
  intros Hb. induction n as [|n IH]; intros s k e; simpl.
  - intros H. by exists s.
  - intros E. apply Hb in E as (s1 & H1 & E).
    apply IH in E as (s2 & H2 & E). exists s2. split; [congruence | done].
Qed.

Lemma rmatch_keeps (f : flags) (r : regex) : groupless r = true -> keeps (rmatch f r).
Proof.
  induction r as [|c|p| | | |r1 IH1 r2 IH2|r IH|r IH|n r IH|n r IH|r IH];
    intros Hg s k e; cbn [rmatch]; cbn [groupless] in Hg.
  - intros H. by exists s.
  - apply eat_keeps.
  - apply eat_keeps.
  - apply eat_keeps.
  - destruct (at_bol f s); [|done]. intros H. by exists s.
  - destruct (at_eol f s); [|done]. intros H. by exists s.
  - apply andb_true_iff in Hg as [Ha Hb]. intros E.
    apply (IH1 Ha) in E as (s1 & H1 & E). apply (IH2 Hb) in E as (s2 & H2 & E).
    exists s2. split; [congruence | done].
  - by apply (star_loop_keeps _ _ (IH Hg)).
  - by apply (lazy_loop_keeps _ _ (IH Hg)).
  - by apply (times_loop_keeps _ _ (IH Hg)).
  - done.
  - destruct (rmatch f r s Some); [done|]. intros H. by exists s.
Qed.

(** A group captures what the pattern inside it has read. *)
Lemma group_captures (f : flags) (n : nat) (r : regex) (s e : mstate)
    (k : mstate -> option mstate) :
  rmatch f (Grp n r) s k = Some e ->
  exists mid s',
    steps s mid s' /\ lang f r mid /\
    k (MState (pos s') (prev s') (rest s') ((n, mid) :: caps s')) = Some e.
Proof.
  cbn [rmatch]. intros E. apply rmatch_lang in E as (mid & s' & Hs & Hl & E).
  exists mid, s'. split; [done|]. split; [done|].
  unfold set_cap in E. destruct Hs as (H1 & H2 & _).
  replace (take (pos s' - pos s) (rest s)) with mid in E; [done|].
  rewrite H2, H1. replace (pos s + length mid - pos s) with (length mid) by lia.
  by rewrite take_app_length.
Qed.

End LangFacts.

(** ** The entries and the dates the parser returns *)

Module EntrySpec.
Import Text TextFacts Re ReFacts LangFacts StudyAgent SectionSpec ListSpec.
Local Open Scope regex_scope.

Lemma cat_eq (f : flags) (a b : regex) (s : mstate) (k : mstate -> option mstate) :
  rmatch f (a ⋅ b) s k = rmatch f a s (fun s' => rmatch f b s' k).
Proof. reflexivity. Qed.

(** *** Stripping *)

Lemma lstrip_head (p : ascii -> bool) (l : chars) :
  match lstrip_l p l with
  | [] => True
  | c :: _ => p c = false
  end.
Proof.
  induction l as [|c t IH]; [done|]. simpl. by destruct (p c) eqn:E.
Qed.

Lemma rstrip_rec_cons (p : ascii -> bool) (c : ascii) (t : chars) :
  SlugSpec.rstrip_rec p (c :: t) =
  match SlugSpec.rstrip_rec p t with
  | [] => if p c then [] else [c]
  | y => c :: y
  end.
Proof. reflexivity. Qed.

Lemma rstrip_rec_idem (p : ascii -> bool) (l : chars) :
  SlugSpec.rstrip_rec p (SlugSpec.rstrip_rec p l) = SlugSpec.rstrip_rec p l.
Proof.
  induction l as [|c t IH]; [done|]. rewrite rstrip_rec_cons.
  destruct (SlugSpec.rstrip_rec p t) as [|y ys] eqn:E.
  - destruct (p c) eqn:Ec; [done|]. simpl. by rewrite Ec.
  - by rewrite rstrip_rec_cons, IH.
Qed.

Lemma rstrip_rec_head (p : ascii -> bool) (c : ascii) (t : chars) :
  p c = false -> exists y, SlugSpec.rstrip_rec p (c :: t) = c :: y.
Proof.
  intros Hc. cbn [SlugSpec.rstrip_rec].
  destruct (SlugSpec.rstrip_rec p t); [rewrite Hc|]; eauto.
Qed.

Lemma strip_l_idem (p : ascii -> bool) (l : chars) :
  strip_l p (strip_l p l) = strip_l p l.
Proof.
  unfold strip_l. rewrite !SlugSpec.rstrip_l_rec.
  pose proof (lstrip_head p l) as Hh.
  destruct (lstrip_l p l) as [|c t]; [done|].
  destruct (rstrip_rec_head p c t Hh) as [y Hy]. rewrite Hy.
  cbn [lstrip_l]. rewrite Hh, <- Hy. apply rstrip_rec_idem.
Qed.

Lemma lstrip_forall (Q : ascii -> Prop) (p : ascii -> bool) (l : chars) :
  Forall Q l -> Forall Q (lstrip_l p l).
Proof.
  induction 1 as [|c t Hc Ht IH]; [constructor|]. simpl.
  destruct (p c); [done | by constructor].
Qed.

Lemma rstrip_forall (Q : ascii -> Prop) (p : ascii -> bool) (l : chars) :
  Forall Q l -> Forall Q (SlugSpec.rstrip_rec p l).
Proof.
  induction 1 as [|c t Hc Ht IH]; [constructor|]. cbn [SlugSpec.rstrip_rec].
  destruct (SlugSpec.rstrip_rec p t).
  - destruct (p c); by repeat constructor.
  - by constructor.
Qed.

Lemma strip_forall (Q : ascii -> Prop) (p : ascii -> bool) (l : chars) :
  Forall Q l -> Forall Q (strip_l p l).
Proof.
  intros H. unfold strip_l. rewrite SlugSpec.rstrip_l_rec.
  by apply rstrip_forall, lstrip_forall.
Qed.

(** *** What a bullet captures *)

Lemma star_dot_one_line (f : flags) (m : chars) :
  DOTALL f = false -> star_of (lang f Dot) m -> one_line m.
Proof.
  intros Hf. induction 1 as [|m1 m2 (x & -> & Hx) Hs IH]; [constructor|].
  rewrite Hf in Hx. simpl in Hx. apply negb_true_iff in Hx. by constructor.
Qed.

Lemma bullet_capture (s e : mstate) :
  rmatch bullet_flags bullet_re s Some = Some e ->
  exists mid, assoc 1 (caps e) = Some mid /\ one_line mid.
Proof.
  unfold bullet_re. intros E.
  apply cat_sound in E as (m1 & s1 & _ & E). apply cat_sound in E as (m2 & s2 & _ & E).
  apply cat_sound in E as (m3 & s3 & _ & E). apply cat_sound in E as (m4 & s4 & _ & E).
  rewrite cat_eq in E.
  apply group_captures in E as (mid & s' & _ & Hl & E).
  apply rmatch_keeps in E as (s5 & Hc & [= <-]); [|done].
  exists mid. split; [by rewrite Hc|].
  destruct Hl as (a & b & -> & (x & -> & Hx) & Hb).
  simpl in Hx. apply negb_true_iff in Hx.
  constructor; [done|]. by apply (star_dot_one_line bullet_flags).
Qed.

(** X11.  Every topic and every note that the parser returns is not
    empty, has no blank at either end, and has no line break in it. *)
Theorem entries_are_trimmed (today doc : string) (target : option string) (x : string) :
  In x (topics (parse_yearly_journal today doc target)) \/
  In x (notes (parse_yearly_journal today doc target)) ->
  x <> "" /\ strip x = x /\ one_line (chars_of x).
Proof.
  assert (Hl : forall section heading, In x (parse_list section heading) ->
                 x <> "" /\ strip x = x /\ one_line (chars_of x)).
  { intros section heading. unfold parse_list.
    destruct (search _ _ _) as [mm|]; [|done].
    intros Hin. apply filter_In in Hin as [Hin Ht].
    apply in_map_iff in Hin as (b & <- & Hb).
    unfold findall1 in Hb. apply in_map_iff in Hb as (m & <- & Hm).
    unfold finditer in Hm.
    apply finditer_from_origin in Hm as (before & s' & e & _ & E & ->).
    apply bullet_capture in E as (mid & Hc & Hmid).
    set (m := MatchObj _ _ _ _) in *.
    assert (Hg : group 1 m = str_of mid)
      by (unfold group, m; cbn [m_caps]; by rewrite Hc).
    rewrite Hg in *. clear Hg m.
    unfold strip in *. rewrite !chars_of_str_of in *.
    split; [|split].
    - intros Hx. by rewrite Hx in Ht.
    - by rewrite strip_l_idem.
    - by apply strip_forall. }
  unfold parse_yearly_journal.
  destruct (first_section _ _) as [section|]; [|by intros [[] | []]].
  destruct (truthy section); [|by intros [[] | []]].
  cbn [topics notes]. intros [H | H]; by eapply Hl.
Qed.

Lemma entries_are_trimmed_witness :
  strip "rust basics" = "rust basics".
Proof.
  refine (proj1 (proj2 (entries_are_trimmed "2025-06-01" JournalSpec.sample_doc
                          (Some "2025-06-01") "rust basics" _))).
  left. vm_compute. by left.
Defined.

(** *** The date of a heading *)

Lemma lit_hyphen_any (f : flags) (y : ascii) :
  lit_eq f "-" y = true -> is_hyphen y = true.
Proof.
  unfold lit_eq. destruct (IGNORECASE f);
    destruct y as [[] [] [] [] [] [] [] []]; vm_compute; intros; congruence.
Qed.

Lemma lang_ymd (f : flags) (m : chars) : lang f YMD m -> is_ymd m = true.
Proof.
  unfold YMD, digit. cbn [lang rep_of]. intros H.
  repeat match goal with
         | H : exists _, _ |- _ => destruct H
         | H : _ /\ _ |- _ => destruct H
         end.
  subst. cbn [app is_ymd].
  repeat match goal with
         | H : lit_eq _ _ _ = true |- _ => apply lit_hyphen_any in H
         end.
  repeat match goal with
         | H : _ = true |- _ => rewrite H; clear H
         end.
  reflexivity.
Qed.

Lemma grp_eq (f : flags) (n : nat) (r : regex) (s : mstate) (k : mstate -> option mstate) :
  rmatch f (Grp n r) s k = rmatch f r s (fun s' => k (set_cap n s s')).
Proof. reflexivity. Qed.

(** Group 1 of a match of [sec_re] is such a date. *)
Lemma sec_re_date (s e : mstate) :
  rmatch sec_flags sec_re s Some = Some e ->
  exists d, assoc 1 (caps e) = Some d /\ is_ymd d = true.
Proof.
  unfold sec_re. rewrite cat_eq. unfold DATE_H. intros E.
  apply cat_sound in E as (m1 & s1 & _ & E). apply cat_sound in E as (m2 & s2 & _ & E).
  apply cat_sound in E as (m3 & s3 & _ & E).
  rewrite cat_eq in E. apply group_captures in E as (d & s4 & _ & Hd & E).
  apply rmatch_keeps in E as (s5 & H5 & E); [|done].
  rewrite cat_eq in E. apply rmatch_keeps in E as (s6 & H6 & E); [|done].
  rewrite grp_eq in E. apply rmatch_keeps in E as (s7 & H7 & [= <-]); [|done].
  exists d. split; [|by apply (lang_ymd sec_flags)].
  unfold set_cap. cbn [caps assoc Nat.eqb]. by rewrite H7, H6, H5.
Qed.

(** X12.  In a journal in ASCII, the date of every section that is found
    has the form DDDD-DD-DD, the digits being 0 to 9; so a target date of
    another form finds no section, whatever the journal in ASCII. *)
Theorem section_dates_are_dates :
  (forall (doc : string) (m : rmatch_obj),
     ascii_only doc = true ->
     In m (finditer sec_flags sec_re doc) -> is_ymd (chars_of (group 1 m)) = true) /\
  (forall today doc target : string,
     ascii_only doc = true ->
     target <> "" -> is_ymd (chars_of target) = false ->
     parse_yearly_journal today doc (Some target) = Journal target [] []).
Proof.
  assert (H : forall (doc : string) (m : rmatch_obj),
     In m (finditer sec_flags sec_re doc) -> is_ymd (chars_of (group 1 m)) = true).
  { intros doc m Hm. unfold finditer in Hm.
    apply finditer_from_origin in Hm as (before & s' & e & _ & E & ->).
    apply sec_re_date in E as (d & Hc & Hd).
    unfold group. cbn [m_caps]. rewrite Hc. cbn [default]. by rewrite chars_of_str_of. }
  split; [intros doc m _; apply H|].
  intros today doc target _ Hne Ht. unfold parse_yearly_journal.
  rewrite (truthy_nonempty _ Hne), first_section_none; [done|].
  intros m Hm E. apply H in Hm. rewrite E in Hm. congruence.
Qed.

Lemma section_dates_are_dates_witness :
  parse_yearly_journal "2025-06-01" JournalSpec.sample_doc (Some "June 1")
  = Journal "June 1" [] [].
Proof.
  apply (proj2 section_dates_are_dates);
    [vm_compute; reflexivity | discriminate | reflexivity].
Defined.

End EntrySpec.

(** ** The index builder on any tree *)

Module IndexFacts.
Import Text Py Fs BuildIndex TextFacts FsFacts.
Local Open Scope path_scope.

Local Abbreviation nl := (String newline "").

Lemma child_of_app (p : path) (n : string) : child_of p (p ++ [n]) = Some n.
Proof. induction p as [|a p IH]; simpl; [done | by rewrite String.eqb_refl]. Qed.

Lemma child_of_inv (p k : path) (n : string) : child_of p k = Some n -> k = p ++ [n].
Proof.
  revert k. induction p as [|a p IH]; intros k; simpl.
  - destruct k as [|b [|c k]]; intros [=]. by subst.
  - destruct k as [|b k]; [done|]. destruct (String.eqb a b) eqn:E; [|done].
    apply String.eqb_eq in E as ->. intros H. by rewrite (IH _ H).
Qed.

Lemma in_insert_sorted (x y : string) (l : list string) :
  In x (insert_sorted y l) <-> x = y \/ In x l.
Proof.
  induction l as [|z l IH]; simpl; [intuition|].
  destruct (String.leb y z); simpl; [intuition|]. rewrite IH. intuition.
Qed.

Lemma in_sort_names (x : string) (l : list string) : In x (sort_names l) <-> In x l.
Proof.
  unfold sort_names. induction l as [|y l IH]; simpl; [done|].
  rewrite in_insert_sorted, IH. intuition.
Qed.

(** The names that [iterdir] yields. *)
Definition children (d : path) (fs : fsmap) : list string :=
  omap (fun kv : path * node => child_of d (fst kv)) (map_to_list fs).

Lemma in_children (d : path) (fs : fsmap) (n : string) :
  In n (children d fs) <-> is_Some (fs !! (d ++ [n])).
Proof.
  unfold children. rewrite <- list_elem_of_In, list_elem_of_omap. split.
  - intros [[k v] [Hk Hc]]. apply elem_of_map_to_list in Hk. simpl in Hc.
    apply child_of_inv in Hc as ->. by exists v.
  - intros [v Hv]. exists (d ++ [n], v). split; [by apply elem_of_map_to_list|].
    apply child_of_app.
Qed.

Lemma in_sorted_iterdir (d : path) (fs : fsmap) (ps : list path) (p : path) :
  sorted_iterdir d fs = Ok ps ->
  In p ps <-> exists n, p = d ++ [n] /\ is_Some (fs !! p).
Proof.
  unfold sorted_iterdir. destruct (stat fs d) as [[|c]|]; [|done..]. intros [= <-].
  rewrite in_map_iff. split.
  - intros [n [<- Hn]]. exists n. split; [done|].
    by apply in_children, in_sort_names.
  - intros [n [-> Hn]]. exists n. split; [done|]. by apply in_sort_names, in_children.
Qed.

Lemma is_dir_iterdir (d : path) (fs : fsmap) :
  is_dir fs d = true -> exists ps, sorted_iterdir d fs = Ok ps.
Proof.
  unfold is_dir, sorted_iterdir. destruct (stat fs d) as [[|c]|]; [eauto | done..].
Qed.

Lemma group_lines_ok (root : path) (fs : fsmap) (g : path) :
  exists l, group_lines root fs g = Ok l.
Proof.
  unfold group_lines, skipped. destruct (is_dir fs g) eqn:E; simpl.
  - destruct (starts_with_dot (name g)); [eauto|].
    destruct (is_dir_iterdir _ _ E) as [ps ->]. simpl. eauto.
  - eauto.
Qed.

Lemma groups_lines_ok (root : path) (fs : fsmap) (gs : list path) :
  exists l, groups_lines root fs gs = Ok l.
Proof.
  induction gs as [|g gs [l IH]]; simpl; [eauto|].
  destruct (group_lines_ok root fs g) as [l' ->]. rewrite IH. simpl. eauto.
Qed.

Lemma area_lines_ok (root : path) (fs : fsmap) (a : path) :
  exists l, area_lines root fs a = Ok l.
Proof.
  unfold area_lines, skipped. destruct (is_dir fs a) eqn:E; simpl.
  - destruct (starts_with_dot (name a)); [eauto|].
    destruct (is_dir_iterdir _ _ E) as [ps ->]. simpl.
    destruct (groups_lines_ok root fs ps) as [l ->]. simpl. eauto.
  - eauto.
Qed.

Lemma areas_lines_ok (root : path) (fs : fsmap) (areas : list path) :
  exists l, areas_lines root fs areas = Ok l.
Proof.
  induction areas as [|a areas [l IH]]; simpl; [eauto|].
  destruct (area_lines_ok root fs a) as [l' ->]. rewrite IH. simpl. eauto.
Qed.

(** X13.  The index builder raises FileNotFoundError when knowledge/ is
    missing, NotADirectoryError when it is a file and IsADirectoryError when
    INDEX.md is a directory; on every other tree it returns, and INDEX.md,
    which holds the lines joined by line breaks, is the only entry that it
    changes. *)
Theorem build_index_outcome (fs : fsmap) :
  match stat fs ROOT with
  | None => build_index ROOT fs = Raise FileNotFoundError
  | Some (File _) => build_index ROOT fs = Raise NotADirectoryError
  | Some Dir =>
      exists lines : list string,
        index_lines ROOT fs = Ok lines /\
        build_index ROOT fs =
          if is_dir fs (ROOT / "INDEX.md") then Raise IsADirectoryError
          else Ok (<[ROOT / "INDEX.md" := File (join nl lines)]> fs)
  end.
Proof.
  destruct (stat fs ROOT) as [[|c]|] eqn:E.
  - assert (Hd : is_dir fs ROOT = true) by (unfold is_dir; by rewrite E).
    destruct (is_dir_iterdir _ _ Hd) as [ps Hps].
    destruct (areas_lines_ok ROOT fs ps) as [ls Hls].
    unfold build_index, index_lines. rewrite Hps. unfold mbind, result_bind.
    rewrite Hls. eexists. split; [done|].
    unfold write_text, is_dir.
    destruct (stat fs (ROOT / "INDEX.md")) as [[|c]|]; [done..|].
    change (parent (ROOT / "INDEX.md")) with ROOT. by rewrite E.
  - unfold build_index, index_lines, sorted_iterdir. by rewrite E.
  - unfold build_index, index_lines, sorted_iterdir. by rewrite E.
Qed.

(** *** What the index lists *)

Lemma concat_in {A B : Type} (f : A -> list B) (l : list A) (x : A) :
  In x l -> exists pre post, concat (map f l) = pre ++ f x ++ post.
Proof.
  intros (l1 & l2 & ->)%in_split. rewrite map_app, concat_app. simpl. eauto.
Qed.

Lemma groups_lines_in (root : path) (fs : fsmap) (gs : list path) (g : path)
    (ls : list string) :
  groups_lines root fs gs = Ok ls -> In g gs ->
  exists lg pre post, group_lines root fs g = Ok lg /\ ls = pre ++ lg ++ post.
Proof.
  revert ls. induction gs as [|h gs IH]; intros ls; simpl; [done|].
  unfold mbind, result_bind.
  destruct (group_lines root fs h) as [lh|] eqn:Eh; [|done].
  destruct (groups_lines root fs gs) as [lt|]; [|done].
  intros [= <-] [->|Hin].
  - by exists lh, [], lt.
  - destruct (IH _ eq_refl Hin) as (lg & pre & post & Hg & ->).
    exists lg, (lh ++ pre), post. split; [done|]. by rewrite app_assoc.
Qed.

Lemma areas_lines_in (root : path) (fs : fsmap) (areas : list path) (a : path)
    (ls : list string) :
  areas_lines root fs areas = Ok ls -> In a areas ->
  exists la pre post, area_lines root fs a = Ok la /\ ls = pre ++ la ++ post.
Proof.
  revert ls. induction areas as [|h areas IH]; intros ls; simpl; [done|].
  unfold mbind, result_bind.
  destruct (area_lines root fs h) as [lh|] eqn:Eh; [|done].
  destruct (areas_lines root fs areas) as [lt|]; [|done].
  intros [= <-] [->|Hin].
  - by exists lh, [], lt.
  - destruct (IH _ eq_refl Hin) as (la & pre & post & Ha & ->).
    exists la, (lh ++ pre), post. split; [done|]. by rewrite app_assoc.
Qed.

Lemma is_dir_lookup (fs : fsmap) (p : path) :
  is_dir fs p = true -> is_root p = false -> fs !! p = Some Dir.
Proof.
  unfold is_dir, stat. intros H Hr. rewrite Hr in H. by destruct (fs !! p) as [[|c]|].
Qed.

Lemma in_iterdir_dir (fs : fsmap) (d : path) (n : string) (ps : list path) :
  sorted_iterdir d fs = Ok ps -> is_dir fs (d ++ [n]) = true ->
  is_root (d ++ [n]) = false -> In (d ++ [n]) ps.
Proof.
  intros Hps Hd Hr. apply (in_sorted_iterdir _ _ _ _ Hps). exists n. split; [done|].
  by rewrite (is_dir_lookup _ _ Hd Hr).
Qed.

(** The heading of an area, the bullet of a group and the link of a topic. *)
Definition heading (a : string) : string := "## " +:+ upper a.
Definition bullet (g : string) : string := "- " +:+ capitalize g.
Definition link (a g t : string) : string :=
  "  - [" +:+ str_of (capitalize_l (replace_char "-" " " (chars_of t))) +:+ "]("
    +:+ join "/" [a; g; t; "README.md"] +:+ ")".

Lemma topic_listed (fs : fsmap) (a g t : string) (lines : list string) :
  index_lines ROOT fs = Ok lines ->
  is_dir fs (ROOT ++ [a]) = true -> starts_with_dot a = false ->
  is_dir fs (ROOT ++ [a; g]) = true -> starts_with_dot g = false ->
  is_dir fs (ROOT ++ [a; g; t]) = true -> starts_with_dot t = false ->
  exists_ fs (ROOT ++ [a; g; t; "README.md"]) = true ->
  exists l1 l2 l3 l4 : list string,
    lines = l1 ++ heading a :: l2 ++ bullet g :: l3 ++ link a g t :: l4.
Proof.
  intros H Ha Hda Hg Hdg Ht Hdt Hr. unfold index_lines in H.
  destruct (sorted_iterdir ROOT fs) as [areas|] eqn:Eas; [|done].
  unfold mbind, result_bind in H.
  destruct (areas_lines ROOT fs areas) as [ls|] eqn:Els; [|done].
  injection H as <-.
  assert (Hin : In (ROOT ++ [a]) areas) by (by apply (in_iterdir_dir fs ROOT a)).
  destruct (areas_lines_in _ _ _ _ _ Els Hin) as (la & pre_a & post_a & Ea & ->).
  unfold area_lines, skipped in Ea. rewrite Ha in Ea.
  change (name (ROOT ++ [a])) with a in Ea. rewrite Hda in Ea. cbn [negb orb] in Ea.
  destruct (sorted_iterdir (ROOT ++ [a]) fs) as [groups|] eqn:Egs; [|done].
  unfold mbind, result_bind in Ea.
  destruct (groups_lines ROOT fs groups) as [gl|] eqn:Egl; [|done].
  injection Ea as <-.
  assert (Hing : In (ROOT ++ [a; g]) groups) by (by apply (in_iterdir_dir fs (ROOT ++ [a]) g)).
  destruct (groups_lines_in _ _ _ _ _ Egl Hing) as (lg & pre_g & post_g & Eg & ->).
  unfold group_lines, skipped in Eg. rewrite Hg in Eg.
  change (name (ROOT ++ [a; g])) with g in Eg. rewrite Hdg in Eg. cbn [negb orb] in Eg.
  destruct (sorted_iterdir (ROOT ++ [a; g]) fs) as [tops|] eqn:Ets; [|done].
  unfold mbind, result_bind in Eg. injection Eg as <-.
  assert (Hint : In (ROOT ++ [a; g; t]) tops)
    by (by apply (in_iterdir_dir fs (ROOT ++ [a; g]) t)).
  destruct (concat_in (topic_lines ROOT fs) _ _ Hint) as (pre_t & post_t & ->).
  assert (Htl : topic_lines ROOT fs (ROOT ++ [a; g; t]) = [link a g t]).
  { unfold topic_lines, skipped. rewrite Ht.
    change (name (ROOT ++ [a; g; t])) with t. rewrite Hdt. cbn [negb orb].
    change ((ROOT ++ [a; g; t]) / "README.md") with (ROOT ++ [a; g; t; "README.md"]).
    by rewrite Hr. }
  rewrite Htl.
  exists (("# 📚 Knowledge Index" +:+ nl) :: pre_a), pre_g, pre_t,
    (post_t ++ post_g ++ [""] ++ post_a).
  unfold heading, bullet, link. cbn [app]. f_equal.
  repeat (rewrite <- ?app_assoc; cbn [app]; f_equal).
Qed.

(** Every name in the tree is in ASCII, where [upper] and [capitalize] are
    those of Python. *)
Definition ascii_tree (fs : fsmap) : bool :=
  forallb (fun kv : path * node => forallb ascii_only (fst kv)) (map_to_list fs).

(** X14.  In a tree of ASCII names, every topic directory that holds a
    README, in a group directory of an area directory, none of the three
    names starting with a dot, is in the index: the heading of its area
    comes first, then the bullet of its group, then its link. *)
Theorem index_lists_topic (fs : fsmap) (a g t : string) (lines : list string) :
  ascii_tree fs = true ->
  index_lines ROOT fs = Ok lines ->
  is_dir fs (ROOT ++ [a]) = true -> starts_with_dot a = false ->
  is_dir fs (ROOT ++ [a; g]) = true -> starts_with_dot g = false ->
  is_dir fs (ROOT ++ [a; g; t]) = true -> starts_with_dot t = false ->
  exists_ fs (ROOT ++ [a; g; t; "README.md"]) = true ->
  exists l1 l2 l3 l4 : list string,
    lines = l1 ++ heading a :: l2 ++ bullet g :: l3 ++ link a g t :: l4.
Proof. intros _. apply topic_listed. Qed.

(** A tree with a topic that has a README, a topic that has none, a hidden
    area and a plain file beside the areas. *)
Definition mixed_tree : fsmap :=
  <[ ["knowledge"; "swe"; "frontend"; "react-hooks"; "README.md"] := File "# React hooks" ]>
  (<[ ["knowledge"; "swe"; "frontend"; "react-hooks"] := Dir ]>
  (<[ ["knowledge"; "swe"; "frontend"; "drafts"] := Dir ]>
  (<[ ["knowledge"; "swe"; "frontend"] := Dir ]>
  (<[ ["knowledge"; "swe"] := Dir ]>
  (<[ ["knowledge"; ".git"; "hooks"] := Dir ]>
  (<[ ["knowledge"; ".git"] := Dir ]>
  (<[ ["knowledge"; "INDEX.md"] := File "old" ]>
  (<[ ["knowledge"] := Dir ]> ∅)))))))).

Definition mixed_lines : list string :=
  [ "# 📚 Knowledge Index" +:+ nl;
    "## SWE";
    "- Frontend";
    "  - [React hooks](swe/frontend/react-hooks/README.md)";
    "" ].

Lemma index_lists_topic_witness :
  exists l1 l2 l3 l4 : list string,
    mixed_lines = l1 ++ heading "swe" :: l2 ++ bullet "frontend"
                     :: l3 ++ link "swe" "frontend" "react-hooks" :: l4.
Proof.
  apply (index_lists_topic mixed_tree "swe" "frontend" "react-hooks");
    vm_compute; reflexivity.
Defined.

(** *** What the index does not list *)

(** The lines an index can have on the tree [fs]. *)
Inductive index_line (fs : fsmap) : string -> Prop :=
| title_line : index_line fs ("# 📚 Knowledge Index" +:+ nl)
| blank_line : index_line fs ""
| area_line (a : string) :
    is_dir fs (ROOT ++ [a]) = true -> starts_with_dot a = false ->
    index_line fs (heading a)
| group_line (a g : string) :
    is_dir fs (ROOT ++ [a]) = true -> starts_with_dot a = false ->
    is_dir fs (ROOT ++ [a; g]) = true -> starts_with_dot g = false ->
    index_line fs (bullet g)
| topic_line (a g t : string) :
    is_dir fs (ROOT ++ [a]) = true -> starts_with_dot a = false ->
    is_dir fs (ROOT ++ [a; g]) = true -> starts_with_dot g = false ->
    is_dir fs (ROOT ++ [a; g; t]) = true -> starts_with_dot t = false ->
    exists_ fs (ROOT ++ [a; g; t; "README.md"]) = true ->
    index_line fs (link a g t).

Lemma groups_lines_from (root : path) (fs : fsmap) (gs : list path)
    (ls : list string) (l : string) :
  groups_lines root fs gs = Ok ls -> In l ls ->
  exists g lg, In g gs /\ group_lines root fs g = Ok lg /\ In l lg.
Proof.
  revert ls. induction gs as [|h gs IH]; intros ls; simpl.
  - by intros [= <-].
  - unfold mbind, result_bind.
    destruct (group_lines root fs h) as [lh|] eqn:Eh; [|done].
    destruct (groups_lines root fs gs) as [lt|]; [|done].
    intros [= <-] [Hl|Hl]%in_app_or.
    + exists h, lh. auto.
    + destruct (IH _ eq_refl Hl) as (g & lg & Hg & Eg & Hlg). exists g, lg. auto.
Qed.

Lemma areas_lines_from (root : path) (fs : fsmap) (areas : list path)
    (ls : list string) (l : string) :
  areas_lines root fs areas = Ok ls -> In l ls ->
  exists a la, In a areas /\ area_lines root fs a = Ok la /\ In l la.
Proof.
  revert ls. induction areas as [|h areas IH]; intros ls; simpl.
  - by intros [= <-].
  - unfold mbind, result_bind.
    destruct (area_lines root fs h) as [lh|] eqn:Eh; [|done].
    destruct (areas_lines root fs areas) as [lt|]; [|done].
    intros [= <-] [Hl|Hl]%in_app_or.
    + exists h, lh. auto.
    + destruct (IH _ eq_refl Hl) as (a & la & Ha & Ea & Hla). exists a, la. auto.
Qed.

Lemma iterdir_child (fs : fsmap) (d p : path) (ps : list path) :
  sorted_iterdir d fs = Ok ps -> In p ps -> exists n, p = d ++ [n].
Proof.
  intros Hps Hp. apply (in_sorted_iterdir _ _ _ _ Hps) in Hp as (n & -> & _). eauto.
Qed.

Lemma not_skipped (fs : fsmap) (p : path) :
  skipped fs p = false -> is_dir fs p = true /\ starts_with_dot (name p) = false.
Proof.
  unfold skipped. destruct (is_dir fs p), (starts_with_dot (name p)); by simpl.
Qed.

(** X15.  In a tree of ASCII names, every line of the index is the title,
    an empty line, the heading of an area directory, the bullet of a group
    directory in such an area, or the link of a topic directory with a
    README in such a group; no name among them starts with a dot.  So a
    hidden directory, a plain file and a topic without a README are not
    listed. *)
Theorem index_lists_only_topics (fs : fsmap) (lines : list string) (l : string) :
  ascii_tree fs = true ->
  index_lines ROOT fs = Ok lines -> In l lines -> index_line fs l.
Proof.
  intros _ H Hl. unfold index_lines in H.
  destruct (sorted_iterdir ROOT fs) as [areas|] eqn:Eas; [|done].
  unfold mbind, result_bind in H.
  destruct (areas_lines ROOT fs areas) as [ls|] eqn:Els; [|done].
  injection H as <-. destruct Hl as [<-|Hl]; [constructor|].
  destruct (areas_lines_from _ _ _ _ _ Els Hl) as (pa & la & Hpa & Ea & Hla).
  destruct (iterdir_child _ _ _ _ Eas Hpa) as [a ->].
  unfold area_lines in Ea. destruct (skipped fs (ROOT ++ [a])) eqn:Sa.
  { injection Ea as <-. destruct Hla. }
  apply not_skipped in Sa as [Ha Hda]. change (name (ROOT ++ [a])) with a in Hda.
  destruct (sorted_iterdir (ROOT ++ [a]) fs) as [groups|] eqn:Egs; [|done].
  unfold mbind, result_bind in Ea.
  destruct (groups_lines ROOT fs groups) as [gl|] eqn:Egl; [|done].
  injection Ea as <-. destruct Hla as [<-|Hla]; [by apply area_line|].
  apply in_app_or in Hla as [Hla|[<-|[]]]; [|apply blank_line].
  destruct (groups_lines_from _ _ _ _ _ Egl Hla) as (pg & lg & Hpg & Eg & Hlg).
  destruct (iterdir_child _ _ _ _ Egs Hpg) as [g ->].
  change ((ROOT ++ [a]) ++ [g]) with (ROOT ++ [a; g]) in *.
  unfold group_lines in Eg. destruct (skipped fs (ROOT ++ [a; g])) eqn:Sg.
  { injection Eg as <-. destruct Hlg. }
  apply not_skipped in Sg as [Hg Hdg]. change (name (ROOT ++ [a; g])) with g in Hdg.
  destruct (sorted_iterdir (ROOT ++ [a; g]) fs) as [tops|] eqn:Ets; [|done].
  unfold mbind, result_bind in Eg. injection Eg as <-.
  destruct Hlg as [<-|Hlg]; [by apply (group_line fs a g)|].
  apply in_concat in Hlg as (lt & Hlt & Hin).
  apply in_map_iff in Hlt as (pt & <- & Hpt).
  destruct (iterdir_child _ _ _ _ Ets Hpt) as [t ->].
  change ((ROOT ++ [a; g]) ++ [t]) with (ROOT ++ [a; g; t]) in *.
  unfold topic_lines in Hin. destruct (skipped fs (ROOT ++ [a; g; t])) eqn:St; [done|].
  apply not_skipped in St as [Ht Hdt]. change (name (ROOT ++ [a; g; t])) with t in Hdt.
  change ((ROOT ++ [a; g; t]) / "README.md") with (ROOT ++ [a; g; t; "README.md"]) in Hin.
  destruct (exists_ fs (ROOT ++ [a; g; t; "README.md"])) eqn:Hr; [|done].
  destruct Hin as [<-|[]]. by apply (topic_line fs a g t).
Qed.

Lemma index_lists_only_topics_witness : index_line mixed_tree "- Frontend".
Proof.
  apply (index_lists_only_topics mixed_tree mixed_lines).
  - vm_compute. reflexivity.
  - vm_compute. reflexivity.
  - simpl. tauto.
Defined.

End IndexFacts.

(** ** Building the index again *)

Module IndexRerun.
Import Text Py Fs BuildIndex TextFacts FsFacts IndexFacts.
Local Open Scope path_scope.

Local Abbreviation nl := (String newline "").

(** *** The order of [sorted] *)

Definition str_le (x y : string) : Prop := String.leb x y = true.

Lemma ascii_compare_lt_trans (a b c : ascii) :
  Ascii.compare a b = Lt -> Ascii.compare b c = Lt -> Ascii.compare a c = Lt.
Proof. unfold Ascii.compare. rewrite !N.compare_lt_iff. apply N.lt_trans. Qed.

Lemma compare_lt_trans (s1 s2 s3 : string) :
  String.compare s1 s2 = Lt -> String.compare s2 s3 = Lt -> String.compare s1 s3 = Lt.
Proof.
  revert s2 s3. induction s1 as [|a s1 IH]; intros [|b s2] [|c s3]; simpl; try done.
  destruct (Ascii.compare a b) eqn:Eab; [|clear IH|done].
  - apply Ascii.compare_eq_iff in Eab as ->.
    destruct (Ascii.compare b c); [apply IH | done | done].
  - destruct (Ascii.compare b c) eqn:Ebc; [| |done].
    + apply Ascii.compare_eq_iff in Ebc as ->. by rewrite Eab.
    + by rewrite (ascii_compare_lt_trans _ _ _ Eab Ebc).
Qed.

#[local] Instance str_le_trans : Transitive str_le.
Proof.
  intros x y z. unfold str_le, String.leb.
  destruct (String.compare x y) eqn:Exy; [| |done].
  - by apply String.compare_eq_iff in Exy as ->.
  - destruct (String.compare y z) eqn:Eyz; [| |done].
    + apply String.compare_eq_iff in Eyz as ->. by rewrite Exy.
    + by rewrite (compare_lt_trans _ _ _ Exy Eyz).
Qed.

#[local] Instance str_le_antisym : AntiSymm eq str_le.
Proof. intros x y. apply String.leb_antisym. Qed.

Lemma hdrel_insert (x y : string) (l : list string) :
  HdRel str_le y l -> str_le y x -> HdRel str_le y (insert_sorted x l).
Proof.
  intros Hl Hx. destruct l as [|z l]; simpl; [by constructor|].
  destruct (String.leb x z); constructor; [done|]. by inversion Hl.
Qed.

Lemma insert_sorted_sorted (x : string) (l : list string) :
  Sorted str_le l -> Sorted str_le (insert_sorted x l).
Proof.
  induction l as [|y l IH]; simpl; intros Hl.
  - by repeat constructor.
  - destruct (String.leb x y) eqn:E.
    + constructor; [done|]. by constructor.
    + inversion Hl as [|? ? Hs Hh]; subst. constructor; [by apply IH|].
      apply hdrel_insert; [done|].
      by destruct (String.leb_total x y) as [H|H]; [rewrite H in E|].
Qed.

Lemma insert_sorted_perm (x : string) (l : list string) : insert_sorted x l ≡ₚ x :: l.
Proof.
  induction l as [|y l IH]; simpl; [done|].
  destruct (String.leb x y); [done|]. rewrite IH. apply perm_swap.
Qed.

Lemma sort_names_sorted (l : list string) : Sorted str_le (sort_names l).
Proof.
  unfold sort_names. induction l as [|x l IH]; simpl; [constructor|].
  by apply insert_sorted_sorted.
Qed.

Lemma sort_names_perm (l : list string) : sort_names l ≡ₚ l.
Proof.
  unfold sort_names. induction l as [|x l IH]; simpl; [done|].
  by rewrite insert_sorted_perm, IH.
Qed.

(** What [sorted] gives does not depend on the order [iterdir] yields. *)
Lemma sort_names_order (l l' : list string) : l ≡ₚ l' -> sort_names l = sort_names l'.
Proof.
  intros H. apply (Sorted_unique str_le); [apply sort_names_sorted..|].
  by rewrite !sort_names_perm.
Qed.

Lemma sort_names_more (x : string) (l l' : list string) :
  l' ≡ₚ x :: l -> sort_names l' = insert_sorted x (sort_names l).
Proof.
  intros H. apply (Sorted_unique str_le).
  - apply sort_names_sorted.
  - apply insert_sorted_sorted, sort_names_sorted.
  - by rewrite insert_sorted_perm, !sort_names_perm.
Qed.

Lemma insert_sorted_split (x : string) (l : list string) :
  exists l1 l2, l = l1 ++ l2 /\ insert_sorted x l = l1 ++ x :: l2.
Proof.
  induction l as [|y l (l1 & l2 & Hl & Hi)]; simpl.
  - by exists [], [].
  - destruct (String.leb x y).
    + by exists [], (y :: l).
    + exists (y :: l1), l2. simpl. by rewrite Hi, <- Hl.
Qed.

(** *** A tree with INDEX.md written *)

Definition INDEX : path := ROOT / "INDEX.md".

Lemma children_insert_new (d p : path) (v : node) (fs : fsmap) :
  fs !! p = None ->
  children d (<[p := v]> fs)
  ≡ₚ match child_of d p with Some n => [n] | None => [] end ++ children d fs.
Proof.
  intros Hp. unfold children. rewrite (map_to_list_insert fs p v Hp).
  simpl. by destruct (child_of d p).
Qed.

Lemma children_insert (d p : path) (v : node) (fs : fsmap) :
  children d (<[p := v]> fs)
  ≡ₚ match child_of d p with Some n => [n] | None => [] end ++ children d (delete p fs).
Proof.
  rewrite <- insert_delete_eq. apply children_insert_new, lookup_delete_eq.
Qed.

Lemma children_delete (d p : path) (fs : fsmap) :
  child_of d p = None -> children d fs ≡ₚ children d (delete p fs).
Proof.
  intros Hc. destruct (fs !! p) as [w|] eqn:E.
  - rewrite <- (insert_delete_id fs p w E) at 1.
    rewrite children_insert_new by apply lookup_delete_eq. by rewrite Hc.
  - by rewrite delete_id.
Qed.

Section Written.
Variables (fs : fsmap) (text : string).
Hypothesis Hidx : is_dir fs INDEX = false.

Local Abbreviation fs' := (<[INDEX := File text]> fs).

Lemma stat_written (q : path) : q <> INDEX -> stat fs' q = stat fs q.
Proof. intros Hq. unfold stat. by rewrite lookup_insert_ne. Qed.

Lemma is_dir_written (q : path) : is_dir fs' q = is_dir fs q.
Proof.
  destruct (decide (q = INDEX)) as [->|Hq].
  - rewrite Hidx. unfold is_dir, stat. change (is_root INDEX) with false.
    cbv iota. by rewrite lookup_insert_eq.
  - unfold is_dir. by rewrite stat_written.
Qed.

Lemma exists_written (q : path) : q <> INDEX -> exists_ fs' q = exists_ fs q.
Proof. intros Hq. unfold exists_. by rewrite stat_written. Qed.

Lemma skipped_written (q : path) : skipped fs' q = skipped fs q.
Proof. unfold skipped. by rewrite is_dir_written. Qed.

Lemma iterdir_written (d : path) :
  is_dir fs d = true -> child_of d INDEX = None ->
  sorted_iterdir d fs' = sorted_iterdir d fs.
Proof.
  intros Hd Hc. unfold sorted_iterdir. rewrite stat_written by (intros ->; congruence).
  destruct (stat fs d) as [[|c]|]; [|done..]. do 2 f_equal.
  apply sort_names_order. fold (children d fs') (children d fs).
  by rewrite children_insert, Hc, <- children_delete.
Qed.

Lemma topic_lines_written (g : path) (n : string) :
  topic_lines ROOT fs' (ROOT ++ g ++ [n]) = topic_lines ROOT fs (ROOT ++ g ++ [n]).
Proof.
  unfold topic_lines. rewrite skipped_written.
  destruct (skipped fs (ROOT ++ g ++ [n])); [done|].
  rewrite exists_written; [done|]. destruct g as [|a [|b g]]; discriminate.
Qed.

Lemma group_lines_written (a n : string) :
  group_lines ROOT fs' (ROOT ++ [a; n]) = group_lines ROOT fs (ROOT ++ [a; n]).
Proof.
  unfold group_lines. rewrite skipped_written.
  destruct (skipped fs (ROOT ++ [a; n])) eqn:S; [done|].
  apply not_skipped in S as [Hd _]. rewrite iterdir_written; [|done|].
  - destruct (sorted_iterdir (ROOT ++ [a; n]) fs) as [ts|] eqn:E; [|done].
    unfold mbind, result_bind. do 3 f_equal. apply map_ext_in. intros t Ht.
    destruct (iterdir_child _ _ _ _ E Ht) as [m ->].
    apply (topic_lines_written [a; n] m).
  - simpl. by destruct (String.eqb a "INDEX.md").
Qed.

Lemma groups_lines_written (a : string) (ns : list string) :
  groups_lines ROOT fs' (map (fun n => (ROOT ++ [a]) ++ [n]) ns)
  = groups_lines ROOT fs (map (fun n => (ROOT ++ [a]) ++ [n]) ns).
Proof.
  induction ns as [|n ns IH]; [done|]. cbn [map groups_lines].
  rewrite IH. change ((ROOT ++ [a]) ++ [n]) with (ROOT ++ [a; n]).
  by rewrite (group_lines_written a n).
Qed.

Lemma iterdir_names (d : path) (fs0 : fsmap) (ps : list path) :
  sorted_iterdir d fs0 = Ok ps -> exists ns, ps = map (fun n => d ++ [n]) ns.
Proof.
  unfold sorted_iterdir. destruct (stat fs0 d) as [[|c]|]; [|done..].
  intros [= <-]. eauto.
Qed.

Lemma area_lines_written (n : string) :
  area_lines ROOT fs' (ROOT ++ [n]) = area_lines ROOT fs (ROOT ++ [n]).
Proof.
  unfold area_lines. rewrite skipped_written.
  destruct (skipped fs (ROOT ++ [n])) eqn:S; [done|].
  apply not_skipped in S as [Hd _]. rewrite iterdir_written; [|done|].
  - destruct (sorted_iterdir (ROOT ++ [n]) fs) as [gs|] eqn:E; [|done].
    destruct (iterdir_names _ _ _ E) as [ns ->].
    unfold mbind, result_bind. by rewrite groups_lines_written.
  - simpl. by destruct (String.eqb n "INDEX.md").
Qed.

Lemma areas_lines_written (ns : list string) :
  areas_lines ROOT fs' (map (fun n => ROOT ++ [n]) ns)
  = areas_lines ROOT fs (map (fun n => ROOT ++ [n]) ns).
Proof.
  induction ns as [|n ns IH]; [done|]. cbn [map areas_lines].
  rewrite IH. by rewrite (area_lines_written n).
Qed.

Lemma areas_lines_skip (fs0 : fsmap) (x : path) (l1 l2 : list path) :
  area_lines ROOT fs0 x = Ok [] ->
  areas_lines ROOT fs0 (l1 ++ x :: l2) = areas_lines ROOT fs0 (l1 ++ l2).
Proof.
  intros Hx. induction l1 as [|y l1 IH]; simpl.
  - rewrite Hx. unfold mbind, result_bind.
    by destruct (areas_lines ROOT fs0 l2).
  - by rewrite IH.
Qed.

(** The lines do not depend on INDEX.md, there or not. *)
Lemma index_lines_written : index_lines ROOT fs' = index_lines ROOT fs.
Proof.
  unfold index_lines, sorted_iterdir. rewrite stat_written by done.
  destruct (stat fs ROOT) as [[|c]|]; [|done..].
  fold (children ROOT fs') (children ROOT fs).
  assert (Hp : children ROOT fs' ≡ₚ "INDEX.md" :: children ROOT (delete INDEX fs))
    by apply children_insert.
  destruct (fs !! INDEX) as [w|] eqn:E.
  - rewrite (sort_names_order (children ROOT fs') (children ROOT fs)).
    + unfold mbind, result_bind. by rewrite areas_lines_written.
    + rewrite Hp. rewrite <- (insert_delete_id fs INDEX w E) at 2.
      by rewrite children_insert_new by apply lookup_delete_eq.
  - rewrite delete_id in Hp by done.
    rewrite (sort_names_more _ _ _ Hp).
    destruct (insert_sorted_split "INDEX.md" (sort_names (children ROOT fs)))
      as (l1 & l2 & -> & ->).
    unfold mbind, result_bind. rewrite areas_lines_written.
    rewrite !map_app. cbn [map]. rewrite areas_lines_skip; [done|].
    unfold area_lines, skipped. change (ROOT ++ ["INDEX.md"]) with INDEX.
    by rewrite Hidx.
Qed.

End Written.

Lemma build_index_inv (fs fs' : fsmap) :
  build_index ROOT fs = Ok fs' ->
  exists lines, index_lines ROOT fs = Ok lines /\ is_dir fs INDEX = false /\
    fs' = <[INDEX := File (join nl lines)]> fs.
Proof.
  unfold build_index. destruct (index_lines ROOT fs) as [lines|]; [|done].
  unfold mbind, result_bind, write_text, is_dir. fold INDEX. intros H.
  exists lines. split; [done|].
  destruct (stat fs INDEX) as [[|c]|].
  - done.
  - by injection H as <-.
  - destruct (stat fs (parent INDEX)) as [[|c]|]; [|done..]. by injection H as <-.
Qed.

(** X16.  The index does not list itself: when the builder has returned,
    building again returns the same tree, INDEX.md with the same text. *)
Theorem build_index_idempotent (fs fs' : fsmap) :
  build_index ROOT fs = Ok fs' -> build_index ROOT fs' = Ok fs'.
Proof.
  intros (lines & Hl & Hd & ->)%build_index_inv.
  unfold build_index. rewrite (index_lines_written fs _ Hd), Hl.
  unfold mbind, result_bind, write_text. fold INDEX.
  unfold stat at 1. change (is_root INDEX) with false. cbv iota.
  rewrite lookup_insert_eq. by rewrite insert_insert_eq.
Qed.

Local Abbreviation built := (build_index ROOT mixed_tree).

Lemma build_index_idempotent_witness :
  build_index ROOT (state_of built) = Ok (state_of built).
Proof.
  apply (build_index_idempotent mixed_tree). apply returned_state.
  vm_compute. reflexivity.
Defined.

End IndexRerun.

(** ** From the materializer to the index *)

Module PipelineSpec.
Import Text TextFacts Py Fs FsFacts Knowledge MaterializerSpec TopicSpec IndexFacts.
Local Open Scope path_scope.

(** The convention of the trees, spelled out: every entry lies in a
    directory. *)
Definition well_formed (fs : fsmap) : Prop :=
  forall (p : path) (n : node), fs !! p = Some n -> is_dir fs (parent p) = true.

Lemma well_formed_empty : well_formed ∅.
Proof. intros p n H. by rewrite lookup_empty in H. Qed.

Lemma well_formed_insert (fs : fsmap) (p : path) (n : node) :
  well_formed fs -> stat fs p = None -> is_dir fs (parent p) = true ->
  well_formed (<[p := n]> fs).
Proof.
  intros Hw Hn Hp q m Hq. apply stat_None in Hn as [Hr Hl].
  assert (Hs : fs ⊆ <[p := n]> fs) by (by apply insert_subseteq).
  destruct (decide (q = p)) as [->|Hne]; [by apply (is_dir_mono fs)|].
  rewrite lookup_insert_ne in Hq by done.
  apply (is_dir_mono fs); [done|]. by apply (Hw q m).
Qed.

Lemma well_formed_parent (fs : fsmap) (p : path) :
  well_formed fs -> is_dir fs p = true -> is_dir fs (parent p) = true.
Proof.
  intros Hw Hd. destruct (is_root p) eqn:Hr.
  - unfold parent. by rewrite Hr.
  - apply (Hw p Dir). revert Hd. unfold is_dir, stat. rewrite Hr.
    by destruct (fs !! p) as [[|c]|].
Qed.

Lemma os_mkdir_wf (p : path) (fs fs' : fsmap) :
  os_mkdir p fs = Ok fs' -> well_formed fs -> well_formed fs'.
Proof.
  unfold os_mkdir. destruct (stat fs (parent p)) as [[|c]|] eqn:Ep; [|done..].
  destruct (stat fs p) eqn:E; [done|]. intros [= <-] Hw.
  apply well_formed_insert; [done..|]. unfold is_dir. by rewrite Ep.
Qed.

Lemma mkdir_wf (p : path) (fs fs' : fsmap) :
  mkdir p fs = Ok fs' -> well_formed fs -> well_formed fs'.
Proof.
  unfold mkdir. destruct (os_mkdir p fs) as [f|e] eqn:E.
  - intros [= <-]. apply (os_mkdir_wf _ _ _ E).
  - destruct e; try done; destruct (is_dir fs p); try done; by intros [= <-].
Qed.

Lemma mkdir_parents_rev_wf (rp : list string) (fs fs' : fsmap) :
  mkdir_parents_rev rp fs = Ok fs' -> well_formed fs -> well_formed fs'.
Proof.
  revert fs fs'. induction rp as [|x rp IH]; intros fs fs'; simpl.
  - by intros [= <-].
  - destruct (os_mkdir (rev rp ++ [x]) fs) as [f|e] eqn:E.
    + intros [= <-]. apply (os_mkdir_wf _ _ _ E).
    + destruct e;
        try (destruct (is_dir fs (rev rp ++ [x])); try done; by intros [= <-]).
      destruct (is_root (rev rp ++ [x])); [done|].
      destruct (mkdir_parents_rev rp fs) as [f1|e1] eqn:E1; [|done].
      simpl. intros Hm Hw. apply (mkdir_wf _ _ _ Hm). by apply (IH fs).
Qed.

Lemma mkdir_parents_wf (p : path) (fs fs' : fsmap) :
  mkdir_parents p fs = Ok fs' -> well_formed fs -> well_formed fs'.
Proof. apply mkdir_parents_rev_wf. Qed.

Lemma touch_wf (p : path) (fs fs' : fsmap) :
  touch p fs = Ok fs' -> well_formed fs -> well_formed fs'.
Proof.
  unfold touch. destruct (stat fs p) eqn:E; [by intros [= <-]|].
  destruct (stat fs (parent p)) as [[|c]|] eqn:Ep; [|done..]. intros [= <-] Hw.
  apply well_formed_insert; [done..|]. unfold is_dir. by rewrite Ep.
Qed.

Lemma write_if_absent_wf (p : path) (text : string) (fs fs' : fsmap) :
  write_if_absent p text fs = Ok fs' -> well_formed fs -> well_formed fs'.
Proof.
  unfold write_if_absent, exists_, write_text.
  destruct (stat fs p) eqn:E; simpl; [by intros [= <-]|].
  destruct (stat fs (parent p)) as [[|c]|] eqn:Ep; [|done..]. intros [= <-] Hw.
  apply well_formed_insert; [done..|]. unfold is_dir. by rewrite Ep.
Qed.

Lemma ensure_topics_wf (base : path) (ts : list string) (fs fs' : fsmap) :
  ensure_topics base ts fs = Ok fs' -> well_formed fs -> well_formed fs'.
Proof.
  revert fs. induction ts as [|t ts IH]; intros fs H Hw.
  - by injection H as <-.
  - bind_ok H f1 E1. unfold ensure_topic in E1. bind_ok E1 f0 E0.
    apply (IH _ H), (touch_wf _ _ _ E1), (mkdir_parents_wf _ _ _ E0), Hw.
Qed.

Lemma ensure_groups_wf (root : path) (area : string) (gs : list (string * list string))
    (fs fs' : fsmap) :
  ensure_groups root area gs fs = Ok fs' -> well_formed fs -> well_formed fs'.
Proof.
  revert fs. induction gs as [|g gs IH]; intros fs H Hw.
  - by injection H as <-.
  - bind_ok H f1 E1. unfold ensure_group in E1. bind_ok E1 f2 E2. bind_ok E1 f3 E3.
    apply (IH _ H), (ensure_topics_wf _ _ _ _ E1), (touch_wf _ _ _ E3),
      (mkdir_parents_wf _ _ _ E2), Hw.
Qed.

Lemma ensure_areas_wf (root : path) (cats : list (string * list (string * list string)))
    (fs fs' : fsmap) :
  ensure_areas root cats fs = Ok fs' -> well_formed fs -> well_formed fs'.
Proof.
  revert fs. induction cats as [|[a gs] cats IH]; intros fs H Hw.
  - by injection H as <-.
  - bind_ok H f1 E1. apply (IH _ H), (ensure_groups_wf _ _ _ _ _ E1), Hw.
Qed.

Lemma ensure_tree_wf (root : path) (fs fs' : fsmap) :
  ensure_tree root fs = Ok fs' -> well_formed fs -> well_formed fs'.
Proof.
  unfold ensure_tree. intros H Hw. bind_ok H f1 E1.
  apply (touch_wf _ _ _ H), (ensure_areas_wf _ _ _ _ E1), Hw.
Qed.

Lemma add_topic_wf (root : path) (today area group topic lang : string)
    (fs fs' : fsmap) :
  add_topic root today area group topic lang fs = Ok fs' ->
  well_formed fs -> well_formed fs'.
Proof.
  rewrite add_topic_steps. cbv zeta. intros H Hw.
  bind_ok H f1 E1. bind_ok H f2 E2. bind_ok H f3 E3. bind_ok H f4 E4.
  apply (write_if_absent_wf _ _ _ _ H), (write_if_absent_wf _ _ _ _ E4),
    (touch_wf _ _ _ E3), (mkdir_wf _ _ _ E2).
  unfold ensure_dest in E1. destruct (exists_ fs _); simpl in E1.
  - by injection E1 as <-.
  - by apply (mkdir_parents_wf _ _ _ E1).
Qed.

Lemma alnum_no_dot (c : ascii) : is_alnum c = true -> (code c =? 46)%nat = false.
Proof. destruct c as [[] [] [] [] [] [] [] []]; vm_compute; intros; congruence. Qed.

Lemma slug_no_dot (topic : string) :
  slug topic <> "" -> BuildIndex.starts_with_dot (slug topic) = false.
Proof.
  unfold slug. destruct (SlugSpec.slug_l_shape (chars_of topic)) as [E|Hsh].
  - rewrite E. by intros [].
  - intros _. destruct (SlugSpec.shape_head _ Hsh) as (c & t & -> & Hc).
    change (str_of (c :: t)) with (String c (str_of t)). simpl.
    by apply alnum_no_dot.
Qed.

Lemma slug_dest (a g topic : string) :
  ROOT / lower a / lower g = ROOT ++ [a; g] -> slug topic <> "" ->
  dest_of ROOT a g topic = ROOT ++ [a; g; slug topic].
Proof.
  intros Hag Hs. unfold dest_of. rewrite Hag. unfold slug in *.
  destruct (SlugSpec.slug_l_shape (chars_of topic)) as [E|Hsh].
  - rewrite E in Hs. by destruct Hs.
  - by rewrite (slug_one_part _ _ Hsh).
Qed.

(** A topic added below a plain area and group is in the index. *)
Lemma added_is_indexed (today a g topic lang : string) (fs fs1 : fsmap) :
  well_formed fs ->
  ROOT / lower a / lower g = ROOT ++ [a; g] ->
  BuildIndex.starts_with_dot a = false -> BuildIndex.starts_with_dot g = false ->
  slug topic <> "" ->
  add_topic ROOT today a g topic lang fs = Ok fs1 ->
  exists lines l1 l2 l3 l4 : list string,
    BuildIndex.index_lines BuildIndex.ROOT fs1 = Ok lines /\
    lines = l1 ++ heading a :: l2 ++ bullet g :: l3 ++ link a g (slug topic) :: l4.
Proof.
  intros Hw Hag Hda Hdg Hs H.
  pose proof (add_topic_wf _ _ _ _ _ _ _ _ H Hw) as Hw1.
  pose proof (slug_no_dot _ Hs) as Hdt.
  rewrite add_topic_steps in H. cbv zeta in H. rewrite (slug_dest _ _ _ Hag Hs) in H.
  set (d := ROOT ++ [a; g; slug topic]) in *.
  change (d / "examples") with (d ++ ["examples"]) in H.
  change (d / "README.md") with (d ++ ["README.md"]) in H.
  bind_ok H f1 E1. bind_ok H f2 E2. bind_ok H f3 E3. bind_ok H f4 E4.
  pose proof (mkdir_ok _ _ _ E2) as (_ & Hd2 & _).
  pose proof (touch_ok _ _ _ E3) as (H3 & _).
  pose proof (write_if_absent_ok _ _ _ _ E4) as (H4 & Hx4 & _).
  pose proof (write_if_absent_ok _ _ _ _ H) as (H5 & _).
  assert (Hex : is_dir fs1 (d ++ ["examples"]) = true).
  { apply (is_dir_mono f2); [|done]. etrans; [exact H3|]. by etrans. }
  assert (Hr : exists_ fs1 (d ++ ["README.md"]) = true) by (by apply (exists_mono f4)).
  assert (Ht : is_dir fs1 d = true)
    by exact (well_formed_parent fs1 (d ++ ["examples"]) Hw1 Hex).
  assert (Hg : is_dir fs1 (ROOT ++ [a; g]) = true)
    by exact (well_formed_parent fs1 d Hw1 Ht).
  assert (Ha : is_dir fs1 (ROOT ++ [a]) = true)
    by exact (well_formed_parent fs1 (ROOT ++ [a; g]) Hw1 Hg).
  assert (Hroot : is_dir fs1 BuildIndex.ROOT = true)
    by exact (well_formed_parent fs1 (ROOT ++ [a]) Hw1 Ha).
  destruct (is_dir_iterdir _ _ Hroot) as [ps Hps].
  destruct (areas_lines_ok BuildIndex.ROOT fs1 ps) as [ls Hls].
  assert (Hl : BuildIndex.index_lines BuildIndex.ROOT fs1
               = Ok (("# 📚 Knowledge Index" +:+ String newline "") :: ls)).
  { unfold BuildIndex.index_lines. rewrite Hps. unfold mbind, result_bind.
    by rewrite Hls. }
  destruct (topic_listed fs1 a g (slug topic) _ Hl Ha Hda Hg Hdg Ht Hdt Hr)
    as (l1 & l2 & l3 & l4 & Heq).
  eexists _, l1, l2, l3, l4. split; [exact Hl | exact Heq].
Qed.

(** X17.  The orchestrator's route, the materializer and the index builder
    together: on a tree where every entry lies in a directory, when the
    materializer's add command has returned for a topic with the area and
    group that [route] gives it, the title having a letter or digit, the
    index lines are built without an error and hold the heading of that
    area, then the bullet of that group, then the link of the topic's slug. *)
Theorem routed_topic_is_indexed (today topic area group lang : string)
    (fs fs1 : fsmap) :
  well_formed fs ->
  StudyAgent.route topic = (area, group, lang) ->
  slug topic <> "" ->
  main today (Add area group topic lang) fs = Ok fs1 ->
  exists lines l1 l2 l3 l4 : list string,
    BuildIndex.index_lines BuildIndex.ROOT fs1 = Ok lines /\
    lines = l1 ++ heading area :: l2 ++ bullet group :: l3
               ++ link area group (slug topic) :: l4.
Proof.
  intros Hw Hroute Hs Hm.
  assert (Hp : In (area, group) routed_pairs).
  { revert Hroute. unfold StudyAgent.route.
    repeat match goal with
           | |- context [if ?b then _ else _] => destruct b
           end; intros [= <- <- <-]; simpl; tauto. }
  unfold main in Hm. destruct (existsb (String.eqb area) area_choices); [|done].
  bind_ok Hm f1 E1. apply ensure_tree_wf in E1; [|done].
  simpl in Hp.
  repeat (destruct Hp as [[= <- <-] | Hp];
          [by apply (added_is_indexed today _ _ topic lang f1 fs1) |]).
  destruct Hp.
Qed.

Local Abbreviation docker_run :=
  (main "2025-06-01" (Add "swe" "devops" "Docker networking" "bash") ∅).

Lemma routed_topic_is_indexed_witness :
  exists lines l1 l2 l3 l4 : list string,
    BuildIndex.index_lines BuildIndex.ROOT (state_of docker_run) = Ok lines /\
    lines = l1 ++ heading "swe" :: l2 ++ bullet "devops" :: l3
               ++ link "swe" "devops" (slug "Docker networking") :: l4.
Proof.
  apply (routed_topic_is_indexed "2025-06-01" "Docker networking" "swe" "devops" "bash" ∅).
  - apply well_formed_empty.
  - vm_compute. reflexivity.
  - vm_compute. discriminate.
  - apply returned_state. vm_compute. reflexivity.
Defined.

(** *** A plain file where the root should be *)

Lemma long_not_root (root more : path) :
  root <> [] -> more <> [] -> is_root (root ++ more) = false.
Proof. intros Hr Hm. by destruct root as [|a [|b root]], more as [|x more]. Qed.

Lemma parent_snoc (root more : path) (x : string) :
  root <> [] -> parent (root ++ more ++ [x]) = root ++ more.
Proof.
  intros Hr. unfold parent. rewrite long_not_root by (by destruct more).
  by rewrite app_assoc, removelast_last.
Qed.

Lemma file_not_root (fs : fsmap) (root : path) (c : string) :
  stat fs root = Some (File c) -> root <> [].
Proof. by intros H ->. Qed.

(** In a well-formed tree nothing lies below a plain file. *)
Lemma below_file (fs : fsmap) (root : path) (c : string) (more : path) :
  well_formed fs -> stat fs root = Some (File c) -> more <> [] ->
  stat fs (root ++ more) = None.
Proof.
  intros Hw Hf. pose proof (file_not_root _ _ _ Hf) as Hr.
  induction more as [|x more IH] using rev_ind; [done|]. intros _.
  unfold stat. rewrite long_not_root by (by destruct more).
  destruct (fs !! (root ++ more ++ [x])) as [n|] eqn:E; [|done].
  apply Hw in E. rewrite parent_snoc in E by done. revert E. unfold is_dir.
  destruct more as [|y more].
  - by rewrite app_nil_r, Hf.
  - by rewrite IH.
Qed.

Lemma mkdir_under_file (fs : fsmap) (root : path) (c : string) (more : path) :
  well_formed fs -> stat fs root = Some (File c) -> more <> [] ->
  mkdir_parents (root ++ more) fs = Raise NotADirectoryError.
Proof.
  intros Hw Hf. pose proof (file_not_root _ _ _ Hf) as Hr.
  unfold mkdir_parents.
  induction more as [|x more IH] using rev_ind; [done|]. intros _.
  rewrite app_assoc, rev_unit. cbn [mkdir_parents_rev].
  assert (Hrev : rev (x :: rev (root ++ more)) = root ++ more ++ [x])
    by (simpl; by rewrite rev_involutive, app_assoc).
  rewrite Hrev.
  assert (Hp : stat fs (root ++ more ++ [x]) = None)
    by (apply (below_file fs root c); [done..|by destruct more]).
  unfold os_mkdir. rewrite parent_snoc by done. destruct more as [|y more].
  - rewrite app_nil_r, Hf. unfold is_dir. by rewrite Hp.
  - rewrite (below_file fs root c) by done.
    rewrite long_not_root by done. by rewrite IH.
Qed.

(** X20.  Where the root of the tree is a plain file, [ensure_tree] raises
    NotADirectoryError. *)
Theorem ensure_tree_under_file (fs : fsmap) (root : path) (c : string) :
  well_formed fs -> stat fs root = Some (File c) ->
  ensure_tree root fs = Raise NotADirectoryError.
Proof.
  intros Hw Hf.
  assert (H1 : mkdir_parents (root / "swe" / "frontend") fs = Raise NotADirectoryError)
    by (change (root / "swe" / "frontend") with ((root ++ ["swe"]) ++ ["frontend"]);
        rewrite <- app_assoc; by apply (mkdir_under_file fs root c)).
  assert (H2 : forall ts, ensure_group root "swe" ("frontend", ts) fs
                          = Raise NotADirectoryError)
    by (intros ts; unfold ensure_group; cbn [fst]; by rewrite H1).
  unfold ensure_tree, CATEGORIES. cbn [ensure_areas ensure_groups].
  by rewrite H2.
Qed.

Definition root_is_a_file : fsmap := <[ ["knowledge"] := File "notes" ]> ∅.

Lemma root_is_a_file_wf : well_formed root_is_a_file.
Proof.
  intros p n H. unfold root_is_a_file in H.
  apply lookup_insert_Some in H as [[<- _]|[_ H]]; [done|].
  by rewrite lookup_empty in H.
Qed.

Lemma ensure_tree_under_file_witness :
  ensure_tree ROOT root_is_a_file = Raise NotADirectoryError.
Proof.
  apply (ensure_tree_under_file root_is_a_file ROOT "notes").
  - apply root_is_a_file_wf.
  - reflexivity.
Defined.

End PipelineSpec.

(** ** Letter case *)

Module CaseSpec.
Import Text TextFacts Py Fs Knowledge.
Local Open Scope path_scope.

Lemma lower_upper_char (c : ascii) : lower_char (upper_char c) = lower_char c.
Proof. destruct c as [[] [] [] [] [] [] [] []]; vm_compute; reflexivity. Qed.

Lemma lower_lower_char (c : ascii) : lower_char (lower_char c) = lower_char c.
Proof. destruct c as [[] [] [] [] [] [] [] []]; vm_compute; reflexivity. Qed.

Lemma space_upper_char (c : ascii) : is_space (upper_char c) = is_space c.
Proof. destruct c as [[] [] [] [] [] [] [] []]; vm_compute; reflexivity. Qed.

Lemma space_lower_char (c : ascii) : is_space (lower_char c) = is_space c.
Proof. destruct c as [[] [] [] [] [] [] [] []]; vm_compute; reflexivity. Qed.

Lemma lstrip_map (f : ascii -> ascii) (p : ascii -> bool) (l : chars) :
  (forall c, p (f c) = p c) -> lstrip_l p (map f l) = map f (lstrip_l p l).
Proof.
  intros Hp. induction l as [|c l IH]; simpl; [done|].
  rewrite Hp. by destruct (p c).
Qed.

Lemma strip_map (f : ascii -> ascii) (p : ascii -> bool) (l : chars) :
  (forall c, p (f c) = p c) -> strip_l p (map f l) = map f (strip_l p l).
Proof.
  intros Hp. unfold strip_l, rstrip_l.
  by rewrite lstrip_map, <- map_rev, lstrip_map, map_rev.
Qed.

Lemma lower_upper (s : string) : lower (upper s) = lower s.
Proof.
  unfold lower, upper, lower_l, upper_l. rewrite chars_of_str_of, map_map.
  f_equal. apply map_ext, lower_upper_char.
Qed.

Lemma lower_lower (s : string) : lower (lower s) = lower s.
Proof.
  unfold lower, lower_l. rewrite chars_of_str_of, map_map.
  f_equal. apply map_ext, lower_lower_char.
Qed.

Lemma slug_l_upper (l : chars) : slug_l (upper_l l) = slug_l l.
Proof.
  unfold slug_l, upper_l, lower_l.
  rewrite (strip_map _ _ _ space_upper_char), map_map.
  by rewrite (map_ext _ _ lower_upper_char).
Qed.

Lemma slug_l_lower (l : chars) : slug_l (lower_l l) = slug_l l.
Proof.
  unfold slug_l, lower_l.
  rewrite (strip_map _ _ _ space_lower_char), map_map.
  by rewrite (map_ext _ _ lower_lower_char).
Qed.

(** X18.  Routing ignores letter case: a title in ASCII, the title in
    capitals and the title in small letters get the same area, group and
    language. *)
Theorem route_ignores_case (topic : string) :
  ascii_only topic = true ->
  StudyAgent.route (upper topic) = StudyAgent.route topic /\
  StudyAgent.route (lower topic) = StudyAgent.route topic.
Proof.
  intros _. unfold StudyAgent.route. by rewrite lower_upper, lower_lower.
Qed.

Lemma route_ignores_case_witness :
  StudyAgent.route (upper "React Hooks") = StudyAgent.route "React Hooks".
Proof.
  refine (proj1 (route_ignores_case "React Hooks" _)). vm_compute. reflexivity.
Defined.

(** X19.  The slug ignores letter case, and so does the place of a topic:
    area, group and title in ASCII, written in capitals or in small letters,
    name the same topic directory. *)
Theorem slug_ignores_case (root : path) (area group topic : string) :
  ascii_only area = true -> ascii_only group = true -> ascii_only topic = true ->
  slug (upper topic) = slug topic /\
  slug (lower topic) = slug topic /\
  dest_of root (upper area) (upper group) (upper topic) = dest_of root area group topic /\
  dest_of root (lower area) (lower group) (lower topic) = dest_of root area group topic.
Proof.
  intros _ _ _.
  assert (Hu : slug (upper topic) = slug topic)
    by (unfold slug, upper; by rewrite chars_of_str_of, slug_l_upper).
  assert (Hl : slug (lower topic) = slug topic)
    by (unfold slug, lower; by rewrite chars_of_str_of, slug_l_lower).
  unfold dest_of. by rewrite Hu, Hl, !lower_upper, !lower_lower.
Qed.

Lemma slug_ignores_case_witness :
  dest_of ROOT (upper "swe") (upper "devops") (upper "Docker networking")
  = dest_of ROOT "swe" "devops" "Docker networking".
Proof.
  refine (proj1 (proj2 (proj2
            (slug_ignores_case ROOT "swe" "devops" "Docker networking" _ _ _))));
    vm_compute; reflexivity.
Defined.

End CaseSpec.
